(** * The video-generation pipeline: job submission, status reconciliation
      and the auto-pilot scheduler

    A shallow embedding of [src/lib/video-store.ts] and of the
    [checkVideoStatusFlow] flow, with the properties of the specification
    stated and proved over it.

    The asynchronous functions of the source become computations over an
    explicit [Store]: the Firestore [videos] collection, the process-local
    [videoOperations] table and a trace of the effects issued against the
    external collaborators.  Every [await] is a bind of the monad [M]; a
    rejected promise is the outcome [Throw], and the store a computation
    leaves behind is kept in both cases.  The answers of the outside world
    (clock, generation services, asset store, whether a document write is
    accepted) are read from a [Remote] record.

    Conventions of the model:
    - calls run one after the other; interleavings of concurrent calls at
      their [await]s are not modelled;
    - reads of the document store succeed; writes, uploads and the
      generation services may reject;
    - the [videos] collection is a finite map from document identifier to
      record, so the order of a query snapshot is not that of Firestore; no
      property below depends on it;
    - [Date] works in a time zone at a fixed offset from UTC, and one clock
      serves [Date.now()], [new Date()] and [serverTimestamp()]. *)

From stdpp Require Import gmap strings list fin_maps fin_map_dom pretty.

Local Open Scope string_scope.
Local Open Scope Z_scope.
Local Open Scope list_scope.

(** ** Data model *)

Inductive VideoLength := short | long.

(** [status] is a plain [string] in [VideoDetails]; the five values listed by
    its comment are the only ones the code ever writes or compares. *)
Inductive Status := Processing | Generated | Scheduled | Published | Failed.

Global Instance VideoLength_eq_dec : EqDecision VideoLength.
Proof. solve_decision. Defined.
Global Instance Status_eq_dec : EqDecision Status.
Proof. solve_decision. Defined.

(** Milliseconds since the epoch: [Date.now()], [Date] values and Firestore
    [Timestamp]s. *)
Abbreviation Millis := Z.

Record VideoDetails := {
  id : string;
  uid : string;
  title : string;
  script : string;
  videoLength : option VideoLength;
  thumbnailUrl : option string;
  playlist : option string;
  status : Status;
  optimizedTitle : string;
  optimizedDescription : option string;
  optimizedTags : option (list string);
  optimizedCategory : option string;
  suggestedUploadTime : option string;
  createdAt : Millis;
  videoUrl : option string;
  audioUrl : option string;
  operationName : option string;
}.

(** [Omit<VideoDetails, 'id' | 'uid' | 'createdAt' | 'status'>]. *)
Record NewVideoDetails := {
  n_title : string;
  n_script : string;
  n_videoLength : option VideoLength;
  n_thumbnailUrl : option string;
  n_playlist : option string;
  n_optimizedTitle : string;
  n_optimizedDescription : option string;
  n_optimizedTags : option (list string);
  n_optimizedCategory : option string;
  n_suggestedUploadTime : option string;
  n_videoUrl : option string;
  n_audioUrl : option string;
  n_operationName : option string;
}.

(** The [Partial<VideoDetails>] values handed to [updateVideoMetadata]: the
    fields that some caller sets. *)
Record Patch := {
  p_status : option Status;
  p_videoUrl : option string;
  p_audioUrl : option string;
  p_operationName : option string;
}.

(** The long-running operation of the generation service. *)
Record Media := { url : string }.
Record Part := { text : option string; media : option Media }.
Record Message := { content : list Part }.
Record Output := { message : option Message }.
Record OperationError := { errorMessage : string }.
Record Operation := {
  done : bool;
  error : option OperationError;
  output : option Output;
}.

Record OperationInfo := { operation : Operation; storedAt : Millis }.

(** Requests and answers of the generation flows. *)
Record ScriptRequest := {
  sr_length : VideoLength;
  sr_topic : option string;
  sr_videoTitle : option string;
  sr_inspirationVideoUrl : option string;
}.
Record ScriptResult := {
  res_script : string;
  res_title : string;
  res_topic : string;
}.
Record OptimizeRequest := {
  or_videoTitle : string;
  or_script : string;
  or_videoCategory : string;
  or_videoDescription : string;
  or_videoTags : string;
}.
Record OptimizationResult := {
  optTitle : string;
  optDescription : option string;
  optTags : option (list string);
  optCategory : option string;
  optSuggestedUploadTime : option string;
}.
Record SeriesSuggestion := {
  ss_topic : string;
  ss_playlist : string;
  ss_isNewSeries : bool;
}.
Record ThumbnailRequest := {
  th_topic : string;
  th_script : string;
  th_title : string;
  th_videoId : string;
}.

Inductive CheckStatus := processing | completed | failed | not_found.

Record CheckVideoStatusOutput := {
  out_status : CheckStatus;
  out_videoUrl : option string;
}.

(** ** Effects *)

(** What the core asks of its collaborators, in the order it asks.  Reads of
    the document store and of the clock are not recorded. *)
Inductive Event :=
  | EvSetDoc (videoData : VideoDetails)
  | EvMergeDoc (videoId : string) (metadata : Patch)
  | EvGenerateScript (req : ScriptRequest)
  | EvOptimize (req : OptimizeRequest)
  | EvCreateAIVideo (script videoId : string)
  | EvCheckOperation (op : Operation)
  | EvUploadString (path data : string)
  | EvGetDownloadURL (path : string)
  | EvSpeech (script : string)
  | EvThumbnail (req : ThumbnailRequest)
  | EvSuggestSeries (existingPlaylists : list string).

Record Store := {
  videos : gmap string VideoDetails;
  videoOperations : gmap string OperationInfo;
  trace : list Event;
}.

Definition emptyStore : Store :=
  {| videos := ∅; videoOperations := ∅; trace := [] |}.

Definition withVideos (f : gmap string VideoDetails → gmap string VideoDetails)
    (st : Store) : Store :=
  {| videos := f (videos st);
     videoOperations := videoOperations st;
     trace := trace st |}.

Definition withOperations
    (f : gmap string OperationInfo → gmap string OperationInfo)
    (st : Store) : Store :=
  {| videos := videos st;
     videoOperations := f (videoOperations st);
     trace := trace st |}.

Definition withTrace (f : list Event → list Event) (st : Store) : Store :=
  {| videos := videos st;
     videoOperations := videoOperations st;
     trace := f (trace st) |}.

(** The answer of a collaborator: a value, or a rejection. *)
Inductive Answer (A : Type) := Ok (a : A) | Rejected.
Arguments Ok {A} a.
Arguments Rejected {A}.

(** The outside world during one call of the core. *)
Record Remote := {
  (** [Date.now()], [new Date()] and [serverTimestamp()] *)
  clock : Millis;
  (** offset of the local time zone of [Date] from UTC *)
  utcOffset : Millis;
  (** the identifier Firestore picks for [doc(videoCollection)] *)
  newDocId : string;
  (** does [setDoc(newDocRef, videoData)] go through *)
  docCreate : string → bool;
  (** does [setDoc(videoRef, metadata, {merge: true})] go through *)
  docWrite : string → Patch → bool;
  generateVideoScript : ScriptRequest → Answer ScriptResult;
  optimizeYoutubeUpload : OptimizeRequest → Answer OptimizationResult;
  (** the render submission behind [createAIVideo]: the name of the new
      operation and its first descriptor *)
  renderSubmit : string → string → Answer (string * Operation);
  checkOperation : Operation → Answer Operation;
  uploadString : string → string → bool;
  getDownloadURL : string → Answer string;
  generateSpeechAudio : string → Answer string;
  suggestSeriesStrategy : list string → Answer SeriesSuggestion;
}.

(** The result of an asynchronous call: it resolves with a value or rejects. *)
Inductive Outcome (A : Type) := Ret (a : A) | Throw.
Arguments Ret {A} a.
Arguments Throw {A}.

Definition M (A : Type) : Type := Store → Outcome A * Store.

Definition ret {A} (a : A) : M A := fun st => (Ret a, st).
Definition throw {A} : M A := fun st => (Throw, st).
Definition bind {A B} (c : M A) (k : A → M B) : M B :=
  fun st =>
    match c st with
    | (Ret a, st') => k a st'
    | (Throw, st') => (Throw, st')
    end.

(** [try { body } catch (e) { handler }] *)
Definition tryCatch {A} (body handler : M A) : M A :=
  fun st =>
    match body st with
    | (Ret a, st') => (Ret a, st')
    | (Throw, st') => handler st'
    end.

Notation "'await' x := c 'in' k" := (bind c (fun x => k))
  (at level 10, x name, c at level 100, k at level 200, only parsing).

Definition emit (e : Event) : M unit :=
  fun st => (Ret tt, withTrace (fun t => t ++ [e]) st).

Definition readStore {A} (f : Store → A) : M A := fun st => (Ret (f st), st).

(** Awaiting an answer of a collaborator. *)
Definition answer {A} (a : Answer A) : M A :=
  match a with Ok x => ret x | Rejected => throw end.

Definition accepted (b : bool) : M unit := if b then ret tt else throw.

(** JavaScript truthiness of an optional string: [undefined] and the empty
    string are falsy. *)
Definition truthy (o : option string) : bool :=
  match o with
  | Some s => negb (String.eqb s "")
  | None => false
  end.

Definition modify (f : Store → Store) : M unit := fun st => (Ret tt, f st).

(** [a || d] on an optional string. *)
Definition orElse (a : option string) (d : string) : string :=
  match a with
  | Some s => if String.eqb s "" then d else s
  | None => d
  end.

(** ** Firestore video management ([video-store.ts]) *)

(** [{...details, id, uid, status: 'Processing', createdAt}] *)
Definition videoDataOf (newId uid : string) (now : Millis)
    (details : NewVideoDetails) : VideoDetails :=
  {| id := newId;
     uid := uid;
     title := n_title details;
     script := n_script details;
     videoLength := n_videoLength details;
     thumbnailUrl := n_thumbnailUrl details;
     playlist := n_playlist details;
     status := Processing;
     optimizedTitle := n_optimizedTitle details;
     optimizedDescription := n_optimizedDescription details;
     optimizedTags := n_optimizedTags details;
     optimizedCategory := n_optimizedCategory details;
     suggestedUploadTime := n_suggestedUploadTime details;
     createdAt := now;
     videoUrl := n_videoUrl details;
     audioUrl := n_audioUrl details;
     operationName := n_operationName details |}.

Definition addNewVideo (env : Remote) (uid : string)
    (details : NewVideoDetails) : M string :=
  let newDocRef := newDocId env in
  let videoData := videoDataOf newDocRef uid (clock env) details in
  await _ := emit (EvSetDoc videoData) in
  await _ := accepted (docCreate env newDocRef) in
  await _ := modify (withVideos (insert newDocRef videoData)) in
  ret newDocRef.

(** The fields of [metadata] overwrite those of the stored document. *)
Definition applyPatch (metadata : Patch) (v : VideoDetails) : VideoDetails :=
  {| id := id v;
     uid := uid v;
     title := title v;
     script := script v;
     videoLength := videoLength v;
     thumbnailUrl := thumbnailUrl v;
     playlist := playlist v;
     status := default (status v) (p_status metadata);
     optimizedTitle := optimizedTitle v;
     optimizedDescription := optimizedDescription v;
     optimizedTags := optimizedTags v;
     optimizedCategory := optimizedCategory v;
     suggestedUploadTime := suggestedUploadTime v;
     createdAt := createdAt v;
     videoUrl := from_option Some (videoUrl v) (p_videoUrl metadata);
     audioUrl := from_option Some (audioUrl v) (p_audioUrl metadata);
     operationName :=
       from_option Some (operationName v) (p_operationName metadata) |}.

(** [setDoc(videoRef, metadata, { merge: true })].  On an identifier without
    a document Firestore would create one that holds the fields of [metadata]
    only, which is no [VideoDetails]; the core writes only to documents it has
    just read or created and never deletes one, and here such a write changes
    nothing. *)
Definition updateVideoMetadata (env : Remote) (videoId : string)
    (metadata : Patch) : M unit :=
  await _ := emit (EvMergeDoc videoId metadata) in
  await _ := accepted (docWrite env videoId metadata) in
  modify (withVideos (alter (applyPatch metadata) videoId)).

Definition getVideo (videoId : string) : M (option VideoDetails) :=
  readStore (fun st => videos st !! videoId).

(** [where("uid", "==", uid)] *)
Definition ownedBy (u : string) (kv : string * VideoDetails) : Prop :=
  uid kv.2 = u.

Global Instance ownedBy_dec u kv : Decision (ownedBy u kv).
Proof. unfold ownedBy. apply _. Defined.

Definition getAllVideos (u : string) : M (list VideoDetails) :=
  readStore (fun st => (map_to_list (filter (ownedBy u) (videos st))).*2).

(** The [Date] arithmetic, for a time zone at a fixed offset from UTC. *)
Definition msPerDay : Z := 24 * 60 * 60 * 1000.

(** [setHours(0, 0, 0, 0)] *)
Definition startOfLocalDay (env : Remote) (t : Millis) : Millis :=
  t - (t + utcOffset env) `mod` msPerDay.

(** [setHours(23, 59, 59, 999)] *)
Definition endOfLocalDay (env : Remote) (t : Millis) : Millis :=
  startOfLocalDay env t + (msPerDay - 1).

(** [getDay()]: 0 is Sunday; the first of January 1970 was a Thursday. *)
Definition getDay (env : Remote) (t : Millis) : Z :=
  ((t + utcOffset env) `div` msPerDay + 4) `mod` 7.

(** [where("uid", "==", uid)], [where("createdAt", ">=", lo)] and
    [where("createdAt", "<=", hi)] *)
Definition ownedWithin (u : string) (lo hi : Millis)
    (kv : string * VideoDetails) : Prop :=
  uid kv.2 = u ∧ lo ≤ createdAt kv.2 ∧ createdAt kv.2 ≤ hi.

Global Instance ownedWithin_dec u lo hi kv : Decision (ownedWithin u lo hi kv).
Proof. unfold ownedWithin. apply _. Defined.

Definition hasLength (l : VideoLength) (kv : string * VideoDetails) : Prop :=
  videoLength kv.2 = Some l.

Global Instance hasLength_dec l kv : Decision (hasLength l kv).
Proof. unfold hasLength. apply _. Defined.

Record VideoCounts := { shorts : nat; longs : nat }.

(** The [forEach] that increments [shorts] and [longs]. *)
Definition countByLength (querySnapshot : gmap string VideoDetails)
    : VideoCounts :=
  {| shorts := size (filter (hasLength short) querySnapshot);
     longs := size (filter (hasLength long) querySnapshot) |}.

Definition getTodaysVideoCounts (env : Remote) (u : string) : M VideoCounts :=
  let today := clock env in
  let startOfDay := startOfLocalDay env today in
  let endOfDay := endOfLocalDay env startOfDay in
  await querySnapshot :=
    readStore (fun st => filter (ownedWithin u startOfDay endOfDay) (videos st)) in
  ret (countByLength querySnapshot).

Definition getThisWeeksVideoCounts (env : Remote) (u : string)
    : M VideoCounts :=
  let today := clock env in
  let dayOfWeek := getDay env today in
  let startOfWeek := startOfLocalDay env (today - dayOfWeek * msPerDay) in
  let endOfWeek := endOfLocalDay env (startOfWeek + 6 * msPerDay) in
  await querySnapshot :=
    readStore (fun st => filter (ownedWithin u startOfWeek endOfWeek) (videos st)) in
  ret (countByLength querySnapshot).

(** ** Operation management (in memory) *)

Definition storeOperation (env : Remote) (operationName : string)
    (op : Operation) : M unit :=
  modify (withOperations
    (insert operationName {| operation := op; storedAt := clock env |})).

Definition getOperation (env : Remote) (operationName : string)
    : M (option OperationInfo) :=
  await operationInfo :=
    readStore (fun st => videoOperations st !! operationName) in
  match operationInfo with
  | Some info =>
      if bool_decide (clock env - storedAt info > 24 * 60 * 60 * 1000) then
        await _ := modify (withOperations (delete operationName)) in
        ret None
      else ret operationInfo
  | None => ret operationInfo
  end.

(** ** Playlists *)

(** [Set.add]: insertion order, no duplicates. *)
Definition setAdd (acc : list string) (s : string) : list string :=
  if bool_decide (s ∈ acc) then acc else acc ++ [s].

Definition getPlaylists (u : string) : M (list string) :=
  await vs := getAllVideos u in
  ret (foldl
         (fun playlists video =>
            if truthy (playlist video)
            then setAdd playlists (default "" (playlist video))
            else playlists)
         [] vs).

(** [where("uid", "==", uid)] and [where("playlist", "==", playlist)] *)
Definition inPlaylist (u pl : string) (kv : string * VideoDetails) : Prop :=
  uid kv.2 = u ∧ playlist kv.2 = Some pl.

Global Instance inPlaylist_dec u pl kv : Decision (inPlaylist u pl kv).
Proof. unfold inPlaylist. apply _. Defined.

Definition countVideosInPlaylist (u pl : string) : M nat :=
  readStore (fun st => size (filter (inPlaylist u pl) (videos st))).

(** ** Job submission *)

Definition operationNamePatch (operationName : string) : Patch :=
  {| p_status := None; p_videoUrl := None; p_audioUrl := None;
     p_operationName := Some operationName |}.

(** Modelled from the spec: [createAIVideo] (the flow
    [ai/flows/create-ai-video]) is missing from the sources.  It is the render
    submitter, [submit({script, videoId}) → operationName]: the operation
    descriptor is created in the operation cache when the render operation is
    submitted, and the record of the video gets its [operationName].  A
    submission that fails rejects before anything is written. *)
Definition createAIVideo (env : Remote) (script videoId : string) : M unit :=
  await _ := emit (EvCreateAIVideo script videoId) in
  await submitted := answer (renderSubmit env script videoId) in
  await _ := storeOperation env submitted.1 submitted.2 in
  updateVideoMetadata env videoId (operationNamePatch submitted.1).

(** Step 1 of [createAndProcessVideo]: the script that was handed in, or a
    generated one. *)
Definition resolveScript (env : Remote) (len : VideoLength)
    (topic title inspirationVideoUrl script : option string)
    : M ScriptResult :=
  if truthy script then
    ret {| res_script := default "" script;
           res_title := orElse title "Untitled";
           res_topic := orElse topic "Custom Script" |}
  else
    let req := {| sr_length := len; sr_topic := topic;
                  sr_videoTitle := title;
                  sr_inspirationVideoUrl := inspirationVideoUrl |} in
    await _ := emit (EvGenerateScript req) in
    answer (generateVideoScript env req).

Definition optimizeRequest (scriptResult : ScriptResult) : OptimizeRequest :=
  {| or_videoTitle := res_title scriptResult;
     or_script := res_script scriptResult;
     or_videoCategory := "Technology";
     or_videoDescription := " ";
     or_videoTags := "" |}.

(** The argument of [addNewVideo] in step 3. *)
Definition newVideoDetails (scriptResult : ScriptResult) (len : VideoLength)
    (playlist : option string) (optimizationResult : OptimizationResult)
    : NewVideoDetails :=
  {| n_title := res_title scriptResult;
     n_script := res_script scriptResult;
     n_videoLength := Some len;
     n_thumbnailUrl := None;
     n_playlist := playlist;
     n_optimizedTitle := optTitle optimizationResult;
     n_optimizedDescription := optDescription optimizationResult;
     n_optimizedTags := optTags optimizationResult;
     n_optimizedCategory := optCategory optimizationResult;
     n_suggestedUploadTime := optSuggestedUploadTime optimizationResult;
     n_videoUrl := None;
     n_audioUrl := None;
     n_operationName := None |}.

Definition createAndProcessVideo (env : Remote) (uid : string)
    (len : VideoLength)
    (playlist topic title inspirationVideoUrl script : option string)
    : M (string * string) :=
  (* Step 1: generate the script if one isn't provided *)
  await scriptResult :=
    resolveScript env len topic title inspirationVideoUrl script in
  (* Step 2: optimize the script *)
  await _ := emit (EvOptimize (optimizeRequest scriptResult)) in
  await optimizationResult :=
    answer (optimizeYoutubeUpload env (optimizeRequest scriptResult)) in
  (* Step 3: store the new video with all its metadata *)
  await videoId :=
    addNewVideo env uid
      (newVideoDetails scriptResult len playlist optimizationResult) in
  (* Step 4: start the video generation *)
  await _ := createAIVideo env (res_script scriptResult) videoId in
  ret (videoId, optTitle optimizationResult).

(** ** Auto-pilot *)

Definition weeklyLongGoal : Z := 2.
Definition dailyShortGoal : Z := 3.

(** [for (let i = 0; i < n; i++) { await body(i) }], entered at index [i]. *)
Fixpoint forLoop (n : nat) (i : nat) (body : nat → M unit) : M unit :=
  match n with
  | O => ret tt
  | S n' => await _ := body i in forLoop n' (S i) body
  end.

Definition shortsNeeded (currentShorts : nat) : Z :=
  Z.max 0 (dailyShortGoal - Z.of_nat currentShorts).

Definition longsNeeded (currentLongs : nat) : Z :=
  Z.max 0 (weeklyLongGoal - Z.of_nat currentLongs).

(** The title of the episode: [`${topic} - Part ${n}`]. *)
Definition partTitle (topic : string) (n : nat) : string :=
  topic +:+ " - Part " +:+ pretty n.

(** [env] answers the scheduler's own questions, [jobs i] the [i]-th call of
    [createAndProcessVideo] of the loop. *)
Definition createShorts (env : Remote) (jobs : nat → Remote) (uid : string)
    : M unit :=
  await counts := getTodaysVideoCounts env uid in
  let needed := shortsNeeded (shorts counts) in
  if bool_decide (needed > 0) then
    forLoop (Z.to_nat needed) 0 (fun i =>
      await _ := createAndProcessVideo (jobs i) uid short None
                   (Some "a trending topic") None None None in
      ret tt)
  else ret tt.

Definition createLongs (env : Remote) (jobs : nat → Remote) (uid : string)
    : M unit :=
  await counts := getThisWeeksVideoCounts env uid in
  let needed := longsNeeded (longs counts) in
  if bool_decide (needed > 0) then
    await existingPlaylists := getPlaylists uid in
    await _ := emit (EvSuggestSeries existingPlaylists) in
    await seriesSuggestion :=
      answer (suggestSeriesStrategy env existingPlaylists) in
    let topic := ss_topic seriesSuggestion in
    let playlist := ss_playlist seriesSuggestion in
    await startPart :=
      (if ss_isNewSeries seriesSuggestion then ret 1%nat
       else await n := countVideosInPlaylist uid playlist in ret (n + 1)%nat) in
    forLoop (Z.to_nat needed) 0 (fun i =>
      let videoTitle := partTitle topic (startPart + i) in
      await _ := createAndProcessVideo (jobs i) uid long (Some playlist)
                   (Some topic) (Some videoTitle) None None in
      ret tt)
  else ret tt.

Definition runAutoPilot (env : Remote) (jobs : nat → Remote) (uid : string)
    (videoType : VideoLength) : M unit :=
  match videoType with
  | long => createLongs env jobs uid
  | short => createShorts env jobs uid
  end.

(** ** Status reconciliation ([checkVideoStatusFlow]) *)

Definition failedPatch : Patch :=
  {| p_status := Some Failed; p_videoUrl := None; p_audioUrl := None;
     p_operationName := None |}.

Definition statusOnly (s : CheckStatus) : CheckVideoStatusOutput :=
  {| out_status := s; out_videoUrl := None |}.

(** [await updateVideoMetadata(videoId, { status: 'Failed' });
     return { status: 'failed' };] *)
Definition markFailed (env : Remote) (videoId : string)
    : M CheckVideoStatusOutput :=
  await _ := updateVideoMetadata env videoId failedPatch in
  ret (statusOnly failed).

(** [operation.output?.message?.content.find(p => !!p.media)], and the
    [url] of its [media] unless it is empty. *)
Definition videoMediaUrl (op : Operation) : option string :=
  match output op with
  | Some o =>
      match message o with
      | Some m =>
          match List.find (fun p => bool_decide (is_Some (media p))) (content m) with
          | Some videoMediaPart =>
              match media videoMediaPart with
              | Some md => if String.eqb (url md) "" then None else Some (url md)
              | None => None
              end
          | None => None
          end
      | None => None
      end
  | None => None
  end.

Definition finalStatusOf (videoDetails : VideoDetails) : Status :=
  if truthy (suggestedUploadTime videoDetails) then Scheduled else Generated.

Definition finalPatch (vUrl aUrl : string) (finalStatus : Status) : Patch :=
  {| p_status := Some finalStatus; p_videoUrl := Some vUrl;
     p_audioUrl := Some aUrl; p_operationName := None |}.

(** The body of the [try] block. *)
Definition materialize (env : Remote) (videoId : string)
    (videoDetails : VideoDetails) (mediaUrl : string)
    : M CheckVideoStatusOutput :=
  (* 1. upload the video *)
  let videoRef := "videos/" +:+ videoId +:+ "/generated_video.mp4" in
  await _ := emit (EvUploadString videoRef mediaUrl) in
  await _ := accepted (uploadString env videoRef mediaUrl) in
  await _ := emit (EvGetDownloadURL videoRef) in
  await vUrl := answer (getDownloadURL env videoRef) in
  (* 2. generate and upload the audio *)
  await _ := emit (EvSpeech (script videoDetails)) in
  await audioDataUri := answer (generateSpeechAudio env (script videoDetails)) in
  let audioRef := "videos/" +:+ videoId +:+ "/generated_audio.wav" in
  await _ := emit (EvUploadString audioRef audioDataUri) in
  await _ := accepted (uploadString env audioRef audioDataUri) in
  await _ := emit (EvGetDownloadURL audioRef) in
  await aUrl := answer (getDownloadURL env audioRef) in
  (* 3. update the document with the URLs *)
  let finalStatus := finalStatusOf videoDetails in
  await _ := updateVideoMetadata env videoId (finalPatch vUrl aUrl finalStatus) in
  (* 4. thumbnail generation, not awaited *)
  await _ :=
    (if bool_decide (finalStatus = Scheduled ∨ finalStatus = Generated) then
       emit (EvThumbnail {| th_topic := title videoDetails;
                            th_script := script videoDetails;
                            th_title := optimizedTitle videoDetails;
                            th_videoId := videoId |})
     else ret tt) in
  ret {| out_status := completed; out_videoUrl := Some vUrl |}.

(** The [try] block with its [catch]. *)
Definition materializeOrFail (env : Remote) (videoId : string)
    (videoDetails : VideoDetails) (mediaUrl : string)
    : M CheckVideoStatusOutput :=
  tryCatch (materialize env videoId videoDetails mediaUrl)
           (markFailed env videoId).

Definition checkVideoStatus (env : Remote) (videoId : string)
    : M CheckVideoStatusOutput :=
  await found := getVideo videoId in
  match found with
  | None => ret (statusOnly not_found)
  | Some videoDetails =>
      (* if the URLs are already stored, it is completed *)
      if truthy (videoUrl videoDetails) && truthy (audioUrl videoDetails) then
        ret {| out_status := completed;
               out_videoUrl := videoUrl videoDetails |}
      else if negb (truthy (operationName videoDetails)) then
        markFailed env videoId
      else
        await operationInfo :=
          getOperation env (default "" (operationName videoDetails)) in
        match operationInfo with
        | None => markFailed env videoId
        | Some info =>
            await op :=
              (if negb (done (operation info)) then
                 await _ := emit (EvCheckOperation (operation info)) in
                 answer (checkOperation env (operation info))
               else ret (operation info)) in
            if done op then
              if bool_decide (is_Some (error op)) then markFailed env videoId
              else
                match videoMediaUrl op with
                | None => markFailed env videoId
                | Some mediaUrl =>
                    materializeOrFail env videoId videoDetails mediaUrl
                end
            else ret (statusOnly processing)
        end
  end.

(** ** Histories of calls *)

(** The entry points of the core, each with the world it runs in. *)
Inductive Call :=
  | CreateAndProcessVideo (env : Remote) (uid : string) (len : VideoLength)
      (playlist topic title inspirationVideoUrl script : option string)
  | CheckVideoStatus (env : Remote) (videoId : string)
  | RunAutoPilot (env : Remote) (jobs : nat → Remote) (uid : string)
      (videoType : VideoLength).

(** The store a call leaves behind, whether it resolves or rejects. *)
Definition perform (c : Call) (st : Store) : Store :=
  match c with
  | CreateAndProcessVideo env uid len playlist topic title insp script =>
      (createAndProcessVideo env uid len playlist topic title insp script st).2
  | CheckVideoStatus env videoId => (checkVideoStatus env videoId st).2
  | RunAutoPilot env jobs uid videoType =>
      (runAutoPilot env jobs uid videoType st).2
  end.

(** Calls made one after the other, from the empty store of a fresh process
    on an empty collection. *)
Definition run (calls : list Call) : Store :=
  foldl (fun st c => perform c st) emptyStore calls.

(** Every URL that the asset store answers during the call satisfies [U]. *)
Definition urlsSatisfy (U : string → Prop) (c : Call) : Prop :=
  match c with
  | CheckVideoStatus env _ => ∀ path u, getDownloadURL env path = Ok u → U u
  | _ => True
  end.

(** The asset store answers [getDownloadURL] with a URL, never with the
    empty string. *)
Definition urlsNonEmpty (c : Call) : Prop :=
  urlsSatisfy (fun u => u ≠ "") c.

Definition urlsUnset (r : VideoDetails) : Prop :=
  videoUrl r = None ∧ audioUrl r = None.

(** A metadata update of the reconciliation engine never carries one URL
    without the other, and carries them exactly when it carries the status
    [Generated] or [Scheduled]. *)
Definition writesUrlsTogether (e : Event) : Prop :=
  match e with
  | EvMergeDoc _ p =>
      (is_Some (p_videoUrl p) ↔ is_Some (p_audioUrl p)) ∧
      (is_Some (p_videoUrl p) ↔
         (p_status p = Some Generated ∨ p_status p = Some Scheduled))
  | _ => True
  end.

(** ** Sample worlds *)

Definition pendingOperation : Operation :=
  {| done := false; error := None; output := None |}.

Definition finishedOperation : Operation :=
  {| done := true; error := None;
     output :=
       Some {| message :=
         Some {| content :=
           [ {| text := Some "done"; media := None |};
             {| text := None; media := Some {| url := "data:video/mp4" |} |} ]
         |} |} |}.

(** Every collaborator answers; the render is finished at the first poll. *)
Definition sunnyDay (now : Millis) (docId : string) : Remote :=
  {| clock := now;
     utcOffset := 0;
     newDocId := docId;
     docCreate := fun _ => true;
     docWrite := fun _ _ => true;
     generateVideoScript := fun req =>
       Ok {| res_script := "Once upon a time";
             res_title := default "A title" (sr_videoTitle req);
             res_topic := default "a topic" (sr_topic req) |};
     optimizeYoutubeUpload := fun req =>
       Ok {| optTitle := or_videoTitle req +:+ "!";
             optDescription := None; optTags := None; optCategory := None;
             optSuggestedUploadTime := None |};
     renderSubmit := fun _ videoId => Ok ("op-" +:+ videoId, pendingOperation);
     checkOperation := fun _ => Ok finishedOperation;
     uploadString := fun _ _ => true;
     getDownloadURL := fun path => Ok ("https://storage/" +:+ path);
     generateSpeechAudio := fun _ => Ok "data:audio/wav";
     suggestSeriesStrategy := fun _ =>
       Ok {| ss_topic := "Rust"; ss_playlist := "Rust series";
             ss_isNewSeries := true |} |}.

(** As [sunnyDay], but the render is still running at the poll. *)
Definition stillRendering (now : Millis) : Remote :=
  {| clock := now;
     utcOffset := 0;
     newDocId := "unused";
     docCreate := fun _ => true;
     docWrite := fun _ _ => true;
     generateVideoScript := generateVideoScript (sunnyDay now "unused");
     optimizeYoutubeUpload := optimizeYoutubeUpload (sunnyDay now "unused");
     renderSubmit := renderSubmit (sunnyDay now "unused");
     checkOperation := fun _ => Ok pendingOperation;
     uploadString := fun _ _ => true;
     getDownloadURL := getDownloadURL (sunnyDay now "unused");
     generateSpeechAudio := fun _ => Ok "data:audio/wav";
     suggestSeriesStrategy := suggestSeriesStrategy (sunnyDay now "unused") |}.

(** The asset store refuses uploads; the document store accepts a write when
    [storeUp] holds. *)
Definition storageDown (now : Millis) (storeUp : bool) : Remote :=
  {| clock := now;
     utcOffset := 0;
     newDocId := "unused";
     docCreate := fun _ => storeUp;
     docWrite := fun _ _ => storeUp;
     generateVideoScript := generateVideoScript (sunnyDay now "unused");
     optimizeYoutubeUpload := optimizeYoutubeUpload (sunnyDay now "unused");
     renderSubmit := renderSubmit (sunnyDay now "unused");
     checkOperation := fun _ => Ok finishedOperation;
     uploadString := fun _ _ => false;
     getDownloadURL := getDownloadURL (sunnyDay now "unused");
     generateSpeechAudio := fun _ => Ok "data:audio/wav";
     suggestSeriesStrategy := suggestSeriesStrategy (sunnyDay now "unused") |}.

(** The render submitter rejects. *)
Definition renderDown (now : Millis) (docId : string) : Remote :=
  {| clock := now;
     utcOffset := 0;
     newDocId := docId;
     docCreate := fun _ => true;
     docWrite := fun _ _ => true;
     generateVideoScript := generateVideoScript (sunnyDay now docId);
     optimizeYoutubeUpload := optimizeYoutubeUpload (sunnyDay now docId);
     renderSubmit := fun _ _ => Rejected;
     checkOperation := fun _ => Ok finishedOperation;
     uploadString := fun _ _ => true;
     getDownloadURL := getDownloadURL (sunnyDay now docId);
     generateSpeechAudio := fun _ => Ok "data:audio/wav";
     suggestSeriesStrategy := suggestSeriesStrategy (sunnyDay now docId) |}.

(** The script generator rejects. *)
Definition scriptDown (now : Millis) (docId : string) : Remote :=
  {| clock := now;
     utcOffset := 0;
     newDocId := docId;
     docCreate := fun _ => true;
     docWrite := fun _ _ => true;
     generateVideoScript := fun _ => Rejected;
     optimizeYoutubeUpload := optimizeYoutubeUpload (sunnyDay now docId);
     renderSubmit := renderSubmit (sunnyDay now docId);
     checkOperation := fun _ => Ok finishedOperation;
     uploadString := fun _ _ => true;
     getDownloadURL := getDownloadURL (sunnyDay now docId);
     generateSpeechAudio := fun _ => Ok "data:audio/wav";
     suggestSeriesStrategy := suggestSeriesStrategy (sunnyDay now docId) |}.

(** One video of user [u1], submitted at time 1000 and still rendering. *)
Definition oneSubmitted : Store :=
  perform (CreateAndProcessVideo (sunnyDay 1000 "v1") "u1" short None None
             (Some "My Title") None None) emptyStore.

(** The same video after a successful reconciliation at time 2000. *)
Definition oneGenerated : Store :=
  perform (CheckVideoStatus (sunnyDay 2000 "unused") "v1") oneSubmitted.

(** ** Vocabulary of the properties *)

(** [c] keeps the property [I] of the store, however it ends. *)
Definition preserves (I : Store → Prop) {A} (c : M A) : Prop :=
  ∀ st, I st → I (c st).2.

(** [checkVideoStatus] on [st] gets as far as the [try] block, for the
    record [r] and the media [mediaUrl]; the last argument is the store at
    that point.  The record lacks a stored URL, its operation is cached and
    not expired, and the descriptor (the cached one when it is done, else the
    one the remote check answers) is done, without error, and holds a media
    part. *)
Inductive ReachesMaterialization (env : Remote) (videoId : string)
    (st : Store) (r : VideoDetails) (mediaUrl : string) : Store → Prop :=
  | reaches_cached name info :
      videos st !! videoId = Some r →
      truthy (videoUrl r) && truthy (audioUrl r) = false →
      operationName r = Some name →
      truthy (Some name) = true →
      videoOperations st !! name = Some info →
      clock env - storedAt info ≤ 24 * 60 * 60 * 1000 →
      done (operation info) = true →
      error (operation info) = None →
      videoMediaUrl (operation info) = Some mediaUrl →
      ReachesMaterialization env videoId st r mediaUrl st
  | reaches_polled name info op :
      videos st !! videoId = Some r →
      truthy (videoUrl r) && truthy (audioUrl r) = false →
      operationName r = Some name →
      truthy (Some name) = true →
      videoOperations st !! name = Some info →
      clock env - storedAt info ≤ 24 * 60 * 60 * 1000 →
      done (operation info) = false →
      checkOperation env (operation info) = Ok op →
      done op = true →
      error op = None →
      videoMediaUrl op = Some mediaUrl →
      ReachesMaterialization env videoId st r mediaUrl
        (withTrace (fun t => t ++ [EvCheckOperation (operation info)]) st).

(** The record that [oneSubmitted] holds. *)
Definition submittedRecord : VideoDetails :=
  {| id := "v1";
     uid := "u1";
     title := "My Title";
     script := "Once upon a time";
     videoLength := Some short;
     thumbnailUrl := None;
     playlist := None;
     status := Processing;
     optimizedTitle := "My Title!";
     optimizedDescription := None;
     optimizedTags := None;
     optimizedCategory := None;
     suggestedUploadTime := None;
     createdAt := 1000;
     videoUrl := None;
     audioUrl := None;
     operationName := Some "op-v1" |}.

(** Every stored record satisfies [P], and every metadata update issued so
    far carried its URLs together. *)
Definition storeInv (P : VideoDetails → Prop) (st : Store) : Prop :=
  (∀ i r, videos st !! i = Some r → P r)
  ∧ Forall writesUrlsTogether (trace st).

(** The shapes of a record that the core produces: no URL yet, in status
    [Processing] or [Failed]; or both URLs stored, each satisfying [U], in
    status [Generated] or [Scheduled], or [Failed] again. *)
Definition recordShape (U : string → Prop) (r : VideoDetails) : Prop :=
  (urlsUnset r ∧ (status r = Processing ∨ status r = Failed))
  ∨ (∃ v a, videoUrl r = Some v ∧ audioUrl r = Some a ∧ U v ∧ U a
            ∧ (status r = Generated ∨ status r = Scheduled
               ∨ status r = Failed)).

(** The collaborators of one job submission all answer: a script comes
    back, so do the optimized metadata and the render operation, and the
    document store takes the new record and its operation name. *)
Definition reliable (env : Remote) : Prop :=
  (∀ req, ∃ scriptResult, generateVideoScript env req = Ok scriptResult)
  ∧ (∀ req, ∃ optimizationResult,
       optimizeYoutubeUpload env req = Ok optimizationResult)
  ∧ docCreate env (newDocId env) = true
  ∧ (∀ scr videoId, ∃ submitted, renderSubmit env scr videoId = Ok submitted)
  ∧ (∀ videoId name, docWrite env videoId (operationNamePatch name) = true).

(** The requests sent to the script generator, in order. *)
Definition scriptRequests (evs : list Event) : list ScriptRequest :=
  omap (fun e => match e with EvGenerateScript req => Some req | _ => None end)
       evs.

(** The records handed to [setDoc] by [addNewVideo], in order. *)
Definition createdDocs (evs : list Event) : list VideoDetails :=
  omap (fun e => match e with EvSetDoc videoData => Some videoData | _ => None end)
       evs.

(** The request of a short job of the auto-pilot. *)
Definition trendingRequest : ScriptRequest :=
  {| sr_length := short; sr_topic := Some "a trending topic";
     sr_videoTitle := None; sr_inspirationVideoUrl := None |}.

(** The request of episode [n] of a series. *)
Definition episodeRequest (topic : string) (n : nat) : ScriptRequest :=
  {| sr_length := long; sr_topic := Some topic;
     sr_videoTitle := Some (partTitle topic n);
     sr_inspirationVideoUrl := None |}.

(** The user's videos of length [l] created within [lo, hi], both ends
    included. *)
Definition createdWithin (u : string) (l : VideoLength) (lo hi : Millis)
    (kv : string * VideoDetails) : Prop :=
  hasLength l kv ∧ ownedWithin u lo hi kv.

Global Instance createdWithin_dec u l lo hi kv :
  Decision (createdWithin u l lo hi kv).
Proof. unfold createdWithin. apply _. Defined.

(** Local midnight of the day of [clock env], and of the Sunday on or before
    it. *)
Definition startOfToday (env : Remote) : Millis :=
  startOfLocalDay env (clock env).

Definition startOfThisWeek (env : Remote) : Millis :=
  startOfToday env - getDay env (clock env) * msPerDay.

(** The worlds of the jobs of one auto-pilot run at time 5000. *)
Definition autopilotJobs (i : nat) : Remote :=
  sunnyDay 5000 ("auto-" +:+ pretty i).

(** As [sunnyDay], but the strategist continues the series "Rust series". *)
Definition continuingSeries (now : Millis) : Remote :=
  {| clock := now;
     utcOffset := 0;
     newDocId := "unused";
     docCreate := fun _ => true;
     docWrite := fun _ _ => true;
     generateVideoScript := generateVideoScript (sunnyDay now "unused");
     optimizeYoutubeUpload := optimizeYoutubeUpload (sunnyDay now "unused");
     renderSubmit := renderSubmit (sunnyDay now "unused");
     checkOperation := fun _ => Ok finishedOperation;
     uploadString := fun _ _ => true;
     getDownloadURL := getDownloadURL (sunnyDay now "unused");
     generateSpeechAudio := fun _ => Ok "data:audio/wav";
     suggestSeriesStrategy := fun _ =>
       Ok {| ss_topic := "Rust"; ss_playlist := "Rust series";
             ss_isNewSeries := false |} |}.

(** The first episode of "Rust series", a long video of user [u1]. *)
Definition oneEpisode : Store :=
  perform (CreateAndProcessVideo (sunnyDay 1000 "ep1") "u1" long
             (Some "Rust series") (Some "Rust") (Some "Rust - Part 1")
             None None) emptyStore.

(** [{ status: s }] *)
Definition statusPatch (s : Status) : Patch :=
  {| p_status := Some s; p_videoUrl := None; p_audioUrl := None;
     p_operationName := None |}.

(** The record is [Failed] or still [Processing]. *)
Definition unfinished (kv : string * VideoDetails) : Prop :=
  status kv.2 = Failed ∨ status kv.2 = Processing.

Global Instance unfinished_dec kv : Decision (unfinished kv).
Proof. unfold unfinished. apply _. Defined.

(** The store with the documents of user [u] only. *)
Definition onlyOwnedBy (u : string) (st : Store) : Store :=
  withVideos (filter (ownedBy u)) st.

(** Three shorts of user [u1], submitted by the auto-pilot at time 5000, all
    of which failed at materialization. *)
Definition threeFailed : Store :=
  run [RunAutoPilot (sunnyDay 5000 "unused") autopilotJobs "u1" short;
       CheckVideoStatus (storageDown 6000 true) "auto-0";
       CheckVideoStatus (storageDown 6000 true) "auto-1";
       CheckVideoStatus (storageDown 6000 true) "auto-2"].

(** The body of [if (operation.done) { ... }] in [checkVideoStatusFlow],
    for the descriptor [op] that the flow holds at that point. *)
Definition whenDone (env : Remote) (videoId : string)
    (videoDetails : VideoDetails) (op : Operation)
    : M CheckVideoStatusOutput :=
  if bool_decide (is_Some (error op)) then markFailed env videoId
  else
    match videoMediaUrl op with
    | None => markFailed env videoId
    | Some mediaUrl => materializeOrFail env videoId videoDetails mediaUrl
    end.

(** The store once the remote check of [op] has been issued. *)
Definition polled (op : Operation) (st : Store) : Store :=
  withTrace (fun t => t ++ [EvCheckOperation op]) st.

(** The descriptors sent to the remote check, in order. *)
Definition polls (evs : list Event) : list Operation :=
  omap (fun e => match e with EvCheckOperation op => Some op | _ => None end)
       evs.

(** Traffic with the asset store and the speech generator. *)
Definition isAssetCall (e : Event) : bool :=
  match e with
  | EvUploadString _ _ | EvGetDownloadURL _ | EvSpeech _ => true
  | _ => false
  end.

(** The thumbnail requests, in order. *)
Definition thumbnails (evs : list Event) : list ThumbnailRequest :=
  omap (fun e => match e with EvThumbnail req => Some req | _ => None end) evs.

(** The metadata updates, in order. *)
Definition merges (evs : list Event) : list (string * Patch) :=
  omap (fun e => match e with EvMergeDoc i p => Some (i, p) | _ => None end)
       evs.

(** What a reconciliation leaves of a record: everything but [status],
    [videoUrl] and [audioUrl]. *)
Definition sameRequest (r r' : VideoDetails) : Prop :=
  id r' = id r ∧ uid r' = uid r ∧ title r' = title r ∧ script r' = script r
  ∧ videoLength r' = videoLength r ∧ thumbnailUrl r' = thumbnailUrl r
  ∧ playlist r' = playlist r ∧ optimizedTitle r' = optimizedTitle r
  ∧ optimizedDescription r' = optimizedDescription r
  ∧ optimizedTags r' = optimizedTags r
  ∧ optimizedCategory r' = optimizedCategory r
  ∧ suggestedUploadTime r' = suggestedUploadTime r
  ∧ createdAt r' = createdAt r ∧ operationName r' = operationName r.

(** The direction in which a reconciliation moves a record: never back to
    [Processing], and never from a stored URL to none. *)
Definition progresses (r r' : VideoDetails) : Prop :=
  (status r ≠ Processing → status r' ≠ Processing)
  ∧ (is_Some (videoUrl r) → is_Some (videoUrl r'))
  ∧ (is_Some (audioUrl r) → is_Some (audioUrl r')).

(** The collection [m'] holds the documents of [m], each as a reconciliation
    may have left it. *)
Definition reconciled (m m' : gmap string VideoDetails) : Prop :=
  ∀ i, match m !! i, m' !! i with
       | Some r, Some r' => sameRequest r r' ∧ progresses r r'
       | None, None => True
       | _, _ => False
       end.

(** [`videos/${videoId}/generated_video.mp4`] and
    [`videos/${videoId}/generated_audio.wav`] *)
Definition videoPath (videoId : string) : string :=
  "videos/" +:+ videoId +:+ "/generated_video.mp4".

Definition audioPath (videoId : string) : string :=
  "videos/" +:+ videoId +:+ "/generated_audio.wav".

(** The argument of [generateThumbnail] in step 4. *)
Definition thumbnailFor (videoDetails : VideoDetails) (videoId : string)
    : ThumbnailRequest :=
  {| th_topic := title videoDetails;
     th_script := script videoDetails;
     th_title := optimizedTitle videoDetails;
     th_videoId := videoId |}.

(** How the flow can end once it has decided to write: with the answer, the
    collection and the thumbnail requests it leaves, from the collection [m]
    it started on.  It wrote [Failed] and answers [failed]; or a write was
    refused and it rejects, the collection being as it was; or it stored both
    URLs with the final status, asked for one thumbnail and answers
    [completed]. *)
Inductive Settlement (videoId : string) (r : VideoDetails)
    (m : gmap string VideoDetails)
    : Outcome CheckVideoStatusOutput → gmap string VideoDetails
      → list ThumbnailRequest → Prop :=
  | settled_failed :
      Settlement videoId r m (Ret (statusOnly failed))
        (alter (applyPatch failedPatch) videoId m) []
  | settled_rejected :
      Settlement videoId r m Throw m []
  | settled_completed v a :
      Settlement videoId r m
        (Ret {| out_status := completed; out_videoUrl := Some v |})
        (alter (applyPatch (finalPatch v a (finalStatusOf r))) videoId m)
        [thumbnailFor r videoId].

(** [checkVideoStatus] on [st] gets as far as the [try] block for the record
    [r], and every step of the block goes through in the world [env]: both
    uploads, both download URLs ([vUrl] for the video, [aUrl] for the audio),
    the speech from the stored script, and the write of the URLs with the
    final status. *)
Definition MaterializationSucceeds (env : Remote) (videoId : string)
    (st : Store) (r : VideoDetails) (vUrl aUrl : string) : Prop :=
  ∃ mediaUrl st0 audioDataUri,
    ReachesMaterialization env videoId st r mediaUrl st0
    ∧ uploadString env (videoPath videoId) mediaUrl = true
    ∧ getDownloadURL env (videoPath videoId) = Ok vUrl
    ∧ generateSpeechAudio env (script r) = Ok audioDataUri
    ∧ uploadString env (audioPath videoId) audioDataUri = true
    ∧ getDownloadURL env (audioPath videoId) = Ok aUrl
    ∧ docWrite env videoId (finalPatch vUrl aUrl (finalStatusOf r)) = true.

(** Reconciliation calls made one after the other, each in its own world,
    as the poller makes them over time. *)
Definition reconcileAll (checks : list (Remote * string)) (st : Store)
    : Store :=
  foldl (fun s c => (checkVideoStatus c.1 c.2 s).2) st checks.

(** [handleRetryVideo] of the content page, for a signed-in user: a new
    submission from the fields of the failed record,
    [createAndProcessVideo(user.uid, video.videoLength || 'short',
    video.playlist, video.title, video.optimizedTitle, undefined,
    video.script)]. *)
Definition handleRetryVideo (env : Remote) (userUid : string)
    (video : VideoDetails) : M (string * string) :=
  createAndProcessVideo env userUid (default short (videoLength video))
    (playlist video) (Some (title video)) (Some (optimizedTitle video)) None
    (Some (script video)).

(** [handleOwnScriptSubmit] of the create page, for a signed-in user and
    form data that passed [ownScriptSchema]. *)
Definition handleOwnScriptSubmit (env : Remote) (userUid : string)
    (dataTitle dataScript : string) (dataLength : VideoLength)
    : M (string * string) :=
  createAndProcessVideo env userUid dataLength None (Some "Custom Script")
    (Some dataTitle) None (Some dataScript).

(** ** The [useAuth] hook *)

Module Auth.

Record AppUser := {
  uid : string;
  email : option string;
  name : option string;
  isAdmin : bool;
  isActivated : bool;
  (** a time in milliseconds, [null] or absent *)
  activationExpires : option Z;
}.

(** What the hook reads of the Firebase [User]. *)
Record FirebaseUser := {
  fbUid : string;
  fbEmail : option string;
  fbDisplayName : option string;
}.

(** The state behind [useState]. *)
Record HookState := {
  user : option FirebaseUser;
  appUser : option AppUser;
  isLoading : bool;
}.

Definition initialState : HookState :=
  {| user := None; appUser := None; isLoading := true |}.

Definition initialAdminEmails : list string :=
  ["deypartho569@gmail.com"; "Pdey02485@gmail.com"].

(** JavaScript truthiness of an optional number. *)
Definition truthyNumber (n : option Z) : bool :=
  match n with
  | Some z => negb (z =? 0)
  | None => false
  end.

(** [userData.isActivated && userData.activationExpires
     && new Date().getTime() > userData.activationExpires] *)
Definition activationExpired (now : Z) (userData : AppUser) : bool :=
  isActivated userData && truthyNumber (activationExpires userData)
  && bool_decide (now > default 0 (activationExpires userData)).

(** The callback handed to [onAuthStateChanged].  [toLowerCase] is
    [String.prototype.toLowerCase]; [writeOk] says whether the one write of
    the call, [updateDoc] or [setDoc], goes through.  The result is whether
    the callback resolved, the [users] collection and the state of the hook
    after it. *)
Definition onAuthStateChanged (toLowerCase : string → string) (now : Z)
    (writeOk : bool) (firebaseUser : option FirebaseUser)
    (users : gmap string AppUser) (h : HookState)
    : bool * gmap string AppUser * HookState :=
  match firebaseUser with
  | Some fu =>
      let h1 := {| user := Some fu; appUser := appUser h;
                   isLoading := isLoading h |} in
      match users !! fbUid fu with
      | Some userData =>
          if activationExpired now userData then
            let updatedUserData :=
              {| uid := uid userData; email := email userData;
                 name := name userData; isAdmin := isAdmin userData;
                 isActivated := false; activationExpires := None |} in
            if writeOk then
              (true, <[fbUid fu := updatedUserData]> users,
               {| user := Some fu; appUser := Some updatedUserData;
                  isLoading := false |})
            else (false, users, h1)
          else
            (true, users,
             {| user := Some fu; appUser := Some userData;
                isLoading := false |})
      | None =>
          let email := match fbEmail fu with
                       | Some e => if String.eqb (toLowerCase e) "" then ""
                                   else toLowerCase e
                       | None => ""
                       end in
          let isAdmin := bool_decide (email ∈ initialAdminEmails) in
          let newUserData :=
            {| uid := fbUid fu; email := Some email;
               name := fbDisplayName fu; isAdmin := isAdmin;
               isActivated := isAdmin; activationExpires := None |} in
          if writeOk then
            (true, <[fbUid fu := newUserData]> users,
             {| user := Some fu; appUser := Some newUserData;
                isLoading := false |})
          else (false, users, h1)
      end
  | None =>
      (true, users, {| user := None; appUser := None; isLoading := false |})
  end.

(** [isAdmin: appUser?.isAdmin || false] and
    [isActivated: appUser?.isActivated || false] *)
Definition reportedAdmin (h : HookState) : bool :=
  from_option isAdmin false (appUser h).

Definition reportedActivated (h : HookState) : bool :=
  from_option isActivated false (appUser h).

(** An upper-case letter of ASCII. *)
Definition isUpper (c : Ascii.ascii) : bool :=
  (65 <=? Ascii.nat_of_ascii c)%nat && (Ascii.nat_of_ascii c <=? 90)%nat.

(** What is used of [toLowerCase]: its result holds no upper-case letter of
    ASCII. *)
Definition lowercases (toLowerCase : string → string) : Prop :=
  ∀ s, forallb (fun c => negb (isUpper c))
         (String.list_ascii_of_string (toLowerCase s)) = true.

(** [toLowerCase] on ASCII, other characters left as they are. *)
Fixpoint asciiLower (s : string) : string :=
  match s with
  | EmptyString => EmptyString
  | String c s' =>
      String (if isUpper c then Ascii.ascii_of_nat (Ascii.nat_of_ascii c + 32) else c)
             (asciiLower s')
  end.

End Auth.

(** * Properties *)

(** ** Computations, step by step *)

(** Unfolding the plumbing of [M], and nothing else. *)
Ltac mrun :=
  cbv beta iota zeta delta
    [bind emit ret throw accepted answer modify readStore tryCatch].

Lemma bind_resolved {A B} (c : M A) (k : A → M B) st a st1 :
  c st = (Ret a, st1) → bind c k st = k a st1.
Proof. intros E. unfold bind. by rewrite E. Qed.

Lemma bind_rejected {A B} (c : M A) (k : A → M B) st st1 :
  c st = (Throw, st1) → bind c k st = (Throw, st1).
Proof. intros E. unfold bind. by rewrite E. Qed.

Lemma preserves_ret I {A} (a : A) : preserves I (ret a).
Proof. intros st H. exact H. Qed.

Lemma preserves_throw I {A} : preserves I (@throw A).
Proof. intros st H. exact H. Qed.

Lemma preserves_bind I {A B} (c : M A) (k : A → M B) :
  preserves I c → (∀ a, preserves I (k a)) → preserves I (bind c k).
Proof.
  intros Hc Hk st H. unfold bind. specialize (Hc st H).
  destruct (c st) as [[a|] st']; simpl in *; [by apply Hk | done].
Qed.

Lemma preserves_tryCatch I {A} (body handler : M A) :
  preserves I body → preserves I handler → preserves I (tryCatch body handler).
Proof.
  intros Hb Hh st H. unfold tryCatch. specialize (Hb st H).
  destruct (body st) as [[a|] st']; simpl in *; [done | by apply Hh].
Qed.

Lemma preserves_answer I {A} (a : Answer A) : preserves I (answer a).
Proof. destruct a; [apply preserves_ret | apply preserves_throw]. Qed.

Lemma preserves_accepted I b : preserves I (accepted b).
Proof. destruct b; [apply preserves_ret | apply preserves_throw]. Qed.

Lemma preserves_readStore I {A} (f : Store → A) : preserves I (readStore f).
Proof. intros st H. exact H. Qed.

Lemma preserves_modify (I : Store → Prop) f :
  (∀ st, I st → I (f st)) → preserves I (modify f).
Proof. intros Hf st H. by apply Hf. Qed.

Lemma preserves_emit (I : Store → Prop) e :
  (∀ st, I st → I (withTrace (fun t => t ++ [e]) st)) → preserves I (emit e).
Proof. intros Hf st H. by apply Hf. Qed.

Lemma preserves_if I {A} (b : bool) (c1 c2 : M A) :
  preserves I c1 → preserves I c2 → preserves I (if b then c1 else c2).
Proof. by destruct b. Qed.

Lemma preserves_forLoop I n i body :
  (∀ j, preserves I (body j)) → preserves I (forLoop n i body).
Proof.
  intros Hb. revert i. induction n as [|n IH]; intros i; simpl.
  - apply preserves_ret.
  - apply preserves_bind; [apply Hb | intros _; apply IH].
Qed.

(** Case analysis on the next answer of the asset store, the speech
    generator or the document store. *)
Ltac ask_world :=
  match goal with
  | |- context [uploadString ?e ?a ?b] =>
      destruct (uploadString e a b) eqn:?; simpl
  | |- context [getDownloadURL ?e ?a] =>
      destruct (getDownloadURL e a) eqn:?; simpl
  | |- context [generateSpeechAudio ?e ?a] =>
      destruct (generateSpeechAudio e a) eqn:?; simpl
  | |- context [docWrite ?e ?a ?b] =>
      destruct (docWrite e a b) eqn:?; simpl
  | |- context [bool_decide ?P] =>
      destruct (bool_decide P) eqn:?; simpl
  end.

(** The two ways [markFailed] can end. *)
Lemma markFailed_accepted env videoId st :
  docWrite env videoId failedPatch = true →
  markFailed env videoId st =
    (Ret (statusOnly failed),
     withVideos (alter (applyPatch failedPatch) videoId)
       (withTrace (fun t => t ++ [EvMergeDoc videoId failedPatch]) st)).
Proof.
  intros H. unfold markFailed, updateVideoMetadata, bind, emit, accepted.
  by rewrite H.
Qed.

Lemma markFailed_refused env videoId st :
  docWrite env videoId failedPatch = false →
  markFailed env videoId st =
    (Throw, withTrace (fun t => t ++ [EvMergeDoc videoId failedPatch]) st).
Proof.
  intros H. unfold markFailed, updateVideoMetadata, bind, emit, accepted.
  by rewrite H.
Qed.

Lemma markFailed_trace env videoId st :
  trace (markFailed env videoId st).2 =
    trace st ++ [EvMergeDoc videoId failedPatch].
Proof.
  destruct (docWrite env videoId failedPatch) eqn:Hw.
  - by rewrite markFailed_accepted.
  - by rewrite markFailed_refused.
Qed.

Lemma markFailed_not_processing env videoId st out st' :
  markFailed env videoId st = (Ret out, st') → out_status out = failed.
Proof.
  destruct (docWrite env videoId failedPatch) eqn:E.
  - rewrite markFailed_accepted by done. by intros [= <- _].
  - by rewrite markFailed_refused.
Qed.

(** [materialize] resolves with [completed] only. *)
Lemma materialize_completed env videoId r mediaUrl st out st' :
  materialize env videoId r mediaUrl st = (Ret out, st') →
  out_status out = completed.
Proof.
  unfold materialize, updateVideoMetadata, bind, emit, accepted, answer,
    modify, ret, throw.
  repeat ask_world; try done; by intros [= <- _].
Qed.

Lemma materializeOrFail_not_processing env videoId r mediaUrl st out st' :
  materializeOrFail env videoId r mediaUrl st = (Ret out, st') →
  out_status out ≠ processing.
Proof.
  unfold materializeOrFail, tryCatch.
  destruct (materialize env videoId r mediaUrl st) as [[o|] st1] eqn:E.
  - intros [= <- _]. by rewrite (materialize_completed _ _ _ _ _ _ _ E).
  - intros H. by rewrite (markFailed_not_processing _ _ _ _ _ H).
Qed.

(** ** Status reconciliation *)

(** C2.  A stored record whose [videoUrl] and [audioUrl] are both populated
    makes [checkVideoStatus] answer [{status: 'completed', videoUrl}] and
    leave the whole store as it was: no document written, the operation
    table untouched, and no event added to the trace, so no remote poll.
    A second call right after the first, in whatever world, gives the same
    outcome again. *)
Theorem checkVideoStatus_populated_short_circuit
    env env' videoId st (r : VideoDetails) :
  videos st !! videoId = Some r →
  truthy (videoUrl r) = true →
  truthy (audioUrl r) = true →
  checkVideoStatus env videoId st =
    (Ret {| out_status := completed; out_videoUrl := videoUrl r |}, st)
  ∧ checkVideoStatus env' videoId (checkVideoStatus env videoId st).2 =
      checkVideoStatus env videoId st.
Proof.
  intros Hr Hv Ha.
  assert (∀ e, checkVideoStatus e videoId st =
    (Ret {| out_status := completed; out_videoUrl := videoUrl r |}, st)) as H.
  { intros e. unfold checkVideoStatus, bind, getVideo, readStore.
    by rewrite Hr, Hv, Ha. }
  split; [apply H |]. by rewrite !H.
Qed.

Lemma checkVideoStatus_populated_short_circuit_witness :
  checkVideoStatus (stillRendering 3000) "v1" oneGenerated =
    (Ret {| out_status := completed;
            out_videoUrl :=
              Some "https://storage/videos/v1/generated_video.mp4" |},
     oneGenerated)
  ∧ checkVideoStatus (storageDown 4000 false) "v1"
      (checkVideoStatus (stillRendering 3000) "v1" oneGenerated).2 =
    checkVideoStatus (stillRendering 3000) "v1" oneGenerated.
Proof.
  assert (∃ r, videos oneGenerated !! "v1" = Some r
               ∧ videoUrl r = Some "https://storage/videos/v1/generated_video.mp4"
               ∧ truthy (videoUrl r) = true ∧ truthy (audioUrl r) = true)
    as (r & Hr & Hu & Hv & Ha).
  { eexists. split; [vm_compute; reflexivity |]. by vm_compute. }
  rewrite <- Hu.
  exact (checkVideoStatus_populated_short_circuit
           (stillRendering 3000) (storageDown 4000 false) "v1" oneGenerated r
           Hr Hv Ha).
Defined.

(** C9.  When [checkVideoStatus] answers [{status: 'processing'}], the
    record exists, names an operation that is cached and not done, and the
    remote check answered with a descriptor that is not done either.  The call
    wrote nothing: the collection of videos and the operation table are what
    they were, so the cache still holds the descriptor it held, with the
    [storedAt] it had, and not the refreshed one.  The only effect is the one
    poll. *)
Theorem checkVideoStatus_processing_writes_nothing env videoId st out st' :
  checkVideoStatus env videoId st = (Ret out, st') →
  out_status out = processing →
  videos st' = videos st
  ∧ videoOperations st' = videoOperations st
  ∧ ∃ r name info refreshed,
      videos st !! videoId = Some r
      ∧ operationName r = Some name
      ∧ videoOperations st !! name = Some info
      ∧ done (operation info) = false
      ∧ checkOperation env (operation info) = Ok refreshed
      ∧ done refreshed = false
      ∧ videoOperations st' !! name = Some info
      ∧ trace st' = trace st ++ [EvCheckOperation (operation info)].
Proof.
  unfold checkVideoStatus, bind at 1, getVideo, readStore.
  destruct (videos st !! videoId) as [r|] eqn:Hr; [| by intros [= <- _]].
  destruct (truthy (videoUrl r) && truthy (audioUrl r)); [by intros [= <- _] |].
  destruct (operationName r) as [name|] eqn:Hname; simpl;
    [| by intros Hm%markFailed_not_processing; rewrite Hm].
  destruct (negb (String.eqb name "")); simpl;
    [| by intros Hm%markFailed_not_processing; rewrite Hm].
  unfold bind at 1, getOperation, bind at 1, readStore.
  destruct (videoOperations st !! name) as [info|] eqn:Hinfo; simpl;
    [| by intros Hm%markFailed_not_processing; rewrite Hm].
  case_bool_decide; simpl;
    [by intros Hm%markFailed_not_processing; rewrite Hm |].
  unfold bind at 1.
  destruct (done (operation info)) eqn:Hdone; simpl.
  - rewrite Hdone. repeat case_match;
      try (by intros Hm%markFailed_not_processing; rewrite Hm).
    by intros Hm%materializeOrFail_not_processing.
  - unfold bind, emit, answer.
    destruct (checkOperation env (operation info)) as [op|] eqn:Hop; simpl;
      [| done].
    destruct (done op) eqn:Hdone'.
    + repeat case_match;
        try (by intros Hm%markFailed_not_processing; rewrite Hm).
      by intros Hm%materializeOrFail_not_processing.
    + intros [= <- <-] _. simpl. split_and!; try done.
      exists r, name, info, op. by split_and!.
Qed.

Lemma checkVideoStatus_processing_writes_nothing_witness :
  videos (checkVideoStatus (stillRendering 2000) "v1" oneSubmitted).2 =
    videos oneSubmitted
  ∧ videoOperations (checkVideoStatus (stillRendering 2000) "v1" oneSubmitted).2 =
      videoOperations oneSubmitted.
Proof.
  pose proof (checkVideoStatus_processing_writes_nothing
    (stillRendering 2000) "v1" oneSubmitted (statusOnly processing)
    (checkVideoStatus (stillRendering 2000) "v1" oneSubmitted).2) as H.
  destruct H as (Hv & Ho & _).
  - vm_compute. reflexivity.
  - reflexivity.
  - split; assumption.
Defined.

Lemma checkVideoStatus_materializes env videoId st r mediaUrl st0 :
  ReachesMaterialization env videoId st r mediaUrl st0 →
  checkVideoStatus env videoId st =
    materializeOrFail env videoId r mediaUrl st0.
Proof.
  intros [name info Hr Hu Hn Ht Hi Hc Hd He Hm
         |name info op Hr Hu Hn Ht Hi Hc Hd Hp Hd' He Hm];
    unfold checkVideoStatus, bind at 1, getVideo, readStore;
    rewrite Hr, Hu, Hn; simpl in Ht |- *; rewrite Ht; simpl;
    unfold bind at 1, getOperation, bind at 1, readStore;
    rewrite Hi; simpl; rewrite bool_decide_eq_false_2 by lia; simpl;
    unfold bind at 1; rewrite Hd; simpl.
  - rewrite Hd, He, Hm. by rewrite bool_decide_eq_false_2 by by intros [? ?].
  - unfold bind, emit, answer. rewrite Hp. simpl.
    rewrite Hd', He, Hm. by rewrite bool_decide_eq_false_2 by by intros [? ?].
Qed.

(** A [try] body that throws has not written to the collection. *)
Lemma materialize_throw_frame env videoId r mediaUrl st st' :
  materialize env videoId r mediaUrl st = (Throw, st') →
  videos st' = videos st ∧ videoOperations st' = videoOperations st.
Proof.
  unfold materialize, updateVideoMetadata, bind, emit, accepted, answer,
    modify, ret, throw.
  repeat ask_world; try done; by intros [= <-].
Qed.

Lemma oneSubmitted_reaches_materialization env :
  clock env ≤ 86401000 →
  checkOperation env pendingOperation = Ok finishedOperation →
  ReachesMaterialization env "v1" oneSubmitted submittedRecord "data:video/mp4"
    (withTrace (fun t => t ++ [EvCheckOperation pendingOperation]) oneSubmitted).
Proof.
  intros Hc Hp.
  apply (reaches_polled env "v1" oneSubmitted submittedRecord "data:video/mp4"
           "op-v1" {| operation := pendingOperation; storedAt := 1000 |}
           finishedOperation); try done.
  simpl. lia.
Qed.

(** C3, as amended.  An exception raised by any step of the [try] block
    (video upload, URL derivation, speech generation, audio upload, the
    metadata write) is caught, and the handler writes the status [Failed].
    When the document store accepts that write, the record is [Failed] and the
    call resolves with [{status: 'failed'}].  When the store refuses it, the
    handler's own rejection reaches the caller and the collection is left as
    it was.  Either way the failed materialization has stored no URL and no
    status [Generated] or [Scheduled]. *)
Theorem materialization_failure_is_downgraded
    env videoId st r mediaUrl st0 :
  ReachesMaterialization env videoId st r mediaUrl st0 →
  (materialize env videoId r mediaUrl st0).1 = Throw →
  (docWrite env videoId failedPatch = true →
     (checkVideoStatus env videoId st).1 = Ret (statusOnly failed)
     ∧ videos (checkVideoStatus env videoId st).2 =
         alter (applyPatch failedPatch) videoId (videos st)
     ∧ status <$> videos (checkVideoStatus env videoId st).2 !! videoId =
         Some Failed)
  ∧ (docWrite env videoId failedPatch = false →
     (checkVideoStatus env videoId st).1 = Throw
     ∧ videos (checkVideoStatus env videoId st).2 = videos st).
Proof.
  intros Hreach Hthrow.
  assert (videos st0 = videos st) as Hst0 by (by destruct Hreach).
  assert (videos st !! videoId = Some r) as Hr by (by destruct Hreach).
  rewrite (checkVideoStatus_materializes _ _ _ _ _ _ Hreach).
  unfold materializeOrFail, tryCatch.
  destruct (materialize env videoId r mediaUrl st0) as [[o|] st1] eqn:E;
    [done |].
  apply materialize_throw_frame in E as [Hv _].
  split; intros Hw.
  - rewrite markFailed_accepted by done. simpl. rewrite Hv, Hst0.
    split_and!; try done.
    rewrite lookup_alter_eq, Hr. done.
  - rewrite markFailed_refused by done. simpl. by rewrite Hv, Hst0.
Qed.

Lemma materialization_failure_is_downgraded_witness :
  (checkVideoStatus (storageDown 2000 true) "v1" oneSubmitted).1 =
    Ret (statusOnly failed)
  ∧ status <$> videos (checkVideoStatus (storageDown 2000 true) "v1"
                         oneSubmitted).2 !! "v1" = Some Failed.
Proof.
  destruct (materialization_failure_is_downgraded
    (storageDown 2000 true) "v1" oneSubmitted submittedRecord "data:video/mp4"
    (withTrace (fun t => t ++ [EvCheckOperation pendingOperation]) oneSubmitted))
    as [Hok _].
  - apply oneSubmitted_reaches_materialization; [simpl; lia | reflexivity].
  - vm_compute. reflexivity.
  - destruct Hok as (H1 & _ & H3); [reflexivity |]. split; assumption.
Defined.

(** C3, as stated, fails: the asset store refuses the upload and the document
    store then refuses the handler's write of [Failed]; the call rejects
    instead of resolving with [{status: 'failed'}], and the record still reads
    [Processing]. *)
Lemma materialization_failure_can_reach_the_caller :
  ReachesMaterialization (storageDown 2000 false) "v1" oneSubmitted
    submittedRecord "data:video/mp4"
    (withTrace (fun t => t ++ [EvCheckOperation pendingOperation]) oneSubmitted)
  ∧ (materialize (storageDown 2000 false) "v1" submittedRecord "data:video/mp4"
       (withTrace (fun t => t ++ [EvCheckOperation pendingOperation])
          oneSubmitted)).1 = Throw
  ∧ (checkVideoStatus (storageDown 2000 false) "v1" oneSubmitted).1 = Throw
  ∧ status <$> videos (checkVideoStatus (storageDown 2000 false) "v1"
                         oneSubmitted).2 !! "v1" = Some Processing.
Proof.
  split_and!.
  - apply oneSubmitted_reaches_materialization; [simpl; lia | reflexivity].
  - vm_compute. reflexivity.
  - vm_compute. reflexivity.
  - vm_compute. reflexivity.
Qed.

(** ** Job submission *)

Lemma resolveScript_frame env len topic title insp script st :
  videos (resolveScript env len topic title insp script st).2 = videos st
  ∧ videoOperations (resolveScript env len topic title insp script st).2 =
      videoOperations st.
Proof.
  unfold resolveScript, bind, emit, answer, ret, throw.
  destruct (truthy script); simpl; [done |].
  by destruct (generateVideoScript env _).
Qed.

(** C4, as amended.  When script generation or metadata optimization fails,
    [createAndProcessVideo] rejects and neither the collection of videos nor
    the operation table has changed.  Render submission comes after
    [addNewVideo]: when it fails the call rejects as well, but the record
    stored in step 3 stays in the collection, in status [Processing] and
    without an operation name. *)
Theorem createAndProcessVideo_failure_points
    env uid len playlist topic title insp script st :
  let call := createAndProcessVideo env uid len playlist topic title insp
                script st in
  ((resolveScript env len topic title insp script st).1 = Throw →
     call.1 = Throw
     ∧ videos call.2 = videos st
     ∧ videoOperations call.2 = videoOperations st)
  ∧ (∀ scriptResult,
       (resolveScript env len topic title insp script st).1 = Ret scriptResult →
       optimizeYoutubeUpload env (optimizeRequest scriptResult) = Rejected →
       call.1 = Throw
       ∧ videos call.2 = videos st
       ∧ videoOperations call.2 = videoOperations st)
  ∧ (∀ scriptResult optimizationResult,
       (resolveScript env len topic title insp script st).1 = Ret scriptResult →
       optimizeYoutubeUpload env (optimizeRequest scriptResult) =
         Ok optimizationResult →
       docCreate env (newDocId env) = true →
       renderSubmit env (res_script scriptResult) (newDocId env) = Rejected →
       let stored := videoDataOf (newDocId env) uid (clock env)
                       (newVideoDetails scriptResult len playlist
                          optimizationResult) in
       call.1 = Throw
       ∧ videos call.2 = <[newDocId env := stored]> (videos st)
       ∧ status stored = Processing
       ∧ operationName stored = None
       ∧ videoOperations call.2 = videoOperations st).
Proof.
  intros call. subst call.
  pose proof (resolveScript_frame env len topic title insp script st)
    as [Hv Ho].
  unfold createAndProcessVideo, addNewVideo, createAIVideo. mrun.
  destruct (resolveScript env len topic title insp script st)
    as [[sr|] st1]; simpl in Hv, Ho |- *.
  - split; [done |]. split.
    + intros ? [= <-] Hopt. by rewrite Hopt.
    + intros ? opt [= <-] Hopt Hcreate Hrender.
      rewrite Hopt, Hcreate, Hrender. simpl. by rewrite Hv, Ho.
  - split; [done |]. split; [by intros ? [=] | by intros ? ? [=]].
Qed.

Lemma createAndProcessVideo_failure_points_witness :
  (createAndProcessVideo (scriptDown 1000 "v1") "u1" short None None
     (Some "My Title") None None emptyStore).1 = Throw
  ∧ videos (createAndProcessVideo (scriptDown 1000 "v1") "u1" short None None
              (Some "My Title") None None emptyStore).2 = ∅.
Proof.
  destruct (createAndProcessVideo_failure_points (scriptDown 1000 "v1") "u1"
              short None None (Some "My Title") None None emptyStore)
    as [Hscript _].
  destruct Hscript as (H1 & H2 & _); [reflexivity |].
  split; assumption.
Defined.

(** C4, as stated, fails for the third failure point: the render submitter
    rejects, the call rejects, and the collection, empty before the call,
    holds the new record in status [Processing]. *)
Lemma render_failure_leaves_a_record :
  renderSubmit (renderDown 1000 "v1") "Once upon a time" "v1" = Rejected
  ∧ (createAndProcessVideo (renderDown 1000 "v1") "u1" short None None
       (Some "My Title") None None emptyStore).1 = Throw
  ∧ videos emptyStore !! "v1" = None
  ∧ status <$> videos (createAndProcessVideo (renderDown 1000 "v1") "u1" short
                         None None (Some "My Title") None None
                         emptyStore).2 !! "v1" = Some Processing
  ∧ videos (createAndProcessVideo (renderDown 1000 "v1") "u1" short None None
              (Some "My Title") None None emptyStore).2 ≠ videos emptyStore.
Proof.
  split_and!; try (vm_compute; reflexivity).
  intros H.
  assert (videos (createAndProcessVideo (renderDown 1000 "v1") "u1" short None
                    None (Some "My Title") None None emptyStore).2 !! "v1"
          = None) as Hnone by (rewrite H; reflexivity).
  vm_compute in Hnone. discriminate.
Qed.

(** ** What every call keeps true *)

Section Invariant.
(** [U] holds of the URLs the asset store hands out, [P] is kept by each
    of the four writes of the core. *)
Variable U : string → Prop.
Variable P : VideoDetails → Prop.

Hypothesis P_new : ∀ newId u now d,
  n_videoUrl d = None → n_audioUrl d = None →
  P (videoDataOf newId u now d).
Hypothesis P_failed : ∀ r, P r → P (applyPatch failedPatch r).
Hypothesis P_named : ∀ r n, P r → P (applyPatch (operationNamePatch n) r).
Hypothesis P_final : ∀ r0 r v a,
  P r → U v → U a → P (applyPatch (finalPatch v a (finalStatusOf r0)) r).

Lemma storeInv_withTrace e st :
  writesUrlsTogether e →
  storeInv P st → storeInv P (withTrace (fun t => t ++ [e]) st).
Proof.
  intros He [Hv Ht]. split; [done |]. simpl.
  apply Forall_app. split; [done |]. by apply Forall_singleton.
Qed.

Lemma storeInv_withOperations f st :
  storeInv P st → storeInv P (withOperations f st).
Proof. by intros [Hv Ht]. Qed.

Lemma storeInv_insert i r st :
  P r → storeInv P st → storeInv P (withVideos (insert i r) st).
Proof.
  intros Hr [Hv Ht]. split; [| done]. simpl. intros j r'.
  rewrite lookup_insert. case_decide; [by intros [= <-] | apply Hv].
Qed.

Lemma storeInv_alter f i st :
  (∀ r, P r → P (f r)) →
  storeInv P st → storeInv P (withVideos (alter f i) st).
Proof.
  intros Hf [Hv Ht]. split; [| done]. simpl. intros j r'.
  rewrite lookup_alter. case_decide; [| apply Hv].
  destruct (videos st !! i) as [r|] eqn:E; simpl; [| done].
  intros [= <-]. apply Hf. by eapply Hv.
Qed.

Lemma preserves_bind_answer (I : Store → Prop) {A B}
    (x : Answer A) (k : A → M B) :
  (∀ a, x = Ok a → preserves I (k a)) → preserves I (bind (answer x) k).
Proof.
  intros Hk st H. destruct x as [a|]; simpl; [| done].
  by apply (Hk a).
Qed.

Lemma updateVideoMetadata_preserves env videoId metadata :
  (∀ r, P r → P (applyPatch metadata r)) →
  writesUrlsTogether (EvMergeDoc videoId metadata) →
  preserves (storeInv P) (updateVideoMetadata env videoId metadata).
Proof.
  intros Hp Hq. unfold updateVideoMetadata.
  apply preserves_bind; [| intros _; apply preserves_bind; [| intros _]].
  - apply preserves_emit. intros st. by apply storeInv_withTrace.
  - apply preserves_accepted.
  - apply preserves_modify. intros st. by apply storeInv_alter.
Qed.

Lemma markFailed_preserves env videoId :
  preserves (storeInv P) (markFailed env videoId).
Proof.
  unfold markFailed.
  apply preserves_bind; [| intros _; apply preserves_ret].
  apply updateVideoMetadata_preserves; [apply P_failed |].
  split; split; simpl; intros H; (by destruct H as [? [=]] || by destruct H).
Qed.

Lemma addNewVideo_preserves env u details :
  n_videoUrl details = None → n_audioUrl details = None →
  preserves (storeInv P) (addNewVideo env u details).
Proof.
  intros Hv Ha. unfold addNewVideo.
  apply preserves_bind; [| intros _; apply preserves_bind; [| intros _];
    [| apply preserves_bind; [| intros _; apply preserves_ret]]].
  - apply preserves_emit. intros st. by apply storeInv_withTrace.
  - apply preserves_accepted.
  - apply preserves_modify. intros st. apply storeInv_insert.
    by apply P_new.
Qed.

Lemma createAIVideo_preserves env scr videoId :
  preserves (storeInv P) (createAIVideo env scr videoId).
Proof.
  unfold createAIVideo.
  apply preserves_bind; [| intros _; apply preserves_bind; [| intros sub];
    [| apply preserves_bind; [| intros _]]].
  - apply preserves_emit. intros st. by apply storeInv_withTrace.
  - apply preserves_answer.
  - apply preserves_modify. intros st. apply storeInv_withOperations.
  - apply updateVideoMetadata_preserves; [intros r; apply P_named |].
    split; split; simpl; intros H;
      (by destruct H as [? [=]] || by destruct H).
Qed.

Lemma createAndProcessVideo_preserves
    env u len playlist topic title insp scr :
  preserves (storeInv P)
    (createAndProcessVideo env u len playlist topic title insp scr).
Proof.
  unfold createAndProcessVideo.
  apply preserves_bind; [| intros sr; apply preserves_bind; [| intros _];
    [| apply preserves_bind; [| intros opt];
      [| apply preserves_bind; [| intros videoId];
        [| apply preserves_bind; [| intros _; apply preserves_ret]]]]].
  - unfold resolveScript. apply preserves_if; [apply preserves_ret |].
    apply preserves_bind; [| intros _; apply preserves_answer].
    apply preserves_emit. intros st. by apply storeInv_withTrace.
  - apply preserves_emit. intros st. by apply storeInv_withTrace.
  - apply preserves_answer.
  - by apply addNewVideo_preserves.
  - apply createAIVideo_preserves.
Qed.

Lemma runAutoPilot_preserves env jobs u videoType :
  preserves (storeInv P) (runAutoPilot env jobs u videoType).
Proof.
  destruct videoType; simpl.
  - unfold createShorts, getTodaysVideoCounts.
    apply preserves_bind; [| intros counts].
    { apply preserves_bind; [apply preserves_readStore |].
      intros ?; apply preserves_ret. }
    apply preserves_if; [| apply preserves_ret].
    apply preserves_forLoop. intros j.
    apply preserves_bind; [| intros _; apply preserves_ret].
    apply createAndProcessVideo_preserves.
  - unfold createLongs, getThisWeeksVideoCounts.
    apply preserves_bind; [| intros counts].
    { apply preserves_bind; [apply preserves_readStore |].
      intros ?; apply preserves_ret. }
    apply preserves_if; [| apply preserves_ret].
    apply preserves_bind; [| intros pls].
    { unfold getPlaylists, getAllVideos.
      apply preserves_bind; [apply preserves_readStore |].
      intros ?; apply preserves_ret. }
    apply preserves_bind; [| intros _].
    { apply preserves_emit. intros st. by apply storeInv_withTrace. }
    apply preserves_bind; [apply preserves_answer | intros sug].
    apply preserves_bind; [| intros startPart].
    { apply preserves_if; [apply preserves_ret |].
      apply preserves_bind; [apply preserves_readStore |].
      intros ?; apply preserves_ret. }
    apply preserves_forLoop. intros j.
    apply preserves_bind; [| intros _; apply preserves_ret].
    apply createAndProcessVideo_preserves.
Qed.

Lemma materialize_preserves env videoId r0 mediaUrl :
  (∀ path u, getDownloadURL env path = Ok u → U u) →
  preserves (storeInv P) (materialize env videoId r0 mediaUrl).
Proof.
  intros HU. unfold materialize.
  apply preserves_bind; [| intros _].
  { apply preserves_emit. intros st. by apply storeInv_withTrace. }
  apply preserves_bind; [apply preserves_accepted | intros _].
  apply preserves_bind; [| intros _].
  { apply preserves_emit. intros st. by apply storeInv_withTrace. }
  apply preserves_bind_answer. intros vUrl Hv%HU.
  apply preserves_bind; [| intros _].
  { apply preserves_emit. intros st. by apply storeInv_withTrace. }
  apply preserves_bind; [apply preserves_answer | intros audioDataUri].
  apply preserves_bind; [| intros _].
  { apply preserves_emit. intros st. by apply storeInv_withTrace. }
  apply preserves_bind; [apply preserves_accepted | intros _].
  apply preserves_bind; [| intros _].
  { apply preserves_emit. intros st. by apply storeInv_withTrace. }
  apply preserves_bind_answer. intros aUrl Ha%HU.
  apply preserves_bind; [| intros _].
  { apply updateVideoMetadata_preserves.
    - intros r' Hr'. by apply P_final.
    - simpl. unfold finalStatusOf.
      destruct (truthy (suggestedUploadTime r0));
        split; (split; [eauto | intros _; eauto]). }
  apply preserves_bind; [| intros _; apply preserves_ret].
  apply preserves_if; [| apply preserves_ret].
  apply preserves_emit. intros st. by apply storeInv_withTrace.
Qed.

Lemma checkVideoStatus_preserves env videoId :
  (∀ path u, getDownloadURL env path = Ok u → U u) →
  preserves (storeInv P) (checkVideoStatus env videoId).
Proof.
  intros HU. unfold checkVideoStatus.
  apply preserves_bind; [apply preserves_readStore | intros [r|]];
    [| apply preserves_ret].
  apply preserves_if; [apply preserves_ret |].
  apply preserves_if; [apply markFailed_preserves |].
  apply preserves_bind; [| intros [info|]]; [| | apply markFailed_preserves].
  { unfold getOperation.
    apply preserves_bind; [apply preserves_readStore | intros [info|]];
      [| apply preserves_ret].
    apply preserves_if; [| apply preserves_ret].
    apply preserves_bind; [| intros _; apply preserves_ret].
    apply preserves_modify. intros st. apply storeInv_withOperations. }
  apply preserves_bind; [| intros op].
  { apply preserves_if; [| apply preserves_ret].
    apply preserves_bind; [| intros _; apply preserves_answer].
    apply preserves_emit. intros st. by apply storeInv_withTrace. }
  apply preserves_if; [| apply preserves_ret].
  apply preserves_if; [apply markFailed_preserves |].
  destruct (videoMediaUrl op) as [mediaUrl|]; [| apply markFailed_preserves].
  apply preserves_tryCatch; [| apply markFailed_preserves].
  by apply materialize_preserves.
Qed.

Lemma perform_preserves c st :
  urlsSatisfy U c → storeInv P st → storeInv P (perform c st).
Proof.
  destruct c; simpl; intros HU H.
  - by apply createAndProcessVideo_preserves.
  - by apply checkVideoStatus_preserves.
  - by apply runAutoPilot_preserves.
Qed.

Lemma run_preserves calls :
  Forall (urlsSatisfy U) calls → storeInv P (run calls).
Proof.
  unfold run. intros Hcalls.
  assert (storeInv P emptyStore) as H0.
  { split; [intros i r; simpl; by rewrite lookup_empty | constructor]. }
  revert H0. generalize emptyStore.
  induction Hcalls as [|c calls Hc _ IH]; intros st Hst; simpl; [done |].
  apply IH. by apply perform_preserves.
Qed.
End Invariant.

Lemma truthy_Some_nonempty s : s ≠ "" → truthy (Some s) = true.
Proof.
  intros H. simpl. destruct (String.eqb_spec s ""); [done | reflexivity].
Qed.

Lemma truthy_true_inv o : truthy o = true → ∃ s, o = Some s ∧ s ≠ "".
Proof.
  destruct o as [s|]; simpl; [| done].
  destruct (String.eqb_spec s ""); [done |]. by exists s.
Qed.

Lemma recordShape_new U newId u now d :
  n_videoUrl d = None → n_audioUrl d = None →
  recordShape U (videoDataOf newId u now d).
Proof. intros Hv Ha. left. split; [by split | by left]. Qed.

Lemma recordShape_failed U r :
  recordShape U r → recordShape U (applyPatch failedPatch r).
Proof.
  intros [[Hu _]|(v & a & Hv & Ha & Uv & Ua & _)].
  - left. split; [exact Hu | by right].
  - right. exists v, a. simpl. split_and!; try done. by right; right.
Qed.

Lemma recordShape_named U r n :
  recordShape U r → recordShape U (applyPatch (operationNamePatch n) r).
Proof. intros H. exact H. Qed.

Lemma recordShape_final U r0 r v a :
  recordShape U r → U v → U a →
  recordShape U (applyPatch (finalPatch v a (finalStatusOf r0)) r).
Proof.
  intros _ Uv Ua. right. exists v, a. simpl. split_and!; try done.
  unfold finalStatusOf. destruct (truthy (suggestedUploadTime r0)); eauto.
Qed.

Lemma run_recordShape U calls :
  Forall (urlsSatisfy U) calls →
  ∀ i r, videos (run calls) !! i = Some r → recordShape U r.
Proof.
  intros Hcalls.
  apply (run_preserves U (recordShape U) (recordShape_new U)
           (recordShape_failed U) (recordShape_named U)
           (fun r0 r v a => recordShape_final U r0 r v a) calls Hcalls).
Qed.

Lemma urlsSatisfy_True calls : Forall (urlsSatisfy (fun _ => True)) calls.
Proof. apply Forall_forall. intros c _. by destruct c. Qed.

(** C1.  In every store that calls of [createAndProcessVideo],
    [checkVideoStatus] and [runAutoPilot], made one after the other, lead to:
    a record in status [Generated], [Scheduled] or [Published] has a
    [videoUrl] and an [audioUrl], and both are non-empty when the asset store
    hands out non-empty URLs; no record has one of the two set and the other
    unset; and every metadata update in the trace carries both URLs or
    neither, and carries them exactly when it carries the status [Generated]
    or [Scheduled]. *)
Theorem terminal_records_have_both_urls calls :
  (∀ i r, videos (run calls) !! i = Some r →
     ((status r = Generated ∨ status r = Scheduled ∨ status r = Published) →
        ∃ v a, videoUrl r = Some v ∧ audioUrl r = Some a
               ∧ (Forall urlsNonEmpty calls → v ≠ "" ∧ a ≠ ""))
     ∧ (is_Some (videoUrl r) ↔ is_Some (audioUrl r)))
  ∧ Forall writesUrlsTogether (trace (run calls)).
Proof.
  split.
  - intros i r Hr.
    destruct (run_recordShape _ calls (urlsSatisfy_True calls) i r Hr)
      as [[[Hv Ha] Hs]|(v & a & Hv & Ha & _ & _ & Hs)].
    + split; [| by rewrite Hv, Ha].
      intros [H|[H|H]]; destruct Hs as [Hs|Hs]; congruence.
    + split; [| rewrite Hv, Ha; split; eauto].
      intros _. exists v, a. split_and!; try done. intros Hcalls.
      destruct (run_recordShape (fun u => u ≠ "") calls Hcalls i r Hr)
        as [[[Hv' _] _]|(v' & a' & Hv' & Ha' & Hnv & Hna & _)];
        [congruence |].
      split; congruence.
  - apply (run_preserves (fun _ => True) (recordShape (fun _ => True))
             (recordShape_new _) (recordShape_failed _)
             (recordShape_named _)
             (fun r0 r v a => recordShape_final _ r0 r v a) calls
             (urlsSatisfy_True calls)).
Qed.

Lemma terminal_records_have_both_urls_witness :
  ∃ r, videos oneGenerated !! "v1" = Some r
       ∧ status r = Generated
       ∧ ∃ v a, videoUrl r = Some v ∧ audioUrl r = Some a ∧ v ≠ "" ∧ a ≠ "".
Proof.
  pose (calls :=
    [CreateAndProcessVideo (sunnyDay 1000 "v1") "u1" short None None
       (Some "My Title") None None;
     CheckVideoStatus (sunnyDay 2000 "unused") "v1"]).
  assert (Forall urlsNonEmpty calls) as Hcalls.
  { repeat constructor. intros path u [= <-]. discriminate. }
  destruct (terminal_records_have_both_urls calls) as [Hrec _].
  destruct (videos (run calls) !! "v1") as [r|] eqn:Hr;
    [| vm_compute in Hr; discriminate].
  exists r. split; [exact Hr |].
  assert (status r = Generated) as Hs.
  { vm_compute in Hr. injection Hr as <-. reflexivity. }
  split; [exact Hs |].
  destruct (Hrec "v1" r Hr) as [Hurls _].
  destruct Hurls as (v & a & Hv & Ha & Hne); [by left |].
  exists v, a. destruct (Hne Hcalls). by split_and!.
Defined.


(** ** Expiry of the operation cache *)

(** A record in [Processing] has no URL yet. *)
Lemma run_processing_unset calls i r :
  videos (run calls) !! i = Some r → status r = Processing → urlsUnset r.
Proof.
  intros Hr Hs.
  destruct (run_recordShape _ calls (urlsSatisfy_True calls) i r Hr)
    as [[Hu _]|(v & a & _ & _ & _ & _ & [H|[H|H]])]; [done | congruence..].
Qed.

(** An entry read more than 24 hours after it was stored is dropped from the
    table and reported as absent. *)
Lemma getOperation_expired env name info st :
  videoOperations st !! name = Some info →
  clock env > storedAt info + 24 * 60 * 60 * 1000 →
  getOperation env name st = (Ret None, withOperations (delete name) st).
Proof.
  intros Hi Hc. unfold getOperation. mrun. rewrite Hi.
  by rewrite bool_decide_eq_true_2 by lia.
Qed.

(** C5, amended.  An operation descriptor stored at time [storedAt info],
    whatever its completion state and whatever the store it sits in, and read
    by [getOperation] at a time more than 24 hours later is reported as absent
    and evicted from the table.  In a store that calls of the core have led
    to, [checkVideoStatus] at such a time on a video in [Processing] that
    names this operation asks for nothing but the write of [Failed]: when the
    document store takes that write the record reads [Failed] and the answer
    is [{status: 'failed'}]; when the document store refuses it the call
    rejects and the documents are as they were. *)
Theorem expired_operation_fails_the_video
    calls env videoId (r : VideoDetails) name info st :
  clock env > storedAt info + 24 * 60 * 60 * 1000 →
  (videoOperations st !! name = Some info →
     getOperation env name st = (Ret None, withOperations (delete name) st)
     ∧ videoOperations (getOperation env name st).2 !! name = None)
  ∧ (videos (run calls) !! videoId = Some r →
     status r = Processing →
     operationName r = Some name →
     videoOperations (run calls) !! name = Some info →
     trace (checkVideoStatus env videoId (run calls)).2 =
       trace (run calls) ++ [EvMergeDoc videoId failedPatch]
     ∧ (docWrite env videoId failedPatch = true →
          (checkVideoStatus env videoId (run calls)).1 =
            Ret (statusOnly failed)
          ∧ status <$>
              videos (checkVideoStatus env videoId (run calls)).2 !! videoId =
              Some Failed)
     ∧ (docWrite env videoId failedPatch = false →
          (checkVideoStatus env videoId (run calls)).1 = Throw
          ∧ videos (checkVideoStatus env videoId (run calls)).2 =
              videos (run calls))).
Proof.
  intros Hc. split.
  { intros Hi.
    pose proof (getOperation_expired env name info st Hi Hc) as Hget.
    split; [exact Hget |]. rewrite Hget. simpl. apply lookup_delete_eq. }
  intros Hr Hs Hn Hi.
  pose proof (getOperation_expired env name info (run calls) Hi Hc) as Hget.
  destruct (run_processing_unset calls videoId r Hr Hs) as [Hv Ha].
  assert (∃ st1, videos st1 = videos (run calls)
                 ∧ trace st1 = trace (run calls)
                 ∧ checkVideoStatus env videoId (run calls) =
                     markFailed env videoId st1) as (st1 & Hst1 & Htr & ->).
  { unfold checkVideoStatus, getVideo. mrun. rewrite Hr, Hv, Hn. simpl.
    destruct (String.eqb name ""); simpl.
    - by exists (run calls).
    - rewrite Hget. by exists (withOperations (delete name) (run calls)). }
  split; [by rewrite markFailed_trace, Htr |]. split; intros Hw.
  - rewrite markFailed_accepted by done. simpl. split; [done |].
    by rewrite Hst1, lookup_alter_eq, Hr.
  - rewrite markFailed_refused by done. simpl. by split.
Qed.

Lemma expired_operation_fails_the_video_witness :
  (checkVideoStatus (sunnyDay (1000 + 25 * 60 * 60 * 1000) "unused") "v1"
     oneSubmitted).1 = Ret (statusOnly failed)
  ∧ status <$> videos (checkVideoStatus
                         (sunnyDay (1000 + 25 * 60 * 60 * 1000) "unused") "v1"
                         oneSubmitted).2 !! "v1" = Some Failed.
Proof.
  destruct (expired_operation_fails_the_video
    [CreateAndProcessVideo (sunnyDay 1000 "v1") "u1" short None None
       (Some "My Title") None None]
    (sunnyDay (1000 + 25 * 60 * 60 * 1000) "unused") "v1" submittedRecord
    "op-v1" {| operation := pendingOperation; storedAt := 1000 |}
    emptyStore)
    as (_ & H).
  - simpl. lia.
  - destruct H as (_ & Hok & _).
    + vm_compute. reflexivity.
    + reflexivity.
    + reflexivity.
    + vm_compute. reflexivity.
    + destruct Hok as [H1 H2]; [reflexivity |]. split; assumption.
Defined.

(** C5, as stated, fails: the descriptor of [oneSubmitted] was stored at time
    1000 and the reconciliation runs 25 hours later, on a record in
    [Processing] that names it, while the document store refuses writes.  The
    entry is evicted, but the call rejects instead of answering
    [{status: 'failed'}], and the record still reads [Processing]. *)
Lemma expired_operation_with_refused_write :
  videos oneSubmitted !! "v1" = Some submittedRecord
  ∧ status submittedRecord = Processing
  ∧ operationName submittedRecord = Some "op-v1"
  ∧ videoOperations oneSubmitted !! "op-v1" =
      Some {| operation := pendingOperation; storedAt := 1000 |}
  ∧ clock (storageDown (1000 + 25 * 60 * 60 * 1000) false)
      > 1000 + 24 * 60 * 60 * 1000
  ∧ (getOperation (storageDown (1000 + 25 * 60 * 60 * 1000) false) "op-v1"
       oneSubmitted).1 = Ret None
  ∧ (checkVideoStatus (storageDown (1000 + 25 * 60 * 60 * 1000) false) "v1"
       oneSubmitted).1 = Throw
  ∧ status <$> videos (checkVideoStatus
                         (storageDown (1000 + 25 * 60 * 60 * 1000) false) "v1"
                         oneSubmitted).2 !! "v1" = Some Processing
  ∧ videoOperations (checkVideoStatus
                       (storageDown (1000 + 25 * 60 * 60 * 1000) false) "v1"
                       oneSubmitted).2 !! "op-v1" = None.
Proof.
  split_and!; vm_compute; reflexivity.
Qed.

(** ** The auto-pilot *)

Lemma startOfLocalDay_aligned env t :
  (startOfLocalDay env t + utcOffset env) `mod` msPerDay = 0.
Proof.
  unfold startOfLocalDay.
  replace (t - (t + utcOffset env) `mod` msPerDay + utcOffset env)
    with ((t + utcOffset env) - (t + utcOffset env) `mod` msPerDay) by lia.
  rewrite Zminus_mod, Zmod_mod, Z.sub_diag. reflexivity.
Qed.

Lemma startOfLocalDay_idem env t :
  startOfLocalDay env (startOfLocalDay env t) = startOfLocalDay env t.
Proof.
  unfold startOfLocalDay at 1. rewrite startOfLocalDay_aligned. lia.
Qed.

Lemma startOfLocalDay_shift env t k :
  startOfLocalDay env (t + k * msPerDay) = startOfLocalDay env t + k * msPerDay.
Proof.
  unfold startOfLocalDay.
  replace (t + k * msPerDay + utcOffset env)
    with (t + utcOffset env + k * msPerDay) by lia.
  rewrite Z_mod_plus_full. lia.
Qed.

(** The day of the query contains the moment of the query. *)
Lemma today_contains_now env :
  startOfToday env ≤ clock env ≤ startOfToday env + (msPerDay - 1).
Proof.
  unfold startOfToday, startOfLocalDay.
  pose proof (Z.mod_pos_bound (clock env + utcOffset env) msPerDay) as H.
  unfold msPerDay in *. lia.
Qed.

(** What the two counting queries return. *)
Lemma getTodaysVideoCounts_spec env u st :
  getTodaysVideoCounts env u st =
    (Ret {| shorts :=
              size (filter (createdWithin u short (startOfToday env)
                              (startOfToday env + (msPerDay - 1))) (videos st));
            longs :=
              size (filter (createdWithin u long (startOfToday env)
                              (startOfToday env + (msPerDay - 1))) (videos st))
         |}, st).
Proof.
  unfold getTodaysVideoCounts, countByLength, endOfLocalDay. mrun.
  rewrite startOfLocalDay_idem. unfold startOfToday.
  by rewrite !map_filter_filter.
Qed.

Lemma getThisWeeksVideoCounts_spec env u st :
  getThisWeeksVideoCounts env u st =
    (Ret {| shorts :=
              size (filter (createdWithin u short (startOfThisWeek env)
                              (startOfThisWeek env + 6 * msPerDay
                               + (msPerDay - 1))) (videos st));
            longs :=
              size (filter (createdWithin u long (startOfThisWeek env)
                              (startOfThisWeek env + 6 * msPerDay
                               + (msPerDay - 1))) (videos st))
         |}, st).
Proof.
  assert (startOfLocalDay env (clock env - getDay env (clock env) * msPerDay)
          = startOfThisWeek env) as HA.
  { replace (clock env - getDay env (clock env) * msPerDay)
      with (clock env + (- getDay env (clock env)) * msPerDay) by lia.
    rewrite startOfLocalDay_shift. unfold startOfThisWeek, startOfToday. lia. }
  assert (startOfLocalDay env (startOfThisWeek env + 6 * msPerDay)
          = startOfThisWeek env + 6 * msPerDay) as HB.
  { rewrite startOfLocalDay_shift. f_equal.
    rewrite <- HA at 1. by rewrite startOfLocalDay_idem. }
  unfold getThisWeeksVideoCounts, countByLength, endOfLocalDay. mrun.
  rewrite HA, HB. by rewrite !map_filter_filter.
Qed.

(** A record as [createAndProcessVideo] stores it for user [u]. *)
Lemma createAndProcessVideo_reliable env u len pl topic title insp st :
  reliable env →
  ∃ out st' evs d,
    createAndProcessVideo env u len pl topic title insp None st = (Ret out, st')
    ∧ trace st' = trace st ++ evs
    ∧ scriptRequests evs =
        [{| sr_length := len; sr_topic := topic; sr_videoTitle := title;
            sr_inspirationVideoUrl := insp |}]
    ∧ createdDocs evs = [d]
    ∧ uid d = u ∧ videoLength d = Some len ∧ playlist d = pl
    ∧ status d = Processing.
Proof.
  intros (Hscript & Hopt & Hcreate & Hrender & Hwrite).
  unfold createAndProcessVideo, resolveScript, addNewVideo, createAIVideo,
    storeOperation, updateVideoMetadata. simpl. mrun.
  destruct (Hscript {| sr_length := len; sr_topic := topic;
                       sr_videoTitle := title;
                       sr_inspirationVideoUrl := insp |}) as [sr ->].
  destruct (Hopt (optimizeRequest sr)) as [opt ->].
  rewrite Hcreate.
  destruct (Hrender (res_script sr) (newDocId env)) as [sub ->].
  rewrite Hwrite.
  eexists _, _, _, _. split; [reflexivity |]. simpl.
  split; [by rewrite <- !app_assoc |]. simpl. done.
Qed.

Lemma forLoop_submits jobs u len pl topic (titleOf : nat → option string) n :
  ∀ i0 st,
  (∀ i, (i0 ≤ i < i0 + n)%nat → reliable (jobs i)) →
  ∃ st' evs,
    forLoop n i0
      (fun i =>
         await _ := createAndProcessVideo (jobs i) u len pl topic (titleOf i)
                      None None in
         ret tt) st = (Ret tt, st')
    ∧ trace st' = trace st ++ evs
    ∧ scriptRequests evs =
        map (fun i => {| sr_length := len; sr_topic := topic;
                         sr_videoTitle := titleOf i;
                         sr_inspirationVideoUrl := None |}) (seq i0 n)
    ∧ length (createdDocs evs) = n
    ∧ Forall (fun d => uid d = u ∧ videoLength d = Some len ∧ playlist d = pl
                       ∧ status d = Processing) (createdDocs evs).
Proof.
  induction n as [|n IH]; intros i0 st Hjobs.
  - exists st, []. simpl. split_and!; try done. by rewrite app_nil_r.
  - destruct (createAndProcessVideo_reliable (jobs i0) u len pl topic
                (titleOf i0) None st) as (out & st1 & evs1 & d & E & Ht & Hs
                                           & Hd & Hu & Hl & Hp & Hst).
    { apply Hjobs. lia. }
    destruct (IH (S i0) st1) as (st2 & evs2 & E2 & Ht2 & Hs2 & Hn2 & Hd2).
    { intros i Hi. apply Hjobs. lia. }
    exists st2, (evs1 ++ evs2). split_and!.
    + simpl. unfold bind at 1. unfold bind at 1. rewrite E. simpl. exact E2.
    + by rewrite Ht2, Ht, app_assoc.
    + unfold scriptRequests in *. by rewrite omap_app, Hs, Hs2.
    + unfold createdDocs in *. rewrite omap_app, Hd, length_app, Hn2. done.
    + unfold createdDocs in *. rewrite omap_app, Hd.
      apply Forall_app. split; [by apply Forall_singleton | done].
Qed.

(** Whatever the collaborators answer, a job sends its one request to the
    script generator. *)
Lemma createAndProcessVideo_requests env u len pl topic title insp st :
  ∃ evs,
    trace (createAndProcessVideo env u len pl topic title insp None st).2 =
      trace st ++ evs
    ∧ scriptRequests evs =
        [{| sr_length := len; sr_topic := topic; sr_videoTitle := title;
            sr_inspirationVideoUrl := insp |}].
Proof.
  unfold createAndProcessVideo, resolveScript, addNewVideo, createAIVideo,
    storeOperation, updateVideoMetadata. simpl. mrun.
  destruct (generateVideoScript env _) as [sr|]; simpl;
    [| by eexists].
  destruct (optimizeYoutubeUpload env _) as [opt|]; simpl;
    [| eexists; split; [by rewrite <- !app_assoc | done]].
  destruct (docCreate env _); simpl;
    [| eexists; split; [by rewrite <- !app_assoc | done]].
  destruct (renderSubmit env _ _) as [sub|]; simpl;
    [| eexists; split; [by rewrite <- !app_assoc | done]].
  destruct (docWrite env _ _); simpl;
    eexists; (split; [by rewrite <- !app_assoc | done]).
Qed.

(** A loop of jobs sends the requests of its first [k] jobs, [k] being all
    of them when the loop resolves. *)
Lemma forLoop_requests jobs u len pl topic (titleOf : nat → option string) n :
  ∀ i0 st,
  let loop :=
    forLoop n i0
      (fun i =>
         await _ := createAndProcessVideo (jobs i) u len pl topic (titleOf i)
                      None None in
         ret tt) st in
  ∃ k evs,
    (k ≤ n)%nat
    ∧ trace loop.2 = trace st ++ evs
    ∧ scriptRequests evs =
        map (fun i => {| sr_length := len; sr_topic := topic;
                         sr_videoTitle := titleOf i;
                         sr_inspirationVideoUrl := None |}) (seq i0 k).
Proof.
  induction n as [|n IH]; intros i0 st loop; subst loop.
  - exists 0%nat, []. simpl. split_and!; try done. by rewrite app_nil_r.
  - destruct (createAndProcessVideo_requests (jobs i0) u len pl topic
                (titleOf i0) None st) as (evs1 & Ht1 & Hs1).
    simpl. unfold bind at 1. unfold bind at 1.
    destruct (createAndProcessVideo (jobs i0) u len pl topic (titleOf i0)
                None None st) as [[out|] st1]; simpl in *.
    + destruct (IH (S i0) st1) as (k & evs2 & Hk & Ht2 & Hs2).
      exists (S k), (evs1 ++ evs2). split_and!; [lia | |].
      * by rewrite Ht2, Ht1, app_assoc.
      * unfold scriptRequests in *. by rewrite omap_app, Hs1, Hs2.
    + exists 1%nat, evs1. split_and!; [lia | done | done].
Qed.

Lemma map_const_seq {A} (x : A) i n :
  map (fun _ => x) (seq i n) = replicate n x.
Proof. revert i. induction n as [|n IH]; intros i; simpl; [done | by rewrite IH]. Qed.

(** C6.  Let [c] be the number of the user's short videos created today,
    from local midnight to the last millisecond of the day, both ends
    included.  [runAutoPilot uid short] never submits more than
    [max 0 (3 - c)] jobs, and each request it sends to the script generator
    is for a short video on "a trending topic", without title.  When the
    collaborators answer for each job it resolves after exactly
    [max 0 (3 - c)] submissions, which leave as many new records, each of the
    user, short, without playlist, in status [Processing].  With [c] at 3 or
    above nothing is submitted and the store is left as it was. *)
Theorem autopilot_short_fills_the_daily_deficit env jobs u st :
  let c := size (filter (createdWithin u short (startOfToday env)
                           (startOfToday env + (msPerDay - 1))) (videos st)) in
  let deficit := Z.to_nat (Z.max 0 (3 - Z.of_nat c)) in
  (∃ k evs,
     (k ≤ deficit)%nat
     ∧ trace (runAutoPilot env jobs u short st).2 = trace st ++ evs
     ∧ scriptRequests evs = replicate k trendingRequest)
  ∧ ((∀ i, (i < deficit)%nat → reliable (jobs i)) →
     ∃ st' evs,
       runAutoPilot env jobs u short st = (Ret tt, st')
       ∧ trace st' = trace st ++ evs
       ∧ scriptRequests evs = replicate deficit trendingRequest
       ∧ length (createdDocs evs) = deficit
       ∧ Forall (fun d => uid d = u ∧ videoLength d = Some short
                          ∧ playlist d = None ∧ status d = Processing)
           (createdDocs evs))
  ∧ ((3 ≤ c)%nat → runAutoPilot env jobs u short st = (Ret tt, st)).
Proof.
  intros c deficit. simpl. unfold createShorts.
  rewrite (bind_resolved _ _ _ _ _ (getTodaysVideoCounts_spec env u st)).
  simpl. fold c. unfold shortsNeeded, dailyShortGoal. fold deficit.
  case_bool_decide as Hneeded.
  - split_and!.
    + destruct (forLoop_requests jobs u short None (Some "a trending topic")
                  (fun _ => None) deficit 0%nat st)
        as (k & evs & Hk & Ht & Hs).
      exists k, evs. split_and!; try done. by rewrite Hs, map_const_seq.
    + intros Hjobs.
      destruct (forLoop_submits jobs u short None (Some "a trending topic")
                  (fun _ => None) deficit 0%nat st)
        as (st' & evs & E & Ht & Hs & Hn & Hd).
      { intros i Hi. apply Hjobs. lia. }
      exists st', evs. split_and!; try done. by rewrite Hs, map_const_seq.
    + intros Hc. lia.
  - assert (deficit = 0%nat) as -> by lia. split_and!.
    + exists 0%nat, []. split_and!; try done. by rewrite app_nil_r.
    + intros _. exists st, []. split_and!; try done. by rewrite app_nil_r.
    + done.
Qed.

Lemma getPlaylists_reads u st : ∃ pls, getPlaylists u st = (Ret pls, st).
Proof. eexists. reflexivity. Qed.

(** C7.  Let the weekly deficit [d = max 0 (2 - c)] be positive, [c] being
    the user's long videos created this week (Sunday's local midnight to the
    last millisecond of Saturday), and let [s] be the series suggestion for
    the user's playlists.  [runAutoPilot uid long] submits long videos only,
    never more than [d], with the topic of [s] and the titles
    "topic - Part n" for [n = startPart, startPart + 1, ...], where
    [startPart] is 1 for a new series and the number of the user's videos in
    the playlist plus 1 otherwise.  When the collaborators answer for each job
    it resolves after exactly [d] submissions, and the [d] new records all
    carry the playlist of [s]. *)
Theorem autopilot_long_numbers_the_episodes env jobs u st pls s :
  let c := size (filter (createdWithin u long (startOfThisWeek env)
                           (startOfThisWeek env + 6 * msPerDay
                            + (msPerDay - 1))) (videos st)) in
  let deficit := Z.to_nat (Z.max 0 (2 - Z.of_nat c)) in
  let startPart :=
    if ss_isNewSeries s then 1%nat
    else (size (filter (inPlaylist u (ss_playlist s)) (videos st)) + 1)%nat in
  (0 < deficit)%nat →
  (getPlaylists u st).1 = Ret pls →
  suggestSeriesStrategy env pls = Ok s →
  (∃ k evs,
     (k ≤ deficit)%nat
     ∧ trace (runAutoPilot env jobs u long st).2 =
         trace st ++ EvSuggestSeries pls :: evs
     ∧ scriptRequests evs =
         map (fun i => episodeRequest (ss_topic s) (startPart + i)) (seq 0 k))
  ∧ ((∀ i, (i < deficit)%nat → reliable (jobs i)) →
     ∃ st' evs,
       runAutoPilot env jobs u long st = (Ret tt, st')
       ∧ trace st' = trace st ++ EvSuggestSeries pls :: evs
       ∧ scriptRequests evs =
           map (fun i => episodeRequest (ss_topic s) (startPart + i))
               (seq 0 deficit)
       ∧ length (createdDocs evs) = deficit
       ∧ Forall (fun d => uid d = u ∧ videoLength d = Some long
                          ∧ playlist d = Some (ss_playlist s)
                          ∧ status d = Processing)
           (createdDocs evs)).
Proof.
  intros c deficit startPart Hpos Hpls Hsug.
  set (st1 := withTrace (fun t => t ++ [EvSuggestSeries pls]) st).
  assert (runAutoPilot env jobs u long st =
          forLoop deficit 0
            (fun i =>
               await _ := createAndProcessVideo (jobs i) u long
                            (Some (ss_playlist s)) (Some (ss_topic s))
                            (Some (partTitle (ss_topic s) (startPart + i)))
                            None None in
               ret tt) st1) as ->.
  { simpl. unfold createLongs.
    rewrite (bind_resolved _ _ _ _ _ (getThisWeeksVideoCounts_spec env u st)).
    simpl. fold c. unfold longsNeeded, weeklyLongGoal. fold deficit.
    rewrite bool_decide_eq_true_2 by lia.
    destruct (getPlaylists_reads u st) as [pls' Epls].
    rewrite Epls in Hpls. injection Hpls as ->.
    rewrite (bind_resolved _ _ _ _ _ Epls).
    unfold bind at 1, emit. unfold bind at 1, answer. rewrite Hsug.
    unfold ret at 1. fold st1.
    assert ((if ss_isNewSeries s then ret 1%nat
             else await n := countVideosInPlaylist u (ss_playlist s) in
                  ret (n + 1)%nat) st1 = (Ret startPart, st1)) as Estart.
    { subst startPart. by destruct (ss_isNewSeries s). }
    by rewrite (bind_resolved _ _ _ _ _ Estart). }
  split.
  - destruct (forLoop_requests jobs u long (Some (ss_playlist s))
                (Some (ss_topic s))
                (fun i => Some (partTitle (ss_topic s) (startPart + i)))
                deficit 0%nat st1) as (k & evs & Hk & Ht & Hs).
    exists k, evs. split_and!; try done.
    rewrite Ht. simpl. by rewrite <- app_assoc.
  - intros Hjobs.
    destruct (forLoop_submits jobs u long (Some (ss_playlist s))
                (Some (ss_topic s))
                (fun i => Some (partTitle (ss_topic s) (startPart + i)))
                deficit 0%nat st1)
      as (st' & evs & E & Ht & Hs & Hn & Hd).
    { intros i Hi. apply Hjobs. lia. }
    exists st', evs. split_and!; try done.
    rewrite Ht. simpl. by rewrite <- app_assoc.
Qed.

Lemma sunnyDay_reliable now docId : reliable (sunnyDay now docId).
Proof. unfold reliable. simpl. split_and!; eauto. Qed.

Lemma autopilot_short_fills_the_daily_deficit_witness :
  ∃ st' evs,
    runAutoPilot (sunnyDay 5000 "unused") autopilotJobs "u1" short oneSubmitted =
      (Ret tt, st')
    ∧ scriptRequests evs = [trendingRequest; trendingRequest]
    ∧ length (createdDocs evs) = 2%nat.
Proof.
  destruct (autopilot_short_fills_the_daily_deficit
              (sunnyDay 5000 "unused") autopilotJobs "u1" oneSubmitted)
    as (_ & Hexact & _).
  destruct Hexact as (st' & evs & E & _ & Hs & Hn & _).
  - intros i _. apply sunnyDay_reliable.
  - assert (Z.to_nat (Z.max 0 (3 - Z.of_nat
              (size (filter (createdWithin "u1" short
                               (startOfToday (sunnyDay 5000 "unused"))
                               (startOfToday (sunnyDay 5000 "unused")
                                + (msPerDay - 1)))
                       (videos oneSubmitted))))) = 2%nat) as Hd
      by (vm_compute; reflexivity).
    rewrite Hd in Hs, Hn.
    exists st', evs. split; [exact E |]. split; [exact Hs | exact Hn].
Defined.

Lemma autopilot_long_numbers_the_episodes_witness :
  ∃ st' evs,
    runAutoPilot (continuingSeries 5000) autopilotJobs "u1" long oneEpisode =
      (Ret tt, st')
    ∧ scriptRequests evs = [episodeRequest "Rust" 2]
    ∧ sr_videoTitle (episodeRequest "Rust" 2) = Some "Rust - Part 2".
Proof.
  destruct (autopilot_long_numbers_the_episodes
              (continuingSeries 5000) autopilotJobs "u1" oneEpisode
              ["Rust series"]
              {| ss_topic := "Rust"; ss_playlist := "Rust series";
                 ss_isNewSeries := false |})
    as (_ & Hexact).
  - vm_compute. lia.
  - vm_compute. reflexivity.
  - reflexivity.
  - destruct Hexact as (st' & evs & E & _ & Hs & _).
    { intros i _. apply sunnyDay_reliable. }
    exists st', evs. split; [exact E |]. split; [| vm_compute; reflexivity].
    rewrite Hs. vm_compute. reflexivity.
Defined.

(** No long video this week and a new series: the two episodes submitted
    are "Part 1" and "Part 2". *)
Example autopilot_new_series_starts_at_part_1 :
  scriptRequests
    (trace (runAutoPilot (sunnyDay 5000 "unused") autopilotJobs "u1" long
              emptyStore).2) =
    [episodeRequest "Rust" 1; episodeRequest "Rust" 2]
  ∧ sr_videoTitle (episodeRequest "Rust" 1) = Some "Rust - Part 1".
Proof. split; vm_compute; reflexivity. Qed.

(** ** Counting *)

Lemma size_filter_alter (P : string * VideoDetails → Prop)
    `{!∀ kv, Decision (P kv)} f i (m : gmap string VideoDetails) :
  (∀ k x, P (k, f x) ↔ P (k, x)) →
  size (filter P (alter f i m)) = size (filter P m).
Proof.
  intros Hf.
  rewrite <- (size_dom (D := gset string) (filter P (alter f i m))).
  rewrite <- (size_dom (D := gset string) (filter P m)).
  f_equal. apply dom_filter_L. intros k.
  rewrite elem_of_dom. unfold is_Some.
  setoid_rewrite map_lookup_filter_Some.
  rewrite lookup_alter. case_decide as Hk.
  - subst k. destruct (m !! i) as [x|]; simpl.
    + split.
      * intros (y & Hy & HP). injection Hy as <-. exists (f x).
        split; [done | by apply Hf].
      * intros (y & Hy & HP). injection Hy as <-. exists x.
        split; [done | by apply Hf].
    + split; intros (y & Hy & _); done.
  - split; intros (y & Hy & HP); by exists y.
Qed.

Lemma size_filter_weaken (P Q : string * VideoDetails → Prop)
    `{!∀ kv, Decision (P kv)} `{!∀ kv, Decision (Q kv)}
    (m : gmap string VideoDetails) :
  (∀ kv, P kv → Q kv) → (size (filter P m) ≤ size (filter Q m))%nat.
Proof.
  intros HPQ. apply map_subseteq_size, map_filter_subseteq_ext.
  intros k x _. apply HPQ.
Qed.

(** C10.  Both counting queries are blind to the status: rewriting the
    status of any record to any value leaves their results as they were, so
    a video in [Processing] or [Failed] counts like any other.  Hence three
    of the user's shorts of today, or two of the user's long videos of this
    week, that are [Failed] or still [Processing] are enough for
    [runAutoPilot] to submit nothing: it resolves and leaves the store, trace
    included, as it was. *)
Theorem counts_ignore_the_status env jobs u st videoId s :
  let st' := withVideos (alter (applyPatch (statusPatch s)) videoId) st in
  (getTodaysVideoCounts env u st').1 = (getTodaysVideoCounts env u st).1
  ∧ (getThisWeeksVideoCounts env u st').1 = (getThisWeeksVideoCounts env u st).1
  ∧ ((3 ≤ size (filter
                  (fun kv => createdWithin u short (startOfToday env)
                               (startOfToday env + (msPerDay - 1)) kv
                             ∧ unfinished kv) (videos st)))%nat →
     runAutoPilot env jobs u short st = (Ret tt, st))
  ∧ ((2 ≤ size (filter
                  (fun kv => createdWithin u long (startOfThisWeek env)
                               (startOfThisWeek env + 6 * msPerDay
                                + (msPerDay - 1)) kv
                             ∧ unfinished kv) (videos st)))%nat →
     runAutoPilot env jobs u long st = (Ret tt, st)).
Proof.
  intros st'. subst st'.
  rewrite !getTodaysVideoCounts_spec, !getThisWeeksVideoCounts_spec. simpl.
  split_and!.
  - by rewrite !size_filter_alter.
  - by rewrite !size_filter_alter.
  - intros Hc. unfold createShorts.
    rewrite (bind_resolved _ _ _ _ _ (getTodaysVideoCounts_spec env u st)).
    simpl. unfold shortsNeeded, dailyShortGoal.
    rewrite bool_decide_eq_false_2; [done |].
    pose proof (size_filter_weaken
      (fun kv => createdWithin u short (startOfToday env)
                   (startOfToday env + (msPerDay - 1)) kv ∧ unfinished kv)
      (createdWithin u short (startOfToday env)
         (startOfToday env + (msPerDay - 1))) (videos st)) as Hle.
    specialize (Hle ltac:(by intros kv [? _])). lia.
  - intros Hc. unfold createLongs.
    rewrite (bind_resolved _ _ _ _ _ (getThisWeeksVideoCounts_spec env u st)).
    simpl. unfold longsNeeded, weeklyLongGoal.
    rewrite bool_decide_eq_false_2; [done |].
    pose proof (size_filter_weaken
      (fun kv => createdWithin u long (startOfThisWeek env)
                   (startOfThisWeek env + 6 * msPerDay + (msPerDay - 1)) kv
                 ∧ unfinished kv)
      (createdWithin u long (startOfThisWeek env)
         (startOfThisWeek env + 6 * msPerDay + (msPerDay - 1)))
      (videos st)) as Hle.
    specialize (Hle ltac:(by intros kv [? _])). lia.
Qed.

Lemma counts_ignore_the_status_witness :
  Forall (fun r => status r = Failed) (map_to_list (videos threeFailed)).*2
  ∧ runAutoPilot (sunnyDay 7000 "unused") autopilotJobs "u1" short threeFailed =
      (Ret tt, threeFailed).
Proof.
  split.
  - vm_compute. repeat constructor.
  - destruct (counts_ignore_the_status (sunnyDay 7000 "unused") autopilotJobs
                "u1" threeFailed "auto-0" Failed) as (_ & _ & Hshort & _).
    apply Hshort. vm_compute. lia.
Defined.

(** ** Ownership *)

Lemma filter_ownedBy_idem u (m : gmap string VideoDetails) :
  filter (ownedBy u) (filter (ownedBy u) m) = filter (ownedBy u) m.
Proof.
  rewrite map_filter_filter. apply map_filter_ext. intros i x _.
  unfold ownedBy. simpl. tauto.
Qed.

Lemma filter_within_owned (P : string * VideoDetails → Prop)
    `{!∀ kv, Decision (P kv)} u (m : gmap string VideoDetails) :
  (∀ kv, P kv → ownedBy u kv) →
  filter P (filter (ownedBy u) m) = filter P m.
Proof.
  intros HP. rewrite map_filter_filter. apply map_filter_ext. intros i x _.
  split; [by intros [? _] | intros HPx; split; [done | by apply HP]].
Qed.

(** C8, as amended.  The collection queries are scoped by the owner:
    [getAllVideos uid] returns exactly the stored records whose [uid] is the
    given one, and [getAllVideos], [getPlaylists], [countVideosInPlaylist],
    [getTodaysVideoCounts] and [getThisWeeksVideoCounts] give the same result
    on the store as on its restriction to the documents of that user.
    [getVideo] is a lookup by document identifier: it returns whatever record
    is stored under the identifier, and takes no user. *)
Theorem collection_queries_are_scoped env u pl st :
  (∀ r, r ∈ (map_to_list (filter (ownedBy u) (videos st))).*2 ↔
        ∃ i, videos st !! i = Some r ∧ uid r = u)
  ∧ getAllVideos u st =
      (Ret (map_to_list (filter (ownedBy u) (videos st))).*2, st)
  ∧ (getAllVideos u (onlyOwnedBy u st)).1 = (getAllVideos u st).1
  ∧ (getPlaylists u (onlyOwnedBy u st)).1 = (getPlaylists u st).1
  ∧ (countVideosInPlaylist u pl (onlyOwnedBy u st)).1 =
      (countVideosInPlaylist u pl st).1
  ∧ (getTodaysVideoCounts env u (onlyOwnedBy u st)).1 =
      (getTodaysVideoCounts env u st).1
  ∧ (getThisWeeksVideoCounts env u (onlyOwnedBy u st)).1 =
      (getThisWeeksVideoCounts env u st).1
  ∧ (∀ videoId, getVideo videoId st = (Ret (videos st !! videoId), st)).
Proof.
  split_and!.
  - intros r. rewrite list_elem_of_fmap. split.
    + intros ([i r'] & -> & Hin). apply elem_of_map_to_list in Hin.
      apply map_lookup_filter_Some in Hin as [Hin Hu]. by exists i.
    + intros (i & Hi & Hu). exists (i, r). split; [done |].
      apply elem_of_map_to_list, map_lookup_filter_Some. by split.
  - reflexivity.
  - unfold getAllVideos, onlyOwnedBy. mrun. simpl.
    by rewrite filter_ownedBy_idem.
  - unfold getPlaylists, getAllVideos, onlyOwnedBy. mrun. simpl.
    by rewrite filter_ownedBy_idem.
  - unfold countVideosInPlaylist, onlyOwnedBy. mrun. simpl.
    rewrite filter_within_owned; [done | by intros kv [? _]].
  - rewrite !getTodaysVideoCounts_spec. simpl.
    rewrite !filter_within_owned; [done | |]; by intros kv [_ [? _]].
  - rewrite !getThisWeeksVideoCounts_spec. simpl.
    rewrite !filter_within_owned; [done | |]; by intros kv [_ [? _]].
  - reflexivity.
Qed.

(** C8, as stated, fails: [getVideo] hands the record of user [u1] to
    whoever asks, and [checkVideoStatus], called with the identifier alone,
    reconciles it. *)
Lemma getVideo_is_not_scoped_by_owner :
  ¬ (∀ (requester videoId : string) (st : Store) (r : VideoDetails),
       (getVideo videoId st).1 = Ret (Some r) → uid r = requester)
  ∧ uid <$> videos oneSubmitted !! "v1" = Some "u1"
  ∧ status <$> videos (checkVideoStatus (sunnyDay 2000 "unused") "v1"
                         oneSubmitted).2 !! "v1" = Some Generated.
Proof.
  split_and!; try (vm_compute; reflexivity).
  intros H.
  specialize (H "u2" "v1" oneSubmitted submittedRecord).
  assert (uid submittedRecord = "u2") as Hu.
  { apply H. vm_compute. reflexivity. }
  discriminate Hu.
Qed.

(** ** The operation table *)

(** An operation stored under a name is served under that name, with the
    time of storing, as long as no more than 24 hours have passed, the
    twenty-fourth hour included; the read changes nothing, and storing touches
    neither the videos nor any other entry. *)
Theorem storeOperation_getOperation_round_trip env0 env1 name op st :
  clock env1 - clock env0 ≤ 24 * 60 * 60 * 1000 →
  getOperation env1 name (storeOperation env0 name op st).2 =
    (Ret (Some {| operation := op; storedAt := clock env0 |}),
     (storeOperation env0 name op st).2)
  ∧ videos (storeOperation env0 name op st).2 = videos st
  ∧ trace (storeOperation env0 name op st).2 = trace st
  ∧ (∀ other, other ≠ name →
       videoOperations (storeOperation env0 name op st).2 !! other =
         videoOperations st !! other).
Proof.
  intros Hfresh. unfold storeOperation, getOperation. mrun. simpl.
  rewrite lookup_insert_eq. simpl.
  rewrite bool_decide_eq_false_2 by lia.
  split_and!; try done. intros other Hne. by rewrite lookup_insert_ne.
Qed.

Lemma storeOperation_getOperation_round_trip_witness :
  getOperation (sunnyDay (1000 + 24 * 60 * 60 * 1000) "unused") "op-v1"
    (storeOperation (sunnyDay 1000 "unused") "op-v1" finishedOperation
       oneSubmitted).2 =
    (Ret (Some {| operation := finishedOperation; storedAt := 1000 |}),
     (storeOperation (sunnyDay 1000 "unused") "op-v1" finishedOperation
        oneSubmitted).2).
Proof.
  destruct (storeOperation_getOperation_round_trip (sunnyDay 1000 "unused")
              (sunnyDay (1000 + 24 * 60 * 60 * 1000) "unused") "op-v1"
              finishedOperation oneSubmitted) as [H _].
  - simpl. lia.
  - exact H.
Defined.

(** [getOperation] serves an entry exactly when it is stored under the name
    and not older than 24 hours, and then changes nothing.  Otherwise it
    answers [undefined] and the name is free afterwards, so that a later read
    finds nothing whatever its clock says.  It never touches the videos, the
    trace or an entry under another name. *)
Theorem getOperation_serves_fresh_entries_only env name st :
  (∀ info, (getOperation env name st).1 = Ret (Some info) ↔
           videoOperations st !! name = Some info
           ∧ clock env - storedAt info ≤ 24 * 60 * 60 * 1000)
  ∧ (∀ info, (getOperation env name st).1 = Ret (Some info) →
             (getOperation env name st).2 = st)
  ∧ ((getOperation env name st).1 = Ret None →
       videoOperations (getOperation env name st).2 !! name = None
       ∧ ∀ env', getOperation env' name (getOperation env name st).2 =
                   (Ret None, (getOperation env name st).2))
  ∧ (getOperation env name st).1 ≠ Throw
  ∧ videos (getOperation env name st).2 = videos st
  ∧ trace (getOperation env name st).2 = trace st
  ∧ (∀ other, other ≠ name →
       videoOperations (getOperation env name st).2 !! other =
         videoOperations st !! other).
Proof.
  unfold getOperation. mrun.
  destruct (videoOperations st !! name) as [info|] eqn:Hi.
  - case_bool_decide as Hexp; simpl.
    + split_and!; try done.
      * intros info'. split; [done |]. intros [[= <-] Hfresh]. lia.
      * intros _. split; [apply lookup_delete_eq |].
        intros env'. by rewrite lookup_delete_eq.
      * intros other Hne. by rewrite lookup_delete_ne.
    + split_and!; try done.
      intros info'. split.
      * intros [= <-]. split; [done | lia].
      * by intros [[= <-] _].
  - simpl. split_and!; try done.
    + intros info'. split; [done | by intros [[=] _]].
    + intros _. split; [done |]. intros env'. by rewrite Hi.
Qed.

(** ** Documents *)

(** A record that the document store takes is read back under the
    identifier that [addNewVideo] returns, in status [Processing], owned by
    the given user and stamped with the clock; no other document and no
    operation is touched.  A record that the store refuses is not there and
    the call rejects. *)
Theorem addNewVideo_getVideo_round_trip env u details st :
  (docCreate env (newDocId env) = true →
     (addNewVideo env u details st).1 = Ret (newDocId env)
     ∧ (getVideo (newDocId env) (addNewVideo env u details st).2).1 =
         Ret (Some (videoDataOf (newDocId env) u (clock env) details))
     ∧ status (videoDataOf (newDocId env) u (clock env) details) = Processing
     ∧ uid (videoDataOf (newDocId env) u (clock env) details) = u
     ∧ createdAt (videoDataOf (newDocId env) u (clock env) details) = clock env)
  ∧ (docCreate env (newDocId env) = false →
       (addNewVideo env u details st).1 = Throw
       ∧ videos (addNewVideo env u details st).2 = videos st)
  ∧ (∀ other, other ≠ newDocId env →
       videos (addNewVideo env u details st).2 !! other = videos st !! other)
  ∧ videoOperations (addNewVideo env u details st).2 = videoOperations st.
Proof.
  unfold addNewVideo, getVideo. mrun.
  destruct (docCreate env (newDocId env)); simpl; split_and!; try done.
  - intros _. split_and!; try done. by rewrite lookup_insert_eq.
  - intros other Hne. by rewrite lookup_insert_ne.
Qed.

(** ** The counting windows *)

Lemma getDay_range env t : 0 ≤ getDay env t < 7.
Proof. unfold getDay. apply Z.mod_pos_bound. lia. Qed.

Lemma startOfThisWeek_sunday env : getDay env (startOfThisWeek env) = 0.
Proof.
  unfold startOfThisWeek, startOfToday, startOfLocalDay, getDay.
  set (x := clock env + utcOffset env).
  replace (clock env - x `mod` msPerDay
           - (x `div` msPerDay + 4) `mod` 7 * msPerDay + utcOffset env)
    with ((x `div` msPerDay - (x `div` msPerDay + 4) `mod` 7) * msPerDay).
  - rewrite Z.div_mul by (unfold msPerDay; lia).
    set (q := x `div` msPerDay).
    replace (q - (q + 4) `mod` 7 + 4) with ((q + 4) - (q + 4) `mod` 7) by lia.
    rewrite Zminus_mod, Zmod_mod, Z.sub_diag. reflexivity.
  - pose proof (Z_div_mod_eq_full x msPerDay). subst x. lia.
Qed.

(** The week that [getThisWeeksVideoCounts] counts starts at a local
    midnight that falls on a Sunday, lasts seven days to the millisecond,
    and contains today from its first to its last millisecond, the moment of
    the query included. *)
Theorem this_week_is_sunday_to_saturday env u st :
  getThisWeeksVideoCounts env u st =
    (Ret {| shorts :=
              size (filter (createdWithin u short (startOfThisWeek env)
                              (startOfThisWeek env + 7 * msPerDay - 1))
                      (videos st));
            longs :=
              size (filter (createdWithin u long (startOfThisWeek env)
                              (startOfThisWeek env + 7 * msPerDay - 1))
                      (videos st)) |}, st)
  ∧ getDay env (startOfThisWeek env) = 0
  ∧ (startOfThisWeek env + utcOffset env) `mod` msPerDay = 0
  ∧ startOfThisWeek env ≤ startOfToday env
  ∧ startOfToday env ≤ clock env
  ∧ clock env ≤ startOfToday env + (msPerDay - 1)
  ∧ startOfToday env + (msPerDay - 1) ≤ startOfThisWeek env + 7 * msPerDay - 1.
Proof.
  pose proof (getDay_range env (clock env)) as Hd.
  pose proof (today_contains_now env) as Hn.
  split_and!; try lia.
  - rewrite getThisWeeksVideoCounts_spec.
    by replace (startOfThisWeek env + 6 * msPerDay + (msPerDay - 1))
      with (startOfThisWeek env + 7 * msPerDay - 1) by lia.
  - apply startOfThisWeek_sunday.
  - unfold startOfThisWeek, startOfToday.
    replace (startOfLocalDay env (clock env)
             - getDay env (clock env) * msPerDay + utcOffset env)
      with (startOfLocalDay env (clock env) + utcOffset env
            + (- getDay env (clock env)) * msPerDay) by lia.
    rewrite Z_mod_plus_full. apply startOfLocalDay_aligned.
  - unfold startOfThisWeek. unfold msPerDay. lia.
  - unfold startOfThisWeek. unfold msPerDay in *. lia.
Qed.

Lemma size_filter_split (P Q R : string * VideoDetails → Prop)
    `{!∀ kv, Decision (P kv)} `{!∀ kv, Decision (Q kv)}
    `{!∀ kv, Decision (R kv)} (m : gmap string VideoDetails) :
  (∀ kv, P kv → R kv) → (∀ kv, Q kv → R kv) → (∀ kv, P kv → Q kv → False) →
  (size (filter P m) + size (filter Q m) ≤ size (filter R m))%nat.
Proof.
  intros HPR HQR HPQ.
  assert (filter P m ##ₘ filter Q m) as Hdisj.
  { apply map_disjoint_spec. intros i x y Hx Hy.
    apply map_lookup_filter_Some in Hx as [Hx HP].
    apply map_lookup_filter_Some in Hy as [Hy HQ].
    rewrite Hx in Hy. injection Hy as <-. by apply (HPQ (i, x)). }
  rewrite <- (map_size_disj_union _ _ Hdisj).
  apply map_subseteq_size, map_union_least.
  - apply map_filter_subseteq_ext. intros i x _. apply HPR.
  - apply map_filter_subseteq_ext. intros i x _. apply HQR.
Qed.

(** Read at the same moment, today's counts never exceed this week's, and
    this week's shorts and long videos together never exceed what
    [getAllVideos] returns for the user. *)
Theorem todays_counts_within_this_weeks env u st today week all :
  (getTodaysVideoCounts env u st).1 = Ret today →
  (getThisWeeksVideoCounts env u st).1 = Ret week →
  (getAllVideos u st).1 = Ret all →
  (shorts today ≤ shorts week)%nat
  ∧ (longs today ≤ longs week)%nat
  ∧ (shorts week + longs week ≤ length all)%nat.
Proof.
  rewrite getTodaysVideoCounts_spec, getThisWeeksVideoCounts_spec. simpl.
  intros [= <-] [= <-] [= <-]. simpl.
  pose proof (getDay_range env (clock env)) as Hd.
  assert (startOfThisWeek env ≤ startOfToday env) as Hlo
    by (unfold startOfThisWeek, msPerDay; lia).
  assert (startOfToday env + (msPerDay - 1)
          ≤ startOfThisWeek env + 6 * msPerDay + (msPerDay - 1)) as Hhi
    by (unfold startOfThisWeek, msPerDay; lia).
  split_and!.
  - apply size_filter_weaken. intros kv (Hl & Hu & H1 & H2).
    split; [done |]. split; [done |]. lia.
  - apply size_filter_weaken. intros kv (Hl & Hu & H1 & H2).
    split; [done |]. split; [done |]. lia.
  - rewrite length_fmap, length_map_to_list.
    apply size_filter_split.
    + by intros kv (_ & Hu & _).
    + by intros kv (_ & Hu & _).
    + intros kv (Hs & _) (Hl & _). unfold hasLength in *. congruence.
Qed.

Lemma todays_counts_within_this_weeks_witness :
  (shorts {| shorts := 3; longs := 0 |} ≤ shorts {| shorts := 3; longs := 0 |})%nat
  ∧ (longs {| shorts := 3; longs := 0 |} ≤ longs {| shorts := 3; longs := 0 |})%nat
  ∧ (shorts {| shorts := 3; longs := 0 |} + longs {| shorts := 3; longs := 0 |}
     ≤ length (map_to_list (filter (ownedBy "u1") (videos threeFailed))).*2)%nat.
Proof.
  apply (todays_counts_within_this_weeks (sunnyDay 7000 "unused") "u1"
           threeFailed); vm_compute; reflexivity.
Defined.

(** A record added under an identifier that was free is counted at once: the
    count of its length class goes up by one for its owner, both for today
    and for this week, and the other class stays. *)
Theorem addNewVideo_is_counted_at_once env u details l st :
  videos st !! newDocId env = None →
  docCreate env (newDocId env) = true →
  n_videoLength details = Some l →
  let st1 := (addNewVideo env u details st).2 in
  ∀ before after weekBefore weekAfter,
  (getTodaysVideoCounts env u st).1 = Ret before →
  (getTodaysVideoCounts env u st1).1 = Ret after →
  (getThisWeeksVideoCounts env u st).1 = Ret weekBefore →
  (getThisWeeksVideoCounts env u st1).1 = Ret weekAfter →
  match l with
  | short =>
      shorts after = S (shorts before) ∧ longs after = longs before
      ∧ shorts weekAfter = S (shorts weekBefore)
      ∧ longs weekAfter = longs weekBefore
  | long =>
      longs after = S (longs before) ∧ shorts after = shorts before
      ∧ longs weekAfter = S (longs weekBefore)
      ∧ shorts weekAfter = shorts weekBefore
  end.
Proof.
  intros Hfree Hok Hl st1 before after weekBefore weekAfter.
  rewrite !getTodaysVideoCounts_spec, !getThisWeeksVideoCounts_spec. simpl.
  intros [= <-] [= <-] [= <-] [= <-]. simpl.
  assert (videos st1 =
          <[newDocId env := videoDataOf (newDocId env) u (clock env) details]>
            (videos st)) as ->.
  { subst st1. unfold addNewVideo. mrun. by rewrite Hok. }
  pose proof (getDay_range env (clock env)) as Hd.
  pose proof (today_contains_now env) as Hn.
  assert (∀ l' lo hi, lo ≤ clock env ≤ hi →
    size (filter (createdWithin u l' lo hi)
            (<[newDocId env := videoDataOf (newDocId env) u (clock env) details]>
               (videos st))) =
    if decide (l' = l)
    then S (size (filter (createdWithin u l' lo hi) (videos st)))
    else size (filter (createdWithin u l' lo hi) (videos st))) as Hcount.
  { intros l' lo hi Hin. case_decide as Hll.
    - subst l'. rewrite map_filter_insert_True.
      + rewrite map_size_insert_None; [done |].
        apply map_lookup_filter_None. by left.
      + split; [exact Hl |]. split; [done |]. simpl. lia.
    - rewrite map_filter_insert_False.
      + by rewrite delete_id.
      + intros [Hl' _]. unfold hasLength in Hl'. simpl in Hl'. congruence. }
  assert (startOfThisWeek env ≤ clock env
          ≤ startOfThisWeek env + 6 * msPerDay + (msPerDay - 1)) as Hweek
    by (unfold startOfThisWeek, msPerDay in *; lia).
  rewrite !Hcount by done.
  destruct l; repeat case_decide; done.
Qed.

Lemma addNewVideo_is_counted_at_once_witness :
  shorts {| shorts := 2; longs := 0 |} = S (shorts {| shorts := 1; longs := 0 |})
  ∧ longs {| shorts := 2; longs := 0 |} = longs {| shorts := 1; longs := 0 |}
  ∧ shorts {| shorts := 2; longs := 0 |} = S (shorts {| shorts := 1; longs := 0 |})
  ∧ longs {| shorts := 2; longs := 0 |} = longs {| shorts := 1; longs := 0 |}.
Proof.
  apply (addNewVideo_is_counted_at_once (sunnyDay 5000 "v2") "u1"
           (newVideoDetails {| res_script := "s"; res_title := "t";
                               res_topic := "tp" |} short None
              {| optTitle := "t!"; optDescription := None; optTags := None;
                 optCategory := None; optSuggestedUploadTime := None |})
           short oneSubmitted); vm_compute; reflexivity.
Defined.

(** ** Playlists *)

Lemma setAdd_spec acc s :
  NoDup acc → NoDup (setAdd acc s) ∧ ∀ x, x ∈ setAdd acc s ↔ x ∈ acc ∨ x = s.
Proof.
  intros Hnd. unfold setAdd. case_bool_decide as Hin.
  - split; [done |]. intros x. split; [by left |]. by intros [?| ->].
  - split.
    + apply NoDup_app. split_and!; [done | | apply NoDup_singleton].
      intros x Hx ->%list_elem_of_singleton. done.
    + intros x. rewrite elem_of_app, list_elem_of_singleton. done.
Qed.

Lemma collectPlaylists_spec (vs : list VideoDetails) : ∀ acc,
  NoDup acc →
  let pls :=
    foldl (fun playlists video =>
             if truthy (playlist video)
             then setAdd playlists (default "" (playlist video))
             else playlists) acc vs in
  NoDup pls
  ∧ ∀ pl, pl ∈ pls ↔
          pl ∈ acc ∨ (pl ≠ "" ∧ ∃ v, v ∈ vs ∧ playlist v = Some pl).
Proof.
  induction vs as [|v vs IH]; intros acc Hnd; simpl.
  - split; [done |]. intros pl. split; [by left |].
    intros [?|(_ & v & Hv & _)]; [done | by apply elem_of_nil in Hv].
  - destruct (truthy (playlist v)) eqn:Ht.
    + apply truthy_true_inv in Ht as (s & Hs & Hne). rewrite Hs. simpl.
      destruct (setAdd_spec acc s Hnd) as [Hnd' Hin].
      destruct (IH _ Hnd') as [Hnd'' Hin'']. split; [done |].
      intros pl. rewrite Hin'', Hin. split.
      * intros [[?| ->]|(Hpl & w & Hw & Hp)]; [by left | |].
        -- right. split; [done |]. exists v. split; [left | done].
        -- right. split; [done |]. exists w. split; [by right | done].
      * intros [?|(Hpl & w & Hw & Hp)]; [by left; left |].
        apply elem_of_cons in Hw as [-> | Hw].
        -- left. right. congruence.
        -- right. split; [done |]. by exists w.
    + destruct (IH _ Hnd) as [Hnd'' Hin'']. split; [done |].
      intros pl. rewrite Hin''. split.
      * intros [?|(Hpl & w & Hw & Hp)]; [by left |].
        right. split; [done |]. exists w. split; [by right | done].
      * intros [?|(Hpl & w & Hw & Hp)]; [by left |].
        apply elem_of_cons in Hw as [-> | Hw].
        -- rewrite Hp in Ht. simpl in Ht.
           destruct (String.eqb_spec pl ""); done.
        -- right. split; [done |]. by exists w.
Qed.

Lemma owned_videos_spec u st (r : VideoDetails) :
  r ∈ (map_to_list (filter (ownedBy u) (videos st))).*2 ↔
  ∃ i, videos st !! i = Some r ∧ uid r = u.
Proof.
  rewrite list_elem_of_fmap. split.
  - intros ([i r'] & -> & Hin). apply elem_of_map_to_list in Hin.
    apply map_lookup_filter_Some in Hin as [Hin Hu]. by exists i.
  - intros (i & Hi & Hu). exists (i, r). split; [done |].
    apply elem_of_map_to_list, map_lookup_filter_Some. by split.
Qed.

Lemma getPlaylists_spec u st :
  ∃ pls, getPlaylists u st = (Ret pls, st)
         ∧ NoDup pls
         ∧ ∀ pl, pl ∈ pls ↔
                 pl ≠ "" ∧ ∃ i r, videos st !! i = Some r ∧ uid r = u
                                  ∧ playlist r = Some pl.
Proof.
  unfold getPlaylists, getAllVideos. mrun.
  destruct (collectPlaylists_spec
              (map_to_list (filter (ownedBy u) (videos st))).*2 []
              (NoDup_nil_2)) as [Hnd Hin].
  eexists. split; [reflexivity |]. split; [exact Hnd |].
  intros pl. rewrite Hin. split.
  - intros [H|(Hne & v & Hv & Hp)]; [by apply elem_of_nil in H |].
    apply owned_videos_spec in Hv as (i & Hi & Hu).
    split; [done |]. by exists i, v.
  - intros (Hne & i & r & Hi & Hu & Hp). right. split; [done |].
    exists r. split; [| done]. apply owned_videos_spec. by exists i.
Qed.

(** [getPlaylists] resolves, leaves the store alone, and lists each playlist
    once: the names listed are exactly the non-empty playlist names carried by
    a video of the user. *)
Theorem getPlaylists_lists_each_playlist_once u st :
  ∃ pls,
    getPlaylists u st = (Ret pls, st)
    ∧ NoDup pls
    ∧ ∀ pl, pl ∈ pls ↔
            pl ≠ "" ∧ ∃ i r, videos st !! i = Some r ∧ uid r = u
                             ∧ playlist r = Some pl.
Proof. apply getPlaylists_spec. Qed.

(** The two playlist queries agree: a name is listed by [getPlaylists]
    exactly when it is not empty and [countVideosInPlaylist] counts at least
    one video for it, so a series continued from the list starts at part 2 or
    later. *)
Theorem listed_playlists_have_videos u st pls pl n :
  (getPlaylists u st).1 = Ret pls →
  (countVideosInPlaylist u pl st).1 = Ret n →
  (pl ∈ pls ↔ pl ≠ "" ∧ (0 < n)%nat).
Proof.
  destruct (getPlaylists_spec u st) as (pls' & -> & _ & Hin).
  simpl. intros [= <-] [= <-]. rewrite Hin.
  assert ((0 < size (filter (inPlaylist u pl) (videos st)))%nat ↔
          ∃ i r, videos st !! i = Some r ∧ uid r = u ∧ playlist r = Some pl)
    as Hcount.
  { split.
    - intros Hpos.
      destruct (map_size_ne_0_lookup_1 (filter (inPlaylist u pl) (videos st)))
        as (i & [r Hr]); [lia |].
      apply map_lookup_filter_Some in Hr as [Hr [Hu Hp]]. by exists i, r.
    - intros (i & r & Hr & Hu & Hp).
      assert (size (filter (inPlaylist u pl) (videos st)) ≠ 0%nat); [| lia].
      apply (map_size_ne_0_lookup_2 _ i). exists r.
      apply map_lookup_filter_Some. by split. }
  by rewrite Hcount.
Qed.

Lemma listed_playlists_have_videos_witness :
  "Rust series" ∈ ["Rust series"] ↔ "Rust series" ≠ "" ∧ (0 < 1)%nat.
Proof.
  apply (listed_playlists_have_videos "u1" oneEpisode ["Rust series"]
           "Rust series" 1%nat); vm_compute; reflexivity.
Defined.

(** ** The routes of a reconciliation *)

(** Which way [checkVideoStatus] goes, read off the record, the operation
    table and the answer of the remote check. *)
Lemma checkVideoStatus_routes env videoId st :
  match videos st !! videoId with
  | None => checkVideoStatus env videoId st = (Ret (statusOnly not_found), st)
  | Some r =>
      if truthy (videoUrl r) && truthy (audioUrl r) then
        checkVideoStatus env videoId st =
          (Ret {| out_status := completed; out_videoUrl := videoUrl r |}, st)
      else if negb (truthy (operationName r)) then
        checkVideoStatus env videoId st = markFailed env videoId st
      else
        match videoOperations st !! default "" (operationName r) with
        | None => checkVideoStatus env videoId st = markFailed env videoId st
        | Some info =>
            if bool_decide (clock env - storedAt info > 24 * 60 * 60 * 1000)
            then
              checkVideoStatus env videoId st =
                markFailed env videoId
                  (withOperations (delete (default "" (operationName r))) st)
            else if done (operation info) then
              checkVideoStatus env videoId st =
                whenDone env videoId r (operation info) st
            else
              match checkOperation env (operation info) with
              | Rejected =>
                  checkVideoStatus env videoId st =
                    (Throw, polled (operation info) st)
              | Ok op =>
                  if done op then
                    checkVideoStatus env videoId st =
                      whenDone env videoId r op (polled (operation info) st)
                  else
                    checkVideoStatus env videoId st =
                      (Ret (statusOnly processing),
                       polled (operation info) st)
              end
        end
  end.
Proof.
  unfold checkVideoStatus, getVideo, getOperation, whenDone, polled. mrun.
  destruct (videos st !! videoId) as [r|]; [| done].
  destruct (truthy (videoUrl r) && truthy (audioUrl r)); [done |].
  destruct (negb (truthy (operationName r))); [done |].
  destruct (videoOperations st !! default "" (operationName r)) as [info|];
    [| done].
  case_bool_decide; [done |]. simpl.
  destruct (done (operation info)) eqn:Hd; simpl.
  - by rewrite Hd.
  - destruct (checkOperation env (operation info)) as [op|]; [| done].
    simpl. by destruct (done op).
Qed.

Lemma markFailed_settles env videoId r st :
  videoOperations (markFailed env videoId st).2 = videoOperations st
  ∧ trace (markFailed env videoId st).2 =
      trace st ++ [EvMergeDoc videoId failedPatch]
  ∧ Settlement videoId r (videos st) (markFailed env videoId st).1
      (videos (markFailed env videoId st).2) [].
Proof.
  destruct (docWrite env videoId failedPatch) eqn:Hw.
  - rewrite markFailed_accepted by done. simpl. split_and!; try done.
    constructor.
  - rewrite markFailed_refused by done. simpl. split_and!; try done.
    constructor.
Qed.

(** The [try] block with its [catch]: the events it adds hold no poll, and
    asset traffic comes before any write. *)
Lemma materializeOrFail_settles env videoId r mediaUrl st :
  videoOperations (materializeOrFail env videoId r mediaUrl st).2 =
    videoOperations st
  ∧ ∃ evs,
      trace (materializeOrFail env videoId r mediaUrl st).2 = trace st ++ evs
      ∧ polls evs = []
      ∧ (length (merges evs) ≤ 2)%nat
      ∧ Settlement videoId r (videos st)
          (materializeOrFail env videoId r mediaUrl st).1
          (videos (materializeOrFail env videoId r mediaUrl st).2)
          (thumbnails evs).
Proof.
  unfold materializeOrFail, tryCatch, materialize, markFailed,
    updateVideoMetadata. mrun. fold (videoPath videoId) (audioPath videoId).
  assert (∀ t (a b : list Event), (t ++ a) ++ b = t ++ (a ++ b)) as Happ
    by (intros; by rewrite app_assoc).
  assert (bool_decide (finalStatusOf r = Scheduled ∨ finalStatusOf r = Generated)
          = true) as Hfinal.
  { apply bool_decide_eq_true_2. unfold finalStatusOf.
    destruct (truthy (suggestedUploadTime r)); eauto. }
  repeat (first
    [ rewrite Hfinal
    | match goal with
      | |- context [uploadString ?e ?a ?b] =>
          destruct (uploadString e a b) eqn:?
      | |- context [getDownloadURL ?e ?a] =>
          destruct (getDownloadURL e a) eqn:?
      | |- context [generateSpeechAudio ?e ?a] =>
          destruct (generateSpeechAudio e a) eqn:?
      | |- context [docWrite ?e ?a ?b] =>
          destruct (docWrite e a b) eqn:?
      end ]; simpl);
    (split; [done |]); rewrite ?Happ; simpl;
    eexists; (split; [reflexivity |]); simpl;
    (split; [done |]); (split; [lia |]); constructor.
Qed.

Lemma whenDone_settles env videoId r op st :
  videoOperations (whenDone env videoId r op st).2 = videoOperations st
  ∧ ∃ evs,
      trace (whenDone env videoId r op st).2 = trace st ++ evs
      ∧ polls evs = []
      ∧ (length (merges evs) ≤ 2)%nat
      ∧ Settlement videoId r (videos st) (whenDone env videoId r op st).1
          (videos (whenDone env videoId r op st).2) (thumbnails evs)
      ∧ (is_Some (error op) ∨ videoMediaUrl op = None →
         evs = [EvMergeDoc videoId failedPatch]).
Proof.
  unfold whenDone. case_bool_decide as Herr.
  - destruct (markFailed_settles env videoId r st) as (Ho & Ht & Hs).
    split; [done |]. exists [EvMergeDoc videoId failedPatch].
    split_and!; try done. simpl. lia.
  - destruct (videoMediaUrl op) as [mediaUrl|].
    + destruct (materializeOrFail_settles env videoId r mediaUrl st)
        as (Ho & evs & Ht & Hp & Hm & Hs).
      split; [done |]. exists evs. split_and!; try done.
      by intros [?|?].
    + destruct (markFailed_settles env videoId r st) as (Ho & Ht & Hs).
      split; [done |]. exists [EvMergeDoc videoId failedPatch].
      split_and!; try done. simpl. lia.
Qed.

(** Every way a call can go, in one statement: what it adds to the trace,
    what it does to the operation table, and how it leaves the collection. *)
Lemma checkVideoStatus_summary env videoId st :
  ∃ evs,
    trace (checkVideoStatus env videoId st).2 = trace st ++ evs
    ∧ (polls evs = []
       ∨ ∃ r name info,
           videos st !! videoId = Some r ∧ operationName r = Some name
           ∧ videoOperations st !! name = Some info
           ∧ clock env - storedAt info ≤ 24 * 60 * 60 * 1000
           ∧ done (operation info) = false
           ∧ polls evs = [operation info])
    ∧ (length (merges evs) ≤ 2)%nat
    ∧ (videoOperations (checkVideoStatus env videoId st).2 = videoOperations st
       ∨ ∃ r name info,
           videos st !! videoId = Some r ∧ operationName r = Some name
           ∧ videoOperations st !! name = Some info
           ∧ clock env - storedAt info > 24 * 60 * 60 * 1000
           ∧ videoOperations (checkVideoStatus env videoId st).2 =
               delete name (videoOperations st))
    ∧ match videos st !! videoId with
      | None =>
          checkVideoStatus env videoId st = (Ret (statusOnly not_found), st)
      | Some r =>
          (truthy (videoUrl r) && truthy (audioUrl r) = true
           ∧ checkVideoStatus env videoId st =
               (Ret {| out_status := completed; out_videoUrl := videoUrl r |},
                st))
          ∨ (truthy (videoUrl r) && truthy (audioUrl r) = false
             ∧ (Settlement videoId r (videos st)
                  (checkVideoStatus env videoId st).1
                  (videos (checkVideoStatus env videoId st).2)
                  (thumbnails evs)
                ∨ ((checkVideoStatus env videoId st).1 =
                     Ret (statusOnly processing)
                   ∧ videos (checkVideoStatus env videoId st).2 = videos st
                   ∧ thumbnails evs = [] ∧ merges evs = [])))
      end.
Proof.
  pose proof (checkVideoStatus_routes env videoId st) as Hroute.
  destruct (videos st !! videoId) as [r|] eqn:Hr.
  2: { rewrite Hroute. exists []. simpl. rewrite app_nil_r.
       split_and!; eauto. }
  destruct (truthy (videoUrl r) && truthy (audioUrl r)) eqn:Hurls.
  { rewrite Hroute. exists []. simpl. rewrite app_nil_r.
    split_and!; eauto. }
  destruct (operationName r) as [name|] eqn:Hname; simpl in Hroute.
  2: { rewrite Hroute.
       destruct (markFailed_settles env videoId r st) as (Ho & Ht & Hs).
       exists [EvMergeDoc videoId failedPatch].
       split_and!; eauto. }
  destruct (negb (String.eqb name "")); simpl in Hroute.
  2: { rewrite Hroute.
       destruct (markFailed_settles env videoId r st) as (Ho & Ht & Hs).
       exists [EvMergeDoc videoId failedPatch].
       split_and!; eauto. }
  destruct (videoOperations st !! name) as [info|] eqn:Hinfo.
  2: { rewrite Hroute.
       destruct (markFailed_settles env videoId r st) as (Ho & Ht & Hs).
       exists [EvMergeDoc videoId failedPatch].
       split_and!; eauto. }
  case_bool_decide as Hexp.
  { rewrite Hroute.
    destruct (markFailed_settles env videoId r
                (withOperations (delete name) st)) as (Ho & Ht & Hs).
    exists [EvMergeDoc videoId failedPatch].
    split_and!; eauto.
    right. exists r, name, info. by split_and!. }
  destruct (done (operation info)) eqn:Hdone.
  { rewrite Hroute.
    destruct (whenDone_settles env videoId r (operation info) st)
      as (Ho & evs & Ht & Hp & Hm & Hs & _).
    exists evs. split_and!; eauto. }
  destruct (checkOperation env (operation info)) as [op|] eqn:Hop.
  2: { rewrite Hroute. exists [EvCheckOperation (operation info)].
       split_and!; eauto.
       - right. exists r, name, info. by split_and!.
       - right. split; [done |]. left. constructor. }
  destruct (done op) eqn:Hdone'.
  - rewrite Hroute.
    destruct (whenDone_settles env videoId r op (polled (operation info) st))
      as (Ho & evs & Ht & Hp & Hm & Hs & _).
    exists (EvCheckOperation (operation info) :: evs). split_and!.
    + rewrite Ht. simpl. by rewrite <- app_assoc.
    + right. exists r, name, info. split_and!; try done.
      change (polls (EvCheckOperation (operation info) :: evs))
        with (operation info :: polls evs). by rewrite Hp.
    + simpl. done.
    + by left.
    + right. split; [done |]. left. exact Hs.
  - rewrite Hroute. exists [EvCheckOperation (operation info)].
    split_and!; eauto.
    + right. exists r, name, info. by split_and!.
    + right. split; [done |]. by right.
Qed.

Lemma Settlement_inv videoId r m o m' ths :
  Settlement videoId r m o m' ths →
  (o = Ret (statusOnly failed)
   ∧ m' = alter (applyPatch failedPatch) videoId m ∧ ths = [])
  ∨ (o = Throw ∧ m' = m ∧ ths = [])
  ∨ (∃ v a, o = Ret {| out_status := completed; out_videoUrl := Some v |}
            ∧ m' = alter (applyPatch (finalPatch v a (finalStatusOf r)))
                     videoId m
            ∧ ths = [thumbnailFor r videoId]).
Proof. intros []; eauto 10. Qed.

(** ** What a reconciliation answers *)

(** [checkVideoStatus] answers [not_found] exactly for an identifier without
    a document, and then leaves the store, trace included, as it was. *)
Theorem checkVideoStatus_not_found_iff_missing env videoId st :
  (videos st !! videoId = None ↔
   ∃ out, (checkVideoStatus env videoId st).1 = Ret out
          ∧ out_status out = not_found)
  ∧ (videos st !! videoId = None →
     checkVideoStatus env videoId st = (Ret (statusOnly not_found), st)).
Proof.
  destruct (checkVideoStatus_summary env videoId st)
    as (evs & _ & _ & _ & _ & Hcase).
  destruct (videos st !! videoId) as [r|] eqn:Hr.
  - split; [| done]. split; [done |]. intros (out & Hout & Hnf).
    destruct Hcase as [[_ E]|[_ [Hs|(E & _)]]].
    + rewrite E in Hout. injection Hout as <-. done.
    + apply Settlement_inv in Hs as [(E & _)|[(E & _)|(v & a & E & _)]];
        rewrite E in Hout; try done; injection Hout as <-; done.
    + rewrite E in Hout. injection Hout as <-. done.
  - split; [| done]. split; [| done]. intros _.
    exists (statusOnly not_found). by rewrite Hcase.
Qed.

(** The answer of a call that resolves agrees with the record it leaves:
    after [completed] the record holds the returned [videoUrl] and an
    [audioUrl]; after [failed] it reads [Failed]; after [processing] it is
    the record the call found; after [not_found] there is none. *)
Theorem checkVideoStatus_answer_matches_the_record env videoId st out :
  (checkVideoStatus env videoId st).1 = Ret out →
  match out_status out with
  | completed =>
      ∃ r', videos (checkVideoStatus env videoId st).2 !! videoId = Some r'
            ∧ videoUrl r' = out_videoUrl out
            ∧ is_Some (videoUrl r') ∧ is_Some (audioUrl r')
  | failed =>
      ∃ r', videos (checkVideoStatus env videoId st).2 !! videoId = Some r'
            ∧ status r' = Failed ∧ out_videoUrl out = None
  | processing =>
      ∃ r', videos (checkVideoStatus env videoId st).2 !! videoId = Some r'
            ∧ videos st !! videoId = Some r' ∧ out_videoUrl out = None
  | not_found =>
      videos (checkVideoStatus env videoId st).2 !! videoId = None
  end.
Proof.
  intros Hout.
  destruct (checkVideoStatus_summary env videoId st)
    as (evs & _ & _ & _ & _ & Hcase).
  destruct (videos st !! videoId) as [r|] eqn:Hr.
  - destruct Hcase as [[Hurls E]|[_ [Hs|(E & Hv & _)]]].
    + rewrite E in Hout |- *. injection Hout as <-. simpl.
      apply andb_true_iff in Hurls as [Hv Ha].
      apply truthy_true_inv in Hv as (v & Hv & _).
      apply truthy_true_inv in Ha as (a & Ha & _).
      exists r. rewrite Hv, Ha. split_and!; eauto.
    + apply Settlement_inv in Hs
        as [(E & Hm & _)|[(E & _)|(v & a & E & Hm & _)]];
        rewrite E in Hout; [| done |]; injection Hout as <-; simpl;
        rewrite Hm, lookup_alter_eq, Hr; simpl; eexists;
        (split; [reflexivity |]); simpl; eauto.
    + rewrite E in Hout. injection Hout as <-. simpl.
      exists r. by rewrite Hv.
  - rewrite Hcase in Hout |- *. injection Hout as <-. simpl. exact Hr.
Qed.

Lemma checkVideoStatus_answer_matches_the_record_witness :
  ∃ r', videos (checkVideoStatus (sunnyDay 2000 "unused") "v1"
                  oneSubmitted).2 !! "v1" = Some r'
        ∧ videoUrl r' = Some "https://storage/videos/v1/generated_video.mp4"
        ∧ is_Some (videoUrl r') ∧ is_Some (audioUrl r').
Proof.
  apply (checkVideoStatus_answer_matches_the_record (sunnyDay 2000 "unused")
           "v1" oneSubmitted
           {| out_status := completed;
              out_videoUrl :=
                Some "https://storage/videos/v1/generated_video.mp4" |}).
  vm_compute. reflexivity.
Defined.

(** ** What a reconciliation leaves alone *)

Lemma sameRequest_refl r : sameRequest r r.
Proof. by repeat split. Qed.

Lemma sameRequest_trans r1 r2 r3 :
  sameRequest r1 r2 → sameRequest r2 r3 → sameRequest r1 r3.
Proof. unfold sameRequest. intros H1 H2. split_and!; destruct_and!; congruence. Qed.

Lemma progresses_refl r : progresses r r.
Proof. by repeat split. Qed.

Lemma progresses_trans r1 r2 r3 :
  progresses r1 r2 → progresses r2 r3 → progresses r1 r3.
Proof. unfold progresses. intros (?&?&?) (?&?&?). split_and!; eauto. Qed.

Lemma reconciled_refl m : reconciled m m.
Proof.
  intros i. destruct (m !! i); [| done].
  split; [apply sameRequest_refl | apply progresses_refl].
Qed.

Lemma reconciled_trans m1 m2 m3 :
  reconciled m1 m2 → reconciled m2 m3 → reconciled m1 m3.
Proof.
  intros H12 H23 i. specialize (H12 i). specialize (H23 i).
  destruct (m1 !! i), (m2 !! i), (m3 !! i); try done.
  destruct H12, H23.
  split; [by eapply sameRequest_trans | by eapply progresses_trans].
Qed.

Lemma reconciled_patch p videoId m :
  p_operationName p = None → p_status p ≠ Some Processing →
  reconciled m (alter (applyPatch p) videoId m).
Proof.
  intros Hname Hstatus i. rewrite lookup_alter. case_decide as Hi.
  - subst i. destruct (m !! videoId) as [r|]; simpl; [| done]. split.
    + unfold sameRequest. simpl. rewrite Hname. by split_and!.
    + unfold progresses. simpl. split_and!.
      * destruct (p_status p) as [s|]; simpl; congruence.
      * destruct (p_videoUrl p); simpl; eauto.
      * destruct (p_audioUrl p); simpl; eauto.
  - destruct (m !! i); [| done].
    split; [apply sameRequest_refl | apply progresses_refl].
Qed.

(** The three things a call can do to the collection. *)
Lemma checkVideoStatus_writes env videoId st :
  videos (checkVideoStatus env videoId st).2 = videos st
  ∨ videos (checkVideoStatus env videoId st).2 =
      alter (applyPatch failedPatch) videoId (videos st)
  ∨ ∃ r v a,
      videos st !! videoId = Some r
      ∧ videos (checkVideoStatus env videoId st).2 =
          alter (applyPatch (finalPatch v a (finalStatusOf r))) videoId
            (videos st).
Proof.
  destruct (checkVideoStatus_summary env videoId st)
    as (evs & _ & _ & _ & _ & Hcase).
  destruct (videos st !! videoId) as [r|] eqn:Hr.
  - destruct Hcase as [[_ E]|[_ [Hs|(_ & Hv & _)]]].
    + left. by rewrite E.
    + apply Settlement_inv in Hs
        as [(_ & Hm & _)|[(_ & Hm & _)|(v & a & _ & Hm & _)]]; eauto 10.
    + by left.
  - left. by rewrite Hcase.
Qed.

Lemma checkVideoStatus_reconciled env videoId st :
  reconciled (videos st) (videos (checkVideoStatus env videoId st).2).
Proof.
  destruct (checkVideoStatus_writes env videoId st)
    as [->|[->|(r & v & a & _ & ->)]].
  - apply reconciled_refl.
  - by apply reconciled_patch.
  - apply reconciled_patch; [done |]. simpl. unfold finalStatusOf.
    by destruct (truthy (suggestedUploadTime r)).
Qed.

Lemma reconcileAll_reconciled checks : ∀ st,
  reconciled (videos st) (videos (reconcileAll checks st)).
Proof.
  unfold reconcileAll.
  induction checks as [|c checks IH]; intros st; simpl.
  - apply reconciled_refl.
  - eapply reconciled_trans; [apply checkVideoStatus_reconciled | apply IH].
Qed.

(** A call touches one record: every other document is as it was, no
    document appears or disappears, and of the record asked for only
    [status], [videoUrl] and [audioUrl] can have changed.  The operation table
    gains nothing; the one entry it can lose is the expired entry that the
    record names. *)
Theorem checkVideoStatus_touches_one_record env videoId st :
  (∀ other, other ≠ videoId →
     videos (checkVideoStatus env videoId st).2 !! other =
       videos st !! other)
  ∧ (∀ i, is_Some (videos (checkVideoStatus env videoId st).2 !! i) ↔
          is_Some (videos st !! i))
  ∧ (∀ r r', videos st !! videoId = Some r →
             videos (checkVideoStatus env videoId st).2 !! videoId = Some r' →
             sameRequest r r')
  ∧ (∀ name info,
       videoOperations (checkVideoStatus env videoId st).2 !! name = Some info →
       videoOperations st !! name = Some info)
  ∧ (∀ name info,
       videoOperations st !! name = Some info →
       videoOperations (checkVideoStatus env videoId st).2 !! name = None →
       clock env - storedAt info > 24 * 60 * 60 * 1000
       ∧ operationName <$> videos st !! videoId = Some (Some name)).
Proof.
  pose proof (checkVideoStatus_reconciled env videoId st) as Hrec.
  split_and!.
  - intros other Hne.
    destruct (checkVideoStatus_writes env videoId st)
      as [->|[->|(r & v & a & _ & ->)]]; [done | |];
      by rewrite lookup_alter_ne.
  - intros i. specialize (Hrec i).
    destruct (videos st !! i),
      (videos (checkVideoStatus env videoId st).2 !! i); done.
  - intros r r' Hr Hr'. specialize (Hrec videoId).
    rewrite Hr, Hr' in Hrec. by destruct Hrec.
  - intros name info.
    destruct (checkVideoStatus_summary env videoId st)
      as (evs & _ & _ & _ & [->|(r & n & i & _ & _ & _ & _ & ->)] & _);
      [done |].
    intros Hl. apply lookup_delete_Some in Hl. by destruct Hl.
  - intros name info Hbefore Hafter.
    destruct (checkVideoStatus_summary env videoId st)
      as (evs & _ & _ & _ & [E|(r & n & i & Hr & Hn & Hi & Hexp & E)] & _);
      rewrite E in Hafter; [congruence |].
    apply lookup_delete_None in Hafter as [-> | Hafter]; [| congruence].
    rewrite Hi in Hbefore. injection Hbefore as <-.
    split; [done |]. by rewrite Hr, <- Hn.
Qed.

(** However many reconciliations run, a record that has left [Processing]
    does not return to it, and a record that holds a URL keeps holding one. *)
Theorem reconciliation_never_regresses checks st i r :
  videos st !! i = Some r →
  ∃ r', videos (reconcileAll checks st) !! i = Some r'
        ∧ (status r ≠ Processing → status r' ≠ Processing)
        ∧ (is_Some (videoUrl r) → is_Some (videoUrl r'))
        ∧ (is_Some (audioUrl r) → is_Some (audioUrl r')).
Proof.
  intros Hr. pose proof (reconcileAll_reconciled checks st i) as Hrec.
  rewrite Hr in Hrec.
  destruct (videos (reconcileAll checks st) !! i) as [r'|]; [| done].
  exists r'. destruct Hrec as [_ (?&?&?)]. by split_and!.
Qed.

Lemma reconciliation_never_regresses_witness :
  ∃ r', videos (reconcileAll [(storageDown 6000 true, "auto-0");
                              (stillRendering 7000, "auto-0")]
                  threeFailed) !! "auto-0" = Some r'
        ∧ status r' ≠ Processing.
Proof.
  destruct (videos threeFailed !! "auto-0") as [r|] eqn:Hr;
    [| vm_compute in Hr; discriminate].
  assert (status r = Failed) as Hs.
  { vm_compute in Hr. injection Hr as <-. done. }
  destruct (reconciliation_never_regresses
              [(storageDown 6000 true, "auto-0");
               (stillRendering 7000, "auto-0")]
              threeFailed "auto-0" r Hr) as (r' & Hr' & Hst & _).
  exists r'. split; [exact Hr' |]. apply Hst. rewrite Hs. discriminate.
Defined.

Lemma size_filter_reconciled (P : string * VideoDetails → Prop)
    `{!∀ kv, Decision (P kv)} (m m' : gmap string VideoDetails) :
  reconciled m m' →
  (∀ k r r', sameRequest r r' → (P (k, r) ↔ P (k, r'))) →
  size (filter P m') = size (filter P m).
Proof.
  intros Hrec HP.
  rewrite <- (size_dom (D := gset string) (filter P m')).
  rewrite <- (size_dom (D := gset string) (filter P m)).
  f_equal. apply dom_filter_L. intros k.
  rewrite elem_of_dom. unfold is_Some.
  setoid_rewrite map_lookup_filter_Some.
  specialize (Hrec k).
  destruct (m !! k) as [r|], (m' !! k) as [r'|]; try done.
  - destruct Hrec as [Hsame _]. split.
    + intros (x & [= <-] & Hx). exists r'. split; [done |].
      by apply (HP k r r').
    + intros (x & [= <-] & Hx). exists r. split; [done |].
      by apply (HP k r r').
Qed.

(** Reconciliations are invisible to the scheduler: however many run, the
    counts of today and of this week, the number of videos in a playlist and
    the set of playlists listed are, for every user, what they were. *)
Theorem reconciliation_leaves_the_counts checks env u pl st :
  (getTodaysVideoCounts env u (reconcileAll checks st)).1 =
    (getTodaysVideoCounts env u st).1
  ∧ (getThisWeeksVideoCounts env u (reconcileAll checks st)).1 =
      (getThisWeeksVideoCounts env u st).1
  ∧ (countVideosInPlaylist u pl (reconcileAll checks st)).1 =
      (countVideosInPlaylist u pl st).1
  ∧ ∃ before after,
      (getPlaylists u st).1 = Ret before
      ∧ (getPlaylists u (reconcileAll checks st)).1 = Ret after
      ∧ ∀ name, name ∈ after ↔ name ∈ before.
Proof.
  pose proof (reconcileAll_reconciled checks st) as Hrec.
  assert (∀ l lo hi k r r', sameRequest r r' →
            createdWithin u l lo hi (k, r) ↔ createdWithin u l lo hi (k, r'))
    as Hwithin.
  { intros l lo hi k r r' Hsame.
    unfold createdWithin, hasLength, ownedWithin, sameRequest in *. simpl.
    destruct_and!. by repeat match goal with H : _ r' = _ r |- _ =>
                                rewrite H; clear H end. }
  split_and!.
  - rewrite !getTodaysVideoCounts_spec. simpl.
    by rewrite !(size_filter_reconciled _ _ _ Hrec) by apply Hwithin.
  - rewrite !getThisWeeksVideoCounts_spec. simpl.
    by rewrite !(size_filter_reconciled _ _ _ Hrec) by apply Hwithin.
  - unfold countVideosInPlaylist. mrun. simpl.
    rewrite (size_filter_reconciled _ _ _ Hrec); [done |].
    intros k r r' Hsame. unfold inPlaylist, sameRequest in *. simpl.
    destruct_and!. by repeat match goal with H : _ r' = _ r |- _ =>
                                rewrite H; clear H end.
  - destruct (getPlaylists_spec u st) as (before & -> & _ & Hb).
    destruct (getPlaylists_spec u (reconcileAll checks st))
      as (after & -> & _ & Ha).
    exists before, after. split_and!; try done.
    intros name. rewrite Ha, Hb.
    split; intros (Hne & i & r & Hi & Hu & Hp); (split; [done |]);
      specialize (Hrec i); rewrite Hi in Hrec.
    + destruct (videos st !! i) as [r0|] eqn:E; [| done].
      destruct Hrec as [Hsame _]. exists i, r0.
      unfold sameRequest in Hsame. destruct_and!. split_and!; congruence.
    + destruct (videos (reconcileAll checks st) !! i) as [r1|] eqn:E; [| done].
      destruct Hrec as [Hsame _]. exists i, r1.
      unfold sameRequest in Hsame. destruct_and!. split_and!; congruence.
Qed.

Lemma checkVideoStatus_short_circuit env videoId st r :
  videos st !! videoId = Some r →
  truthy (videoUrl r) = true → truthy (audioUrl r) = true →
  checkVideoStatus env videoId st =
    (Ret {| out_status := completed; out_videoUrl := videoUrl r |}, st).
Proof.
  intros Hr Hv Ha.
  pose proof (checkVideoStatus_routes env videoId st) as Hroute.
  by rewrite Hr, Hv, Ha in Hroute.
Qed.

(** ** What a reconciliation asks of the outside *)

(** The [try] block asks for a thumbnail only when each of its steps went
    through. *)
Lemma materializeOrFail_thumbnails env videoId r mediaUrl s :
  ∃ evs,
    trace (materializeOrFail env videoId r mediaUrl s).2 = trace s ++ evs
    ∧ (thumbnails evs ≠ [] →
       ∃ vUrl audioDataUri aUrl,
         uploadString env (videoPath videoId) mediaUrl = true
         ∧ getDownloadURL env (videoPath videoId) = Ok vUrl
         ∧ generateSpeechAudio env (script r) = Ok audioDataUri
         ∧ uploadString env (audioPath videoId) audioDataUri = true
         ∧ getDownloadURL env (audioPath videoId) = Ok aUrl
         ∧ docWrite env videoId (finalPatch vUrl aUrl (finalStatusOf r))
             = true).
Proof.
  unfold materializeOrFail, tryCatch, materialize, markFailed,
    updateVideoMetadata. mrun. fold (videoPath videoId) (audioPath videoId).
  assert (∀ t (a b : list Event), (t ++ a) ++ b = t ++ (a ++ b)) as Happ
    by (intros; by rewrite app_assoc).
  destruct (uploadString env (videoPath videoId) mediaUrl) eqn:Hup1; simpl.
  2: { destruct (docWrite env videoId failedPatch); simpl; rewrite ?Happ;
       eexists; (split; [reflexivity |]); done. }
  destruct (getDownloadURL env (videoPath videoId)) as [vUrl|] eqn:Hurl1; simpl.
  2: { destruct (docWrite env videoId failedPatch); simpl; rewrite ?Happ;
       eexists; (split; [reflexivity |]); done. }
  destruct (generateSpeechAudio env (script r)) as [audioDataUri|] eqn:Hsp;
    simpl.
  2: { destruct (docWrite env videoId failedPatch); simpl; rewrite ?Happ;
       eexists; (split; [reflexivity |]); done. }
  destruct (uploadString env (audioPath videoId) audioDataUri) eqn:Hup2; simpl.
  2: { destruct (docWrite env videoId failedPatch); simpl; rewrite ?Happ;
       eexists; (split; [reflexivity |]); done. }
  destruct (getDownloadURL env (audioPath videoId)) as [aUrl|] eqn:Hurl2; simpl.
  2: { destruct (docWrite env videoId failedPatch); simpl; rewrite ?Happ;
       eexists; (split; [reflexivity |]); done. }
  destruct (docWrite env videoId (finalPatch vUrl aUrl (finalStatusOf r)))
    eqn:Hw; simpl.
  2: { destruct (docWrite env videoId failedPatch); simpl; rewrite ?Happ;
       eexists; (split; [reflexivity |]); done. }
  destruct (bool_decide (finalStatusOf r = Scheduled
                         ∨ finalStatusOf r = Generated)); simpl;
    rewrite ?Happ; eexists; (split; [reflexivity |]); intros _;
    by exists vUrl, audioDataUri, aUrl.
Qed.

Lemma whenDone_thumbnails env videoId r op s :
  ∃ evs,
    trace (whenDone env videoId r op s).2 = trace s ++ evs
    ∧ (thumbnails evs ≠ [] →
       error op = None
       ∧ ∃ mediaUrl vUrl audioDataUri aUrl,
           videoMediaUrl op = Some mediaUrl
           ∧ uploadString env (videoPath videoId) mediaUrl = true
           ∧ getDownloadURL env (videoPath videoId) = Ok vUrl
           ∧ generateSpeechAudio env (script r) = Ok audioDataUri
           ∧ uploadString env (audioPath videoId) audioDataUri = true
           ∧ getDownloadURL env (audioPath videoId) = Ok aUrl
           ∧ docWrite env videoId (finalPatch vUrl aUrl (finalStatusOf r))
               = true).
Proof.
  unfold whenDone. case_bool_decide as Herr.
  { exists [EvMergeDoc videoId failedPatch].
    split; [apply markFailed_trace | done]. }
  destruct (videoMediaUrl op) as [mediaUrl|].
  2: { exists [EvMergeDoc videoId failedPatch].
       split; [apply markFailed_trace | done]. }
  destruct (materializeOrFail_thumbnails env videoId r mediaUrl s)
    as (evs & Ht & Hth).
  exists evs. split; [done |]. intros Hne.
  destruct (Hth Hne) as (vUrl & audioDataUri & aUrl & H).
  split.
  - destruct (error op) eqn:E; [| done]. exfalso. apply Herr. eauto.
  - by exists mediaUrl, vUrl, audioDataUri, aUrl.
Qed.

(** A reconciliation asks for a thumbnail only after a materialization of
    which every step went through. *)
Lemma checkVideoStatus_thumbnails env videoId st :
  ∃ evs,
    trace (checkVideoStatus env videoId st).2 = trace st ++ evs
    ∧ (thumbnails evs ≠ [] →
       ∃ r vUrl aUrl, MaterializationSucceeds env videoId st r vUrl aUrl).
Proof.
  pose proof (checkVideoStatus_routes env videoId st) as Hroute.
  destruct (videos st !! videoId) as [r|] eqn:Hr.
  2: { rewrite Hroute. exists []. split; [by rewrite app_nil_r | done]. }
  destruct (truthy (videoUrl r) && truthy (audioUrl r)) eqn:Hurls.
  { rewrite Hroute. exists []. split; [by rewrite app_nil_r | done]. }
  destruct (operationName r) as [name|] eqn:Hname; simpl in Hroute.
  2: { rewrite Hroute. exists [EvMergeDoc videoId failedPatch].
       split; [apply markFailed_trace | done]. }
  destruct (negb (String.eqb name "")) eqn:Hne; simpl in Hroute.
  2: { rewrite Hroute. exists [EvMergeDoc videoId failedPatch].
       split; [apply markFailed_trace | done]. }
  destruct (videoOperations st !! name) as [info|] eqn:Hinfo.
  2: { rewrite Hroute. exists [EvMergeDoc videoId failedPatch].
       split; [apply markFailed_trace | done]. }
  case_bool_decide as Hexp.
  { rewrite Hroute. exists [EvMergeDoc videoId failedPatch].
    split; [by rewrite markFailed_trace | done]. }
  assert (clock env - storedAt info ≤ 24 * 60 * 60 * 1000) as Hfresh by lia.
  destruct (done (operation info)) eqn:Hd.
  { rewrite Hroute.
    destruct (whenDone_thumbnails env videoId r (operation info) st)
      as (evs & Ht & Hth).
    exists evs. split; [done |]. intros Hex.
    destruct (Hth Hex) as (Herr & mediaUrl & vUrl & audioDataUri & aUrl
                           & Hmedia & Hsteps).
    exists r, vUrl, aUrl, mediaUrl, st, audioDataUri. split; [| done].
    by apply (reaches_cached env videoId st r mediaUrl name info). }
  destruct (checkOperation env (operation info)) as [op|] eqn:Hop.
  2: { rewrite Hroute. exists [EvCheckOperation (operation info)].
       split; done. }
  destruct (done op) eqn:Hd'.
  2: { rewrite Hroute. exists [EvCheckOperation (operation info)].
       split; done. }
  rewrite Hroute.
  destruct (whenDone_thumbnails env videoId r op (polled (operation info) st))
    as (evs & Ht & Hth).
  exists (EvCheckOperation (operation info) :: evs).
  split; [rewrite Ht; simpl; by rewrite <- app_assoc |].
  intros Hex.
  destruct (Hth Hex) as (Herr & mediaUrl & vUrl & audioDataUri & aUrl
                         & Hmedia & Hsteps).
  exists r, vUrl, aUrl, mediaUrl, (polled (operation info) st), audioDataUri.
  split; [| done].
  by apply (reaches_polled env videoId st r mediaUrl name info op).
Qed.

(** A materialization of which every step goes through asks for the
    thumbnail of the record, once. *)
Lemma succeeding_materialization_asks_for_a_thumbnail
    env videoId st r vUrl aUrl evs :
  MaterializationSucceeds env videoId st r vUrl aUrl →
  trace (checkVideoStatus env videoId st).2 = trace st ++ evs →
  thumbnails evs = [thumbnailFor r videoId].
Proof.
  intros (mediaUrl & st0 & audioDataUri & Hreach & Hup1 & Hurl1 & Hspeech
          & Hup2 & Hurl2 & Hwrite).
  rewrite (checkVideoStatus_materializes _ _ _ _ _ _ Hreach).
  assert (bool_decide (finalStatusOf r = Scheduled ∨ finalStatusOf r = Generated)
          = true) as Hfinal.
  { apply bool_decide_eq_true_2. unfold finalStatusOf.
    destruct (truthy (suggestedUploadTime r)); eauto. }
  assert (trace (materializeOrFail env videoId r mediaUrl st0).2 =
    trace st0 ++
      [EvUploadString (videoPath videoId) mediaUrl;
       EvGetDownloadURL (videoPath videoId);
       EvSpeech (script r);
       EvUploadString (audioPath videoId) audioDataUri;
       EvGetDownloadURL (audioPath videoId);
       EvMergeDoc videoId (finalPatch vUrl aUrl (finalStatusOf r));
       EvThumbnail (thumbnailFor r videoId)]) as ->.
  { unfold materializeOrFail, tryCatch, materialize, updateVideoMetadata.
    mrun. fold (videoPath videoId) (audioPath videoId).
    rewrite Hup1, Hurl1, Hspeech, Hup2, Hurl2, Hwrite, Hfinal. simpl.
    by rewrite <- !app_assoc. }
  destruct Hreach; intros Ht.
  - apply app_inv_head in Ht. by subst evs.
  - simpl in Ht. rewrite <- app_assoc in Ht. apply app_inv_head in Ht.
    by subst evs.
Qed.

(** The reconciliation of [oneSubmitted] on a sunny day is such a
    materialization. *)
Lemma sunny_materialization_succeeds :
  MaterializationSucceeds (sunnyDay 2000 "unused") "v1" oneSubmitted
    submittedRecord "https://storage/videos/v1/generated_video.mp4"
    "https://storage/videos/v1/generated_audio.wav".
Proof.
  exists "data:video/mp4",
    (withTrace (fun t => t ++ [EvCheckOperation pendingOperation])
       oneSubmitted),
    "data:audio/wav".
  split_and!; try reflexivity.
  apply oneSubmitted_reaches_materialization; [simpl; lia | reflexivity].
Qed.

(** Per call: at most one remote check, and only of an operation that the
    record names and that is cached, not expired and not done; at most two
    metadata updates; at most one thumbnail request.  The thumbnail is asked
    for exactly when the call enters the materialization and each of its
    steps, the write of the URLs included, goes through; the call has then
    stored the URLs and resolves with [completed]. *)
Theorem checkVideoStatus_asks_sparingly env videoId st :
  ∃ evs,
    trace (checkVideoStatus env videoId st).2 = trace st ++ evs
    ∧ (length (polls evs) ≤ 1)%nat
    ∧ (∀ op, op ∈ polls evs →
         done op = false
         ∧ ∃ r name info,
             videos st !! videoId = Some r ∧ operationName r = Some name
             ∧ videoOperations st !! name = Some info
             ∧ clock env - storedAt info ≤ 24 * 60 * 60 * 1000
             ∧ op = operation info)
    ∧ (length (merges evs) ≤ 2)%nat
    ∧ (thumbnails evs = []
       ∨ ∃ r v,
           videos st !! videoId = Some r
           ∧ thumbnails evs = [thumbnailFor r videoId]
           ∧ (checkVideoStatus env videoId st).1 =
               Ret {| out_status := completed; out_videoUrl := Some v |}
           ∧ videoUrl <$> videos (checkVideoStatus env videoId st).2 !! videoId =
               Some (Some v))
    ∧ (thumbnails evs ≠ [] ↔
       ∃ r vUrl aUrl, MaterializationSucceeds env videoId st r vUrl aUrl).
Proof.
  destruct (checkVideoStatus_summary env videoId st)
    as (evs & Ht & Hpolls & Hmerges & _ & Hcase).
  exists evs. split; [done |]. split_and!; try done.
  4: { split.
       - intros Hne.
         destruct (checkVideoStatus_thumbnails env videoId st)
           as (evs' & Ht' & Hth).
         rewrite Ht in Ht'. apply app_inv_head in Ht'. subst evs'. auto.
       - intros (r & vUrl & aUrl & Hok).
         by rewrite (succeeding_materialization_asks_for_a_thumbnail
                       _ _ _ _ _ _ _ Hok Ht). }
  - destruct Hpolls as [->|(r & name & info & _ & _ & _ & _ & _ & ->)];
      simpl; lia.
  - intros op Hop.
    destruct Hpolls as [Hp|(r & name & info & Hr & Hn & Hi & Hf & Hd & Hp)];
      rewrite Hp in Hop; [by apply elem_of_nil in Hop |].
    apply list_elem_of_singleton in Hop as ->.
    split; [done |]. by exists r, name, info.
  - destruct (videos st !! videoId) as [r|] eqn:Hr.
    + destruct Hcase as [[_ E]|[_ [Hs|(_ & _ & Hth & _)]]].
      * left. rewrite E in Ht. simpl in Ht.
        apply (f_equal length) in Ht. rewrite length_app in Ht.
        destruct evs; [done | simpl in Ht; lia].
      * apply Settlement_inv in Hs
          as [(_ & _ & Hth)|[(_ & _ & Hth)|(v & a & E & Hm & Hth)]];
          [by left | by left |].
        right. exists r, v. split_and!; try done.
        by rewrite Hm, lookup_alter_eq, Hr.
      * by left.
    + left. rewrite Hcase in Ht. simpl in Ht.
      apply (f_equal length) in Ht. rewrite length_app in Ht.
      destruct evs; [done | simpl in Ht; lia].
Qed.

(** When every step of the materialization goes through, the call answers
    [completed] with the download URL of the video; the record holds that URL
    and the one of the audio, in status [Scheduled] if it has a suggested
    upload time and [Generated] otherwise, and is otherwise as it was.  The
    steps are, in this order: upload of the media to
    [videos/<id>/generated_video.mp4], its URL, speech from the stored script,
    upload to [videos/<id>/generated_audio.wav], its URL, one metadata update,
    one thumbnail request.  With non-empty URLs every later call answers the
    same and does nothing. *)
Theorem materialization_stores_both_urls
    env videoId st r mediaUrl st0 vUrl audioDataUri aUrl :
  ReachesMaterialization env videoId st r mediaUrl st0 →
  uploadString env (videoPath videoId) mediaUrl = true →
  getDownloadURL env (videoPath videoId) = Ok vUrl →
  generateSpeechAudio env (script r) = Ok audioDataUri →
  uploadString env (audioPath videoId) audioDataUri = true →
  getDownloadURL env (audioPath videoId) = Ok aUrl →
  docWrite env videoId (finalPatch vUrl aUrl (finalStatusOf r)) = true →
  (checkVideoStatus env videoId st).1 =
    Ret {| out_status := completed; out_videoUrl := Some vUrl |}
  ∧ (∃ r', videos (checkVideoStatus env videoId st).2 !! videoId = Some r'
           ∧ videoUrl r' = Some vUrl ∧ audioUrl r' = Some aUrl
           ∧ status r' =
               (if truthy (suggestedUploadTime r) then Scheduled
                else Generated)
           ∧ sameRequest r r')
  ∧ trace (checkVideoStatus env videoId st).2 =
      trace st0 ++
      [EvUploadString (videoPath videoId) mediaUrl;
       EvGetDownloadURL (videoPath videoId);
       EvSpeech (script r);
       EvUploadString (audioPath videoId) audioDataUri;
       EvGetDownloadURL (audioPath videoId);
       EvMergeDoc videoId (finalPatch vUrl aUrl (finalStatusOf r));
       EvThumbnail (thumbnailFor r videoId)]
  ∧ (vUrl ≠ "" → aUrl ≠ "" →
     ∀ env',
       checkVideoStatus env' videoId (checkVideoStatus env videoId st).2 =
         (Ret {| out_status := completed; out_videoUrl := Some vUrl |},
          (checkVideoStatus env videoId st).2)).
Proof.
  intros Hreach Hup1 Hurl1 Hspeech Hup2 Hurl2 Hwrite.
  assert (videos st0 = videos st) as Hst0 by (by destruct Hreach).
  assert (videos st !! videoId = Some r) as Hr by (by destruct Hreach).
  rewrite (checkVideoStatus_materializes _ _ _ _ _ _ Hreach).
  assert (bool_decide (finalStatusOf r = Scheduled ∨ finalStatusOf r = Generated)
          = true) as Hfinal.
  { apply bool_decide_eq_true_2. unfold finalStatusOf.
    destruct (truthy (suggestedUploadTime r)); eauto. }
  assert (materializeOrFail env videoId r mediaUrl st0 =
    (Ret {| out_status := completed; out_videoUrl := Some vUrl |},
     withTrace (fun t => t ++ [EvThumbnail (thumbnailFor r videoId)])
       (withVideos
          (alter (applyPatch (finalPatch vUrl aUrl (finalStatusOf r))) videoId)
          (withTrace
             (fun t => t ++
                [EvUploadString (videoPath videoId) mediaUrl;
                 EvGetDownloadURL (videoPath videoId);
                 EvSpeech (script r);
                 EvUploadString (audioPath videoId) audioDataUri;
                 EvGetDownloadURL (audioPath videoId);
                 EvMergeDoc videoId (finalPatch vUrl aUrl (finalStatusOf r))])
             st0)))) as ->.
  { unfold materializeOrFail, tryCatch, materialize, updateVideoMetadata.
    mrun. fold (videoPath videoId) (audioPath videoId).
    rewrite Hup1, Hurl1, Hspeech, Hup2, Hurl2, Hwrite, Hfinal. simpl.
    unfold withTrace, withVideos. simpl. by rewrite <- !app_assoc. }
  simpl. rewrite Hst0, lookup_alter_eq, Hr. simpl.
  split_and!; try done.
  - eexists. split; [reflexivity |]. simpl.
    split_and!; try done; unfold sameRequest; simpl; by split_and!.
  - by rewrite <- app_assoc.
  - intros Hv Ha env'.
    match goal with
    | |- checkVideoStatus _ _ ?s = _ =>
        rewrite (checkVideoStatus_short_circuit env' videoId s
                   (applyPatch (finalPatch vUrl aUrl (finalStatusOf r)) r))
    end; simpl; try done.
    + by rewrite Hst0, lookup_alter_eq, Hr.
    + by apply truthy_Some_nonempty.
    + by apply truthy_Some_nonempty.
Qed.

Lemma materialization_stores_both_urls_witness :
  (checkVideoStatus (sunnyDay 2000 "unused") "v1" oneSubmitted).1 =
    Ret {| out_status := completed;
           out_videoUrl :=
             Some "https://storage/videos/v1/generated_video.mp4" |}
  ∧ ∃ r', videos (checkVideoStatus (sunnyDay 2000 "unused") "v1"
                    oneSubmitted).2 !! "v1" = Some r'
          ∧ audioUrl r' = Some "https://storage/videos/v1/generated_audio.wav"
          ∧ status r' = Generated.
Proof.
  destruct (materialization_stores_both_urls (sunnyDay 2000 "unused") "v1"
              oneSubmitted submittedRecord "data:video/mp4"
              (withTrace (fun t => t ++ [EvCheckOperation pendingOperation])
                 oneSubmitted)
              "https://storage/videos/v1/generated_video.mp4"
              "data:audio/wav"
              "https://storage/videos/v1/generated_audio.wav")
    as (Hout & (r' & Hr' & _ & Ha & Hs & _) & _).
  - apply oneSubmitted_reaches_materialization; [simpl; lia | reflexivity].
  - reflexivity.
  - reflexivity.
  - reflexivity.
  - reflexivity.
  - reflexivity.
  - reflexivity.
  - split; [exact Hout |]. exists r'. split_and!; [exact Hr' | exact Ha |].
    exact Hs.
Defined.

Lemma no_asset_call_in (evs : list Event) :
  forallb (fun e => negb (isAssetCall e)) evs = true →
  ¬ ∃ e, e ∈ evs ∧ isAssetCall e = true.
Proof.
  intros Hall (e & He & Ha).
  rewrite forallb_forall in Hall. specialize (Hall e).
  rewrite <- list_elem_of_In in Hall. specialize (Hall He).
  rewrite Ha in Hall. done.
Qed.

(** A call reaches for the asset store or the speech generator only when it
    has entered the materialization: the record lacks a URL, its operation is
    cached and in time, and the descriptor at hand is done, free of error and
    carries media.  On every other route nothing is uploaded or
    synthesized. *)
Theorem assets_are_touched_only_for_media env videoId st :
  ∃ evs,
    trace (checkVideoStatus env videoId st).2 = trace st ++ evs
    ∧ ((∃ e, e ∈ evs ∧ isAssetCall e = true) →
       ∃ r mediaUrl st0, ReachesMaterialization env videoId st r mediaUrl st0).
Proof.
  pose proof (checkVideoStatus_routes env videoId st) as Hroute.
  assert (∀ s evs0,
    trace s = trace st ++ evs0 →
    forallb (fun e => negb (isAssetCall e)) evs0 = true →
    ∃ evs, trace (markFailed env videoId s).2 = trace st ++ evs
           ∧ ((∃ e, e ∈ evs ∧ isAssetCall e = true) →
              ∃ r mediaUrl st0,
                ReachesMaterialization env videoId st r mediaUrl st0))
    as Hmark.
  { intros s evs0 Hs Hno.
    exists (evs0 ++ [EvMergeDoc videoId failedPatch]).
    split; [by rewrite markFailed_trace, Hs, app_assoc |].
    intros Hex. exfalso. revert Hex. apply no_asset_call_in.
    rewrite forallb_app, Hno. reflexivity. }
  destruct (videos st !! videoId) as [r|] eqn:Hr.
  2: { rewrite Hroute. exists []. split; [by rewrite app_nil_r |].
       by intros (e & He%elem_of_nil & _). }
  destruct (truthy (videoUrl r) && truthy (audioUrl r)) eqn:Hurls.
  { rewrite Hroute. exists []. split; [by rewrite app_nil_r |].
    by intros (e & He%elem_of_nil & _). }
  destruct (operationName r) as [name|] eqn:Hname; simpl in Hroute.
  2: { rewrite Hroute. apply (Hmark st []); [by rewrite app_nil_r | done]. }
  destruct (negb (String.eqb name "")) eqn:Hne; simpl in Hroute.
  2: { rewrite Hroute. apply (Hmark st []); [by rewrite app_nil_r | done]. }
  destruct (videoOperations st !! name) as [info|] eqn:Hinfo.
  2: { rewrite Hroute. apply (Hmark st []); [by rewrite app_nil_r | done]. }
  case_bool_decide as Hexp.
  { rewrite Hroute. apply (Hmark _ []); [by rewrite app_nil_r | done]. }
  assert (clock env - storedAt info ≤ 24 * 60 * 60 * 1000) as Hfresh by lia.
  assert (∀ op s evs0,
    trace s = trace st ++ evs0 →
    forallb (fun e => negb (isAssetCall e)) evs0 = true →
    done op = true →
    (error op = None → ∀ mediaUrl, videoMediaUrl op = Some mediaUrl →
       ∃ st0, ReachesMaterialization env videoId st r mediaUrl st0) →
    ∃ evs, trace (whenDone env videoId r op s).2 = trace st ++ evs
           ∧ ((∃ e, e ∈ evs ∧ isAssetCall e = true) →
              ∃ r mediaUrl st0,
                ReachesMaterialization env videoId st r mediaUrl st0))
    as Hdone.
  { intros op s evs0 Hs Hno Hd Hreach.
    destruct (whenDone_settles env videoId r op s)
      as (_ & evs & Ht & _ & _ & _ & Hfail).
    exists (evs0 ++ evs). split; [by rewrite Ht, Hs, app_assoc |].
    destruct (error op) as [err|] eqn:Herr.
    { rewrite Hfail by eauto. intros Hex. exfalso. revert Hex.
      apply no_asset_call_in. rewrite forallb_app, Hno. reflexivity. }
    destruct (videoMediaUrl op) as [mediaUrl|] eqn:Hmedia.
    - intros _. destruct (Hreach eq_refl mediaUrl eq_refl) as [st0 H0].
      by exists r, mediaUrl, st0.
    - rewrite Hfail by eauto. intros Hex. exfalso. revert Hex.
      apply no_asset_call_in. rewrite forallb_app, Hno. reflexivity. }
  destruct (done (operation info)) eqn:Hd.
  { rewrite Hroute. apply (Hdone _ st []); [by rewrite app_nil_r | done..|].
    intros Herr mediaUrl Hmedia. exists st.
    by apply (reaches_cached env videoId st r mediaUrl name info). }
  destruct (checkOperation env (operation info)) as [op|] eqn:Hop.
  2: { rewrite Hroute. exists [EvCheckOperation (operation info)].
       split; [done |]. intros Hex. exfalso. revert Hex.
       by apply no_asset_call_in. }
  destruct (done op) eqn:Hd'.
  - rewrite Hroute.
    apply (Hdone _ _ [EvCheckOperation (operation info)]); [done..|].
    intros Herr mediaUrl Hmedia. eexists.
    by apply (reaches_polled env videoId st r mediaUrl name info op).
  - rewrite Hroute. exists [EvCheckOperation (operation info)].
    split; [done |]. intros Hex. exfalso. revert Hex.
    by apply no_asset_call_in.
Qed.

(** ** The status field is not read *)

Lemma markFailed_uniform env videoId s s' :
  (markFailed env videoId s').1 = (markFailed env videoId s).1
  ∧ videoOperations (markFailed env videoId s).2 = videoOperations s
  ∧ videoOperations (markFailed env videoId s').2 = videoOperations s'.
Proof.
  destruct (docWrite env videoId failedPatch) eqn:Hw.
  - by rewrite !markFailed_accepted.
  - by rewrite !markFailed_refused.
Qed.

Lemma materializeOrFail_uniform env videoId r r' mediaUrl s s' :
  script r' = script r → title r' = title r →
  optimizedTitle r' = optimizedTitle r →
  suggestedUploadTime r' = suggestedUploadTime r →
  (materializeOrFail env videoId r' mediaUrl s').1 =
    (materializeOrFail env videoId r mediaUrl s).1
  ∧ ∃ evs,
      trace (materializeOrFail env videoId r' mediaUrl s').2 = trace s' ++ evs
      ∧ trace (materializeOrFail env videoId r mediaUrl s).2 = trace s ++ evs.
Proof.
  intros Hscript Htitle Hopt Hsug.
  unfold materializeOrFail, tryCatch, materialize, markFailed,
    updateVideoMetadata, finalStatusOf. mrun.
  rewrite Hscript, Htitle, Hopt, Hsug.
  assert (∀ t (a b : list Event), (t ++ a) ++ b = t ++ (a ++ b)) as Happ
    by (intros; by rewrite app_assoc).
  repeat (match goal with
          | |- context [uploadString ?e ?a ?b] =>
              destruct (uploadString e a b) eqn:?
          | |- context [getDownloadURL ?e ?a] =>
              destruct (getDownloadURL e a) eqn:?
          | |- context [generateSpeechAudio ?e ?a] =>
              destruct (generateSpeechAudio e a) eqn:?
          | |- context [docWrite ?e ?a ?b] =>
              destruct (docWrite e a b) eqn:?
          | |- context [bool_decide ?P] =>
              destruct (bool_decide P) eqn:?
          end; simpl);
    (split; [done |]); rewrite ?Happ; simpl;
    eexists; (split; reflexivity).
Qed.

Lemma whenDone_uniform env videoId r r' op s s' :
  script r' = script r → title r' = title r →
  optimizedTitle r' = optimizedTitle r →
  suggestedUploadTime r' = suggestedUploadTime r →
  trace s' = trace s →
  (whenDone env videoId r' op s').1 = (whenDone env videoId r op s).1
  ∧ ∃ evs,
      trace (whenDone env videoId r' op s').2 = trace s ++ evs
      ∧ trace (whenDone env videoId r op s).2 = trace s ++ evs.
Proof.
  intros Hscript Htitle Hopt Hsug Htrace. unfold whenDone.
  assert ((markFailed env videoId s').1 = (markFailed env videoId s).1
          ∧ ∃ evs, trace (markFailed env videoId s').2 = trace s ++ evs
                   ∧ trace (markFailed env videoId s).2 = trace s ++ evs)
    as Hmark.
  { split; [apply markFailed_uniform |].
    eexists. rewrite !markFailed_trace, Htrace. done. }
  case_bool_decide; [done |].
  destruct (videoMediaUrl op) as [mediaUrl|]; [| done].
  destruct (materializeOrFail_uniform env videoId r r' mediaUrl s s')
    as (Ho & evs & Ht' & Ht); try done.
  split; [done |]. exists evs. by rewrite Ht', Ht, Htrace.
Qed.

(** [checkVideoStatus] never reads the status of the record: with the
    status rewritten to any value beforehand, the call gives the same answer
    and asks the outside for the same things.  A record that reads [Failed],
    or [Published], is reconciled exactly as one that reads [Processing]. *)
Theorem checkVideoStatus_ignores_the_status env videoId s st :
  (checkVideoStatus env videoId
     (withVideos (alter (applyPatch (statusPatch s)) videoId) st)).1 =
    (checkVideoStatus env videoId st).1
  ∧ ∃ evs,
      trace (checkVideoStatus env videoId
               (withVideos (alter (applyPatch (statusPatch s)) videoId) st)).2 =
        trace st ++ evs
      ∧ trace (checkVideoStatus env videoId st).2 = trace st ++ evs.
Proof.
  set (st' := withVideos (alter (applyPatch (statusPatch s)) videoId) st).
  pose proof (checkVideoStatus_routes env videoId st) as H.
  pose proof (checkVideoStatus_routes env videoId st') as H'.
  assert (videos st' !! videoId =
          applyPatch (statusPatch s) <$> videos st !! videoId) as Hlook
    by (subst st'; simpl; by rewrite lookup_alter_eq).
  rewrite Hlook in H'. clear Hlook.
  change (videoOperations st') with (videoOperations st) in H'.
  assert ((markFailed env videoId st').1 = (markFailed env videoId st).1
          ∧ ∃ evs, trace (markFailed env videoId st').2 = trace st ++ evs
                   ∧ trace (markFailed env videoId st).2 = trace st ++ evs)
    as Hmark.
  { split; [apply markFailed_uniform |].
    eexists. by rewrite !markFailed_trace. }
  destruct (videos st !! videoId) as [r|]; simpl in H'.
  2: { rewrite H, H'. split; [done |]. exists []. by rewrite app_nil_r. }
  destruct (truthy (videoUrl r) && truthy (audioUrl r)).
  { rewrite H, H'. split; [done |]. exists []. by rewrite app_nil_r. }
  destruct (negb (truthy (operationName r))).
  { by rewrite H, H'. }
  destruct (videoOperations st !! default "" (operationName r)) as [info|].
  2: { by rewrite H, H'. }
  case_bool_decide.
  { rewrite H, H'. split; [apply markFailed_uniform |].
    eexists. by rewrite !markFailed_trace. }
  destruct (done (operation info)).
  { rewrite H, H'. by apply whenDone_uniform. }
  destruct (checkOperation env (operation info)) as [op|].
  2: { rewrite H, H'. split; [done |]. by eexists. }
  destruct (done op).
  - rewrite H, H'.
    destruct (whenDone_uniform env videoId r (applyPatch (statusPatch s) r) op
                (polled (operation info) st) (polled (operation info) st'))
      as (Ho & evs & Ht' & Ht); try done.
    split; [done |]. exists (EvCheckOperation (operation info) :: evs).
    rewrite Ht', Ht. simpl. by rewrite <- !app_assoc.
  - rewrite H, H'. split; [done |]. by eexists.
Qed.

(** ** Submissions with a script at hand *)

Lemma createAndProcessVideo_with_script env u len pl tpc ttl insp scr st :
  scr ≠ "" →
  ∃ evs,
    trace (createAndProcessVideo env u len pl tpc ttl insp (Some scr) st).2 =
      trace st ++
      EvOptimize {| or_videoTitle := orElse ttl "Untitled";
                    or_script := scr;
                    or_videoCategory := "Technology";
                    or_videoDescription := " ";
                    or_videoTags := "" |} :: evs
    ∧ scriptRequests evs = []
    ∧ (createdDocs evs = []
       ∨ ∃ opt,
           optimizeYoutubeUpload env
             {| or_videoTitle := orElse ttl "Untitled"; or_script := scr;
                or_videoCategory := "Technology"; or_videoDescription := " ";
                or_videoTags := "" |} = Ok opt
           ∧ createdDocs evs =
               [videoDataOf (newDocId env) u (clock env)
                  (newVideoDetails
                     {| res_script := scr;
                        res_title := orElse ttl "Untitled";
                        res_topic := orElse tpc "Custom Script" |}
                     len pl opt)]).
Proof.
  intros Hscr.
  unfold createAndProcessVideo, resolveScript, addNewVideo, createAIVideo,
    storeOperation, updateVideoMetadata.
  rewrite (truthy_Some_nonempty scr Hscr). simpl. mrun.
  unfold optimizeRequest. simpl.
  assert (∀ t (a b : list Event), (t ++ a) ++ b = t ++ (a ++ b)) as Happ
    by (intros; by rewrite app_assoc).
  destruct (optimizeYoutubeUpload env _) as [opt|] eqn:Hopt; simpl;
    [| eexists; split_and!; [reflexivity | done | by left]].
  destruct (docCreate env _); simpl;
    [| rewrite ?Happ; simpl; eexists; split_and!; [reflexivity | done |];
       right; by exists opt].
  destruct (renderSubmit env _ _) as [sub|]; simpl;
    [| rewrite ?Happ; simpl; eexists; split_and!; [reflexivity | done |];
       right; by exists opt].
  destruct (docWrite env _ _); simpl;
    rewrite ?Happ; simpl; eexists; (split_and!; [reflexivity | done |]);
    right; by exists opt.
Qed.

(** A submission that comes with a script never asks the script generator:
    its first request is the optimizer's, on the script as given and on the
    title as given, or "Untitled" without one.  The record it hands to the
    store, if it gets that far, carries the script verbatim, that title, the
    optimizer's metadata and the status [Processing]. *)
Theorem supplied_script_is_used_verbatim
    env u len pl tpc ttl insp scr st :
  scr ≠ "" →
  ∃ evs,
    trace (createAndProcessVideo env u len pl tpc ttl insp (Some scr) st).2 =
      trace st ++
      EvOptimize {| or_videoTitle := orElse ttl "Untitled";
                    or_script := scr;
                    or_videoCategory := "Technology";
                    or_videoDescription := " ";
                    or_videoTags := "" |} :: evs
    ∧ scriptRequests evs = []
    ∧ (length (createdDocs evs) ≤ 1)%nat
    ∧ ∀ d, d ∈ createdDocs evs →
           script d = scr ∧ title d = orElse ttl "Untitled"
           ∧ uid d = u ∧ videoLength d = Some len ∧ playlist d = pl
           ∧ status d = Processing ∧ videoUrl d = None ∧ audioUrl d = None
           ∧ ∃ opt,
               optimizeYoutubeUpload env
                 {| or_videoTitle := orElse ttl "Untitled";
                    or_script := scr; or_videoCategory := "Technology";
                    or_videoDescription := " "; or_videoTags := "" |} = Ok opt
               ∧ optimizedTitle d = optTitle opt
               ∧ suggestedUploadTime d = optSuggestedUploadTime opt.
Proof.
  intros Hscr.
  destruct (createAndProcessVideo_with_script env u len pl tpc ttl insp
              scr st Hscr) as (evs & Ht & Hs & Hd).
  exists evs. split_and!; try done.
  - destruct Hd as [->|(opt & _ & ->)]; simpl; lia.
  - intros d Hin. destruct Hd as [Hd|(opt & Hopt & Hd)]; rewrite Hd in Hin.
    + by apply elem_of_nil in Hin.
    + apply list_elem_of_singleton in Hin as ->. simpl.
      split_and!; try done. by exists opt.
Qed.

Lemma supplied_script_is_used_verbatim_witness :
  ∃ evs,
    trace (createAndProcessVideo (sunnyDay 1000 "v1") "u1" short None
             (Some "Custom Script") (Some "My own") None
             (Some "A script of my own") emptyStore).2 =
      trace emptyStore ++
      EvOptimize {| or_videoTitle := "My own";
                    or_script := "A script of my own";
                    or_videoCategory := "Technology";
                    or_videoDescription := " ";
                    or_videoTags := "" |} :: evs
    ∧ scriptRequests evs = [].
Proof.
  destruct (supplied_script_is_used_verbatim (sunnyDay 1000 "v1") "u1" short
              None (Some "Custom Script") (Some "My own") None
              "A script of my own" emptyStore) as (evs & Ht & Hs & _).
  - discriminate.
  - exists evs. split; [exact Ht | exact Hs].
Defined.

Lemma createAndProcessVideo_frame env u len pl tpc ttl insp scr st i :
  i ≠ newDocId env →
  videos (createAndProcessVideo env u len pl tpc ttl insp scr st).2 !! i =
    videos st !! i.
Proof.
  intros Hi.
  unfold createAndProcessVideo, resolveScript, addNewVideo, createAIVideo,
    storeOperation, updateVideoMetadata. mrun.
  destruct (truthy scr); simpl;
    [| destruct (generateVideoScript env _) as [sr|]; simpl; [| done]];
    (destruct (optimizeYoutubeUpload env _) as [opt|]; simpl; [| done]);
    (destruct (docCreate env _); simpl; [| done]);
    (destruct (renderSubmit env _ _) as [sub|]; simpl;
       [| by rewrite lookup_insert_ne]);
    (destruct (docWrite env _ _); simpl;
       [rewrite lookup_alter_ne by done |]; by rewrite lookup_insert_ne).
Qed.

(** Retrying a failed video is a new submission: the failed record, like
    every document but the new one, stays as it is.  With a script on the
    record the script generator is not asked again; the new record takes the
    script, the playlist and the length of the old one ([short] if it had
    none), and as its title the optimized title of the old one. *)
Theorem retry_submits_anew env userUid (video : VideoDetails) st :
  script video ≠ "" →
  (∀ i, i ≠ newDocId env →
        videos (handleRetryVideo env userUid video st).2 !! i =
          videos st !! i)
  ∧ ∃ evs,
      trace (handleRetryVideo env userUid video st).2 =
        trace st ++
        EvOptimize {| or_videoTitle := orElse (Some (optimizedTitle video))
                                         "Untitled";
                      or_script := script video;
                      or_videoCategory := "Technology";
                      or_videoDescription := " ";
                      or_videoTags := "" |} :: evs
      ∧ scriptRequests evs = []
      ∧ (length (createdDocs evs) ≤ 1)%nat
      ∧ ∀ d, d ∈ createdDocs evs →
             id d = newDocId env ∧ uid d = userUid
             ∧ script d = script video
             ∧ title d = orElse (Some (optimizedTitle video)) "Untitled"
             ∧ playlist d = playlist video
             ∧ videoLength d = Some (default short (videoLength video))
             ∧ status d = Processing.
Proof.
  intros Hscr. split.
  - intros i Hi. by apply createAndProcessVideo_frame.
  - unfold handleRetryVideo.
    destruct (createAndProcessVideo_with_script env userUid
                (default short (videoLength video)) (playlist video)
                (Some (title video)) (Some (optimizedTitle video)) None
                (script video) st Hscr) as (evs & Ht & Hs & Hd).
    exists evs. split_and!; try done.
    + destruct Hd as [->|(opt & _ & ->)]; simpl; lia.
    + intros d Hin. destruct Hd as [Hd|(opt & Hopt & Hd)]; rewrite Hd in Hin.
      * by apply elem_of_nil in Hin.
      * apply list_elem_of_singleton in Hin as ->. done.
Qed.

Lemma retry_submits_anew_witness :
  status <$> videos (handleRetryVideo (sunnyDay 8000 "retry-1") "u1"
                       {| id := "auto-0"; uid := "u1"; title := "A title";
                          script := "Once upon a time";
                          videoLength := Some short; thumbnailUrl := None;
                          playlist := None; status := Failed;
                          optimizedTitle := "A title!";
                          optimizedDescription := None;
                          optimizedTags := None; optimizedCategory := None;
                          suggestedUploadTime := None; createdAt := 5000;
                          videoUrl := None; audioUrl := None;
                          operationName := Some "op-auto-0" |}
                       threeFailed).2 !! "auto-0" = Some Failed.
Proof.
  destruct (retry_submits_anew (sunnyDay 8000 "retry-1") "u1"
              {| id := "auto-0"; uid := "u1"; title := "A title";
                 script := "Once upon a time";
                 videoLength := Some short; thumbnailUrl := None;
                 playlist := None; status := Failed;
                 optimizedTitle := "A title!";
                 optimizedDescription := None;
                 optimizedTags := None; optimizedCategory := None;
                 suggestedUploadTime := None; createdAt := 5000;
                 videoUrl := None; audioUrl := None;
                 operationName := Some "op-auto-0" |}
              threeFailed) as [Hframe _].
  - discriminate.
  - rewrite (Hframe "auto-0"); [vm_compute; reflexivity | discriminate].
Defined.

(** ** The auto-pilot, when a collaborator fails *)

Lemma createAndProcessVideo_script_rejected env u len pl tpc ttl insp st :
  generateVideoScript env {| sr_length := len; sr_topic := tpc;
                             sr_videoTitle := ttl;
                             sr_inspirationVideoUrl := insp |} = Rejected →
  createAndProcessVideo env u len pl tpc ttl insp None st =
    (Throw,
     withTrace (fun t => t ++
       [EvGenerateScript {| sr_length := len; sr_topic := tpc;
                            sr_videoTitle := ttl;
                            sr_inspirationVideoUrl := insp |}]) st).
Proof.
  intros Hrej. unfold createAndProcessVideo, resolveScript. simpl. mrun.
  by rewrite Hrej.
Qed.

Lemma forLoop_aborts jobs u len pl tpc (titleOf : nat → option string) k :
  ∀ n i0 st,
  (k < n)%nat →
  (∀ i, (i0 ≤ i < i0 + k)%nat → reliable (jobs i)) →
  generateVideoScript (jobs (i0 + k)%nat)
    {| sr_length := len; sr_topic := tpc; sr_videoTitle := titleOf (i0 + k)%nat;
       sr_inspirationVideoUrl := None |} = Rejected →
  ∃ st' evs,
    forLoop n i0
      (fun i =>
         await _ := createAndProcessVideo (jobs i) u len pl tpc (titleOf i)
                      None None in
         ret tt) st = (Throw, st')
    ∧ trace st' = trace st ++ evs
    ∧ scriptRequests evs =
        map (fun i => {| sr_length := len; sr_topic := tpc;
                         sr_videoTitle := titleOf i;
                         sr_inspirationVideoUrl := None |}) (seq i0 (S k))
    ∧ length (createdDocs evs) = k.
Proof.
  induction k as [|k IH]; intros n i0 st Hn Hjobs Hrej.
  - destruct n as [|n]; [lia |]. simpl.
    rewrite Nat.add_0_r in Hrej.
    unfold bind at 1. unfold bind at 1.
    rewrite (createAndProcessVideo_script_rejected _ _ _ _ _ _ _ _ Hrej).
    eexists _, _. split; [reflexivity |]. simpl. by split_and!.
  - destruct n as [|n]; [lia |]. simpl.
    destruct (createAndProcessVideo_reliable (jobs i0) u len pl tpc
                (titleOf i0) None st) as (out & st1 & evs1 & d & E & Ht & Hs
                                           & Hd & _).
    { apply Hjobs. lia. }
    destruct (IH n (S i0) st1) as (st2 & evs2 & E2 & Ht2 & Hs2 & Hn2).
    { lia. }
    { intros i Hi. apply Hjobs. lia. }
    { by replace (S i0 + k)%nat with (i0 + S k)%nat by lia. }
    exists st2, (evs1 ++ evs2). split_and!; try done.
    + unfold bind at 1. unfold bind at 1. rewrite E. simpl. exact E2.
    + by rewrite Ht2, Ht, app_assoc.
    + unfold scriptRequests in *. by rewrite omap_app, Hs, Hs2.
    + unfold createdDocs in *. rewrite omap_app, Hd, length_app, Hn2. done.
Qed.

(** The loop of the auto-pilot stops at the first job that fails: when the
    script generator rejects job [k] after [k] jobs went through,
    [runAutoPilot uid short] rejects, the [k] records are there, job [k] has
    sent its request and no later job is started. *)
Theorem autopilot_stops_at_the_first_failure env jobs u st k :
  let c := size (filter (createdWithin u short (startOfToday env)
                           (startOfToday env + (msPerDay - 1))) (videos st)) in
  let deficit := Z.to_nat (Z.max 0 (3 - Z.of_nat c)) in
  (k < deficit)%nat →
  (∀ i, (i < k)%nat → reliable (jobs i)) →
  generateVideoScript (jobs k) trendingRequest = Rejected →
  ∃ st' evs,
    runAutoPilot env jobs u short st = (Throw, st')
    ∧ trace st' = trace st ++ evs
    ∧ scriptRequests evs = replicate (S k) trendingRequest
    ∧ length (createdDocs evs) = k.
Proof.
  intros c deficit Hk Hjobs Hrej. simpl. unfold createShorts.
  rewrite (bind_resolved _ _ _ _ _ (getTodaysVideoCounts_spec env u st)).
  simpl. fold c. unfold shortsNeeded, dailyShortGoal. fold deficit.
  rewrite bool_decide_eq_true_2 by lia.
  destruct (forLoop_aborts jobs u short None (Some "a trending topic")
              (fun _ => None) k deficit 0%nat st)
    as (st' & evs & E & Ht & Hs & Hn); try done.
  { intros i Hi. apply Hjobs. lia. }
  exists st', evs. split_and!; try done.
  rewrite Hs. apply (map_const_seq trendingRequest 0 (S k)).
Qed.

Lemma autopilot_stops_at_the_first_failure_witness :
  ∃ st' evs,
    runAutoPilot (sunnyDay 5000 "unused")
      (fun i => if decide (i = 1%nat) then scriptDown 5000 "auto-1"
                else autopilotJobs i) "u1" short emptyStore = (Throw, st')
    ∧ trace st' = trace emptyStore ++ evs
    ∧ scriptRequests evs = [trendingRequest; trendingRequest]
    ∧ length (createdDocs evs) = 1%nat.
Proof.
  apply (autopilot_stops_at_the_first_failure (sunnyDay 5000 "unused")
           (fun i => if decide (i = 1%nat) then scriptDown 5000 "auto-1"
                     else autopilotJobs i) "u1" emptyStore 1).
  - vm_compute. lia.
  - intros i Hi. assert (i = 0%nat) as -> by lia. apply sunnyDay_reliable.
  - reflexivity.
Defined.

(** The strategist is asked once, after the playlists are read, and only
    when long videos are missing this week.  When it rejects, the call
    rejects too, before any job: nothing is created and nothing else is
    asked. *)
Theorem autopilot_long_without_a_suggestion env jobs u st :
  let c := size (filter (createdWithin u long (startOfThisWeek env)
                           (startOfThisWeek env + 6 * msPerDay
                            + (msPerDay - 1))) (videos st)) in
  ((2 ≤ c)%nat → runAutoPilot env jobs u long st = (Ret tt, st))
  ∧ ((c < 2)%nat →
     ∀ pls, (getPlaylists u st).1 = Ret pls →
            suggestSeriesStrategy env pls = Rejected →
            runAutoPilot env jobs u long st =
              (Throw, withTrace (fun t => t ++ [EvSuggestSeries pls]) st)).
Proof.
  intros c. split.
  - intros Hc. simpl. unfold createLongs.
    rewrite (bind_resolved _ _ _ _ _ (getThisWeeksVideoCounts_spec env u st)).
    simpl. fold c. unfold longsNeeded, weeklyLongGoal.
    by rewrite bool_decide_eq_false_2 by lia.
  - intros Hc pls Hpls Hrej. simpl. unfold createLongs.
    rewrite (bind_resolved _ _ _ _ _ (getThisWeeksVideoCounts_spec env u st)).
    simpl. fold c. unfold longsNeeded, weeklyLongGoal.
    rewrite bool_decide_eq_true_2 by lia.
    destruct (getPlaylists_reads u st) as [pls' Epls].
    rewrite Epls in Hpls. injection Hpls as ->.
    rewrite (bind_resolved _ _ _ _ _ Epls).
    unfold bind at 1, emit. unfold bind at 1, answer. by rewrite Hrej.
Qed.

(** ** The [useAuth] hook *)

Lemma asciiLower_lowercases : Auth.lowercases Auth.asciiLower.
Proof.
  intros s. induction s as [|c s IH]; simpl; [done |].
  rewrite IH, andb_true_r.
  destruct (Auth.isUpper c) eqn:Hc; [| by rewrite Hc].
  unfold Auth.isUpper in *.
  apply andb_true_iff in Hc as [Hlo Hhi].
  apply Nat.leb_le in Hlo, Hhi.
  rewrite Ascii.nat_ascii_embedding by lia.
  apply negb_true_iff, andb_false_iff. right. apply Nat.leb_gt. lia.
Qed.

(** An activation that has run out is revoked at sign-in: the document and
    the state of the hook lose [isActivated] and the expiry, and keep the
    rest.  An activation without expiry, with expiry 0, or not yet run out
    is left alone and nothing is written.  So a callback that resolves never
    reports an activated user whose expiry lies in the past, and running it
    again changes nothing. *)
Theorem expired_activation_is_revoked
    toLowerCase now writeOk fu users h (userData : Auth.AppUser) :
  users !! Auth.fbUid fu = Some userData →
  let res := Auth.onAuthStateChanged toLowerCase now writeOk (Some fu) users h in
  (Auth.activationExpired now userData = true →
     res.1.1 = writeOk
     ∧ (writeOk = true →
          ∃ revoked,
            res.1.2 = <[Auth.fbUid fu := revoked]> users
            ∧ Auth.appUser res.2 = Some revoked
            ∧ Auth.isActivated revoked = false
            ∧ Auth.activationExpires revoked = None
            ∧ Auth.uid revoked = Auth.uid userData
            ∧ Auth.email revoked = Auth.email userData
            ∧ Auth.name revoked = Auth.name userData
            ∧ Auth.isAdmin revoked = Auth.isAdmin userData)
     ∧ (writeOk = false →
          res.1.2 = users ∧ Auth.appUser res.2 = Auth.appUser h
          ∧ Auth.isLoading res.2 = Auth.isLoading h))
  ∧ (Auth.activationExpired now userData = false →
       res.1.1 = true ∧ res.1.2 = users
       ∧ Auth.appUser res.2 = Some userData)
  ∧ (res.1.1 = true →
       Auth.isLoading res.2 = false
       ∧ (Auth.reportedActivated res.2 = true →
          ∃ a, Auth.appUser res.2 = Some a
               ∧ ∀ e, Auth.activationExpires a = Some e → e = 0 ∨ now ≤ e)
       ∧ ∀ writeOk',
           Auth.onAuthStateChanged toLowerCase now writeOk' (Some fu)
             res.1.2 res.2 = (true, res.1.2, res.2)).
Proof.
  intros Hdoc res. subst res. unfold Auth.onAuthStateChanged. rewrite Hdoc.
  destruct (Auth.activationExpired now userData) eqn:Hexp.
  - destruct writeOk; simpl.
    + split; [| split; [done |]].
      * intros _. split_and!; try done. intros _. eexists. by split_and!.
      * intros _. split_and!; try done. intros writeOk'.
        by rewrite lookup_insert_eq.
    + split; [| split; [done | done]].
      intros _. by split_and!.
  - simpl. split_and!; try done. intros _. split_and!; try done.
    + unfold Auth.reportedActivated. simpl. intros Hact.
      exists userData. split; [done |]. intros e He.
      unfold Auth.activationExpired in Hexp. rewrite Hact, He in Hexp.
      simpl in Hexp. destruct (Z.eqb_spec e 0); [by left |].
      simpl in Hexp. apply bool_decide_eq_false_1 in Hexp. right. lia.
    + intros writeOk'. by rewrite Hdoc, Hexp.
Qed.

Lemma expired_activation_is_revoked_witness :
  (Auth.onAuthStateChanged Auth.asciiLower 2000 true
     (Some {| Auth.fbUid := "u1"; Auth.fbEmail := Some "a@b.c";
              Auth.fbDisplayName := None |})
     {[ "u1" := {| Auth.uid := "u1"; Auth.email := Some "a@b.c";
                   Auth.name := None; Auth.isAdmin := false;
                   Auth.isActivated := true;
                   Auth.activationExpires := Some 1000 |} ]}
     Auth.initialState).1.1 = true.
Proof.
  destruct (expired_activation_is_revoked Auth.asciiLower 2000 true
    {| Auth.fbUid := "u1"; Auth.fbEmail := Some "a@b.c";
       Auth.fbDisplayName := None |}
    {[ "u1" := {| Auth.uid := "u1"; Auth.email := Some "a@b.c";
                  Auth.name := None; Auth.isAdmin := false;
                  Auth.isActivated := true;
                  Auth.activationExpires := Some 1000 |} ]}
    Auth.initialState
    {| Auth.uid := "u1"; Auth.email := Some "a@b.c";
       Auth.name := None; Auth.isAdmin := false;
       Auth.isActivated := true;
       Auth.activationExpires := Some 1000 |}) as [Hrev _].
  - reflexivity.
  - destruct Hrev as [H _]; [reflexivity | exact H].
Defined.

Lemma lowercased_is_not_the_second_address toLowerCase s :
  Auth.lowercases toLowerCase → toLowerCase s ≠ "Pdey02485@gmail.com".
Proof.
  intros Hlow Heq. specialize (Hlow s). rewrite Heq in Hlow.
  vm_compute in Hlow. discriminate.
Qed.

(** The first sign-in of a user without a document creates one, activated
    exactly when it is an administrator's, without expiry.  The address is
    lower-cased before it is looked up in the list of administrators, so the
    user is an administrator exactly when the lower-cased address is
    [deypartho569@gmail.com]: the second entry of the list, spelled with a
    capital letter, matches no address, however it is typed.  When the
    store refuses the document, nothing is created and the hook keeps
    loading. *)
Theorem first_sign_in_creates_the_user
    toLowerCase now fu users h :
  Auth.lowercases toLowerCase →
  users !! Auth.fbUid fu = None →
  (∃ d,
     Auth.onAuthStateChanged toLowerCase now true (Some fu) users h =
       (true, <[Auth.fbUid fu := d]> users,
        {| Auth.user := Some fu; Auth.appUser := Some d;
           Auth.isLoading := false |})
     ∧ Auth.uid d = Auth.fbUid fu
     ∧ Auth.name d = Auth.fbDisplayName fu
     ∧ Auth.activationExpires d = None
     ∧ Auth.isActivated d = Auth.isAdmin d
     ∧ (Auth.isAdmin d = true ↔
        ∃ e, Auth.fbEmail fu = Some e
             ∧ toLowerCase e = "deypartho569@gmail.com"))
  ∧ (Auth.onAuthStateChanged toLowerCase now false (Some fu) users h).1 =
      (false, users)
  ∧ Auth.appUser
      (Auth.onAuthStateChanged toLowerCase now false (Some fu) users h).2 =
      Auth.appUser h
  ∧ Auth.isLoading
      (Auth.onAuthStateChanged toLowerCase now false (Some fu) users h).2 =
      Auth.isLoading h.
Proof.
  intros Hlow Hdoc. unfold Auth.onAuthStateChanged. rewrite Hdoc.
  split_and!; try done.
  eexists. split; [reflexivity |]. simpl. split_and!; try done.
  rewrite bool_decide_eq_true. unfold Auth.initialAdminEmails.
  rewrite !elem_of_cons, elem_of_nil.
  destruct (Auth.fbEmail fu) as [e|].
  - assert ((if String.eqb (toLowerCase e) "" then "" else toLowerCase e)
            = toLowerCase e) as ->.
    { by destruct (String.eqb_spec (toLowerCase e) "") as [->|]. }
    split.
    + intros [H|[H|[]]]; [by exists e |].
      by apply lowercased_is_not_the_second_address in H.
    + intros (e' & [= <-] & H). by left.
  - split; [by intros [H|[H|[]]] | by intros (e' & [=] & _)].
Qed.

Lemma first_sign_in_creates_the_user_witness :
  ∃ d,
    Auth.onAuthStateChanged Auth.asciiLower 2000 true
      (Some {| Auth.fbUid := "u9"; Auth.fbEmail := Some "Pdey02485@gmail.com";
               Auth.fbDisplayName := Some "P" |}) ∅ Auth.initialState =
      (true, <["u9" := d]> ∅,
       {| Auth.user :=
            Some {| Auth.fbUid := "u9";
                    Auth.fbEmail := Some "Pdey02485@gmail.com";
                    Auth.fbDisplayName := Some "P" |};
          Auth.appUser := Some d; Auth.isLoading := false |})
    ∧ Auth.isAdmin d = false.
Proof.
  destruct (first_sign_in_creates_the_user Auth.asciiLower 2000
    {| Auth.fbUid := "u9"; Auth.fbEmail := Some "Pdey02485@gmail.com";
       Auth.fbDisplayName := Some "P" |} ∅ Auth.initialState)
    as [(d & E & _ & _ & _ & _ & Hadmin) _].
  - apply asciiLower_lowercases.
  - reflexivity.
  - exists d. split; [exact E |].
    destruct (Auth.isAdmin d) eqn:Hd; [| reflexivity].
    destruct Hadmin as [Hadmin _].
    destruct (Hadmin eq_refl) as (e & [= <-] & He).
    vm_compute in He. discriminate.
Defined.

(** ** The own-script form *)

(** A submission of the own-script form, whose schema demands a title and a
    script of at least ten characters, never reaches the script generator:
    the optimizer is asked first, on that title and that script, and the
    record handed to the store carries both as typed, without playlist. *)
Theorem own_script_submission_skips_the_generator
    env userUid dataTitle dataScript dataLength st :
  (1 ≤ String.length dataTitle)%nat →
  (10 ≤ String.length dataScript)%nat →
  ∃ evs,
    trace (handleOwnScriptSubmit env userUid dataTitle dataScript dataLength
             st).2 =
      trace st ++
      EvOptimize {| or_videoTitle := dataTitle; or_script := dataScript;
                    or_videoCategory := "Technology";
                    or_videoDescription := " "; or_videoTags := "" |} :: evs
    ∧ scriptRequests evs = []
    ∧ (length (createdDocs evs) ≤ 1)%nat
    ∧ ∀ d, d ∈ createdDocs evs →
           title d = dataTitle ∧ script d = dataScript
           ∧ videoLength d = Some dataLength ∧ playlist d = None
           ∧ uid d = userUid ∧ status d = Processing.
Proof.
  intros Htitle Hscript.
  assert (dataTitle ≠ "") as Ht by (intros ->; simpl in Htitle; lia).
  assert (dataScript ≠ "") as Hs by (intros ->; simpl in Hscript; lia).
  unfold handleOwnScriptSubmit.
  destruct (createAndProcessVideo_with_script env userUid dataLength None
              (Some "Custom Script") (Some dataTitle) None dataScript st Hs)
    as (evs & Htr & Hreq & Hd).
  assert (orElse (Some dataTitle) "Untitled" = dataTitle) as Hor.
  { simpl. by destruct (String.eqb_spec dataTitle ""). }
  rewrite Hor in Htr, Hd.
  exists evs. split_and!; try done.
  - destruct Hd as [->|(opt & _ & ->)]; simpl; lia.
  - intros d Hin. destruct Hd as [Hd|(opt & Hopt & Hd)]; rewrite Hd in Hin.
    + by apply elem_of_nil in Hin.
    + apply list_elem_of_singleton in Hin as ->. done.
Qed.

Lemma own_script_submission_skips_the_generator_witness :
  ∃ evs,
    trace (handleOwnScriptSubmit (scriptDown 1000 "v1") "u1" "My own"
             "A script of my own" long emptyStore).2 =
      trace emptyStore ++
      EvOptimize {| or_videoTitle := "My own";
                    or_script := "A script of my own";
                    or_videoCategory := "Technology";
                    or_videoDescription := " "; or_videoTags := "" |} :: evs
    ∧ scriptRequests evs = []
    ∧ length (createdDocs evs) = 1%nat.
Proof.
  destruct (own_script_submission_skips_the_generator (scriptDown 1000 "v1")
              "u1" "My own" "A script of my own" long emptyStore)
    as (evs & Ht & Hs & _).
  - simpl. lia.
  - simpl. lia.
  - exists evs. split; [exact Ht |]. split; [exact Hs |].
    assert (trace (handleOwnScriptSubmit (scriptDown 1000 "v1") "u1" "My own"
                     "A script of my own" long emptyStore).2 =
            trace emptyStore ++
            EvOptimize {| or_videoTitle := "My own";
                          or_script := "A script of my own";
                          or_videoCategory := "Technology";
                          or_videoDescription := " "; or_videoTags := "" |}
            :: evs) as Ht' by exact Ht.
    vm_compute in Ht'. injection Ht' as <-. reflexivity.
Defined.
